(** * GoTile: tile coding of vectors — a shallow embedding

    The development follows the two source files of the package:
    the tiling ([Tiling], [NewTiling], [Index], [IndexBatch], [Tiles]) and
    the tile coder ([TileCoder], [New], [EncodeIndices], [Encode],
    [ToVector], [ToIndices], [VecLength], [featuresBeforeTiling],
    [encodeWithTiling]).

    Conventions of the embedding.
    - Go's [int] is a 64-bit two's complement integer: it is a [Z] and every
      arithmetic operation of the source is followed by [wrap].
    - Go's [float64] is modelled by the exact rationals [Q]: the arithmetic
      is the source's, without rounding, infinities or NaN.  The model is
      the code where the values are exactly representable: integers are
      up to 2^53, conversions to [int] inside the 64 bits, sums and
      quotients as long as rounding cannot move a value across a tile
      boundary.  A property that depends on it states the bound among its
      hypotheses ([exact_bins], [exact_tiles], [exact_features],
      [well_scaled], [fits_int]).
    - A run-time panic (index out of range, gonum's shape panics, the
      explicit [panic] of [ToIndices]) is [None].
    - gonum's [mat.VecDense] is a [list float64]; [mat.Dense] is a record
      with its dimensions and its row-major data. *)

From Stdlib Require Import ZArith QArith Qround Lia Lqa List.
From stdpp Require Import base tactics option list relations.

Local Open Scope Z_scope.

(** ** Machine integers and floats *)

Module GoInt.

Definition int_min : Z := - 2 ^ 63.
Definition int_max : Z := 2 ^ 63 - 1.

(** Two's complement wrap-around of a 64-bit signed integer. *)
Definition wrap (z : Z) : Z := (z + 2 ^ 63) mod 2 ^ 64 - 2 ^ 63.

Definition add (a b : Z) : Z := wrap (a + b).
Definition sub (a b : Z) : Z := wrap (a - b).
Definition mul (a b : Z) : Z := wrap (a * b).

Definition in_range (z : Z) : Prop := int_min <= z <= int_max.

End GoInt.

Abbreviation float64 := Q (only parsing).

(** [x < y] on floats. *)
Definition Qlt_bool (x y : float64) : bool :=
  (Qnum x * QDen y <? Qnum y * QDen x)%Z.

(** [float64(i)] for an [int] i, without rounding: the conversion of the
    code for [|i| <= 2^53]; beyond, Go rounds [i] to the nearest float. *)
Definition float64_of_int (z : Z) : float64 := inject_Z z.

(** [int(f)] for a float f: truncation toward zero.  The conversion of the
    code when the truncated value is an [int]; Go leaves the result open
    otherwise, the model reduces it to 64 bits. *)
Definition int_of_float64 (f : float64) : Z :=
  GoInt.wrap (Z.quot (Qnum f) (QDen f)).

(** [math.Floor]. *)
Definition Floor (f : float64) : float64 := inject_Z (Qfloor f).

(** [floatutils.Clip], clips a float to be in [[min, max]].  The function
    belongs to the module goutils, whose source is not part of the
    package, and is modelled by its behaviour: the value is limited to at
    most [max], then to at least [min], so that [min] is returned whenever
    [max < min].  (The commented-out [Clip] that the package keeps tests
    [f < min] first and differs in that case.) *)
Definition Clip (f min max : float64) : float64 :=
  let f := if Qlt_bool max f then max else f in
  if Qlt_bool f min then min else f.

(** ** Vectors and matrices (gonum/mat) *)

Abbreviation Vec := (list float64) (only parsing).

(** [v.AtVec(i)]; panics out of range. *)
Definition AtVec (v : Vec) (i : nat) : option float64 := v !! i.

(** [mat.NewVecDense(n, data)]: panics when [n <= 0], and when [data] is
    given with a length other than [n]; a nil [data] gives the zero
    vector. *)
Definition NewVecDense (n : Z) (data : option (list float64)) : option Vec :=
  if n <=? 0 then None
  else match data with
       | None => Some (replicate (Z.to_nat n) 0%Q)
       | Some d => if Z.of_nat (length d) =? n then Some d else None
       end.

(** [v.SetVec(i, x)]; panics out of range. *)
Definition SetVec (v : Vec) (i : Z) (x : float64) : option Vec :=
  if (0 <=? i) && (i <? Z.of_nat (length v))
  then Some (<[Z.to_nat i := x]> v)
  else None.

(** [a + alpha * b], gonum's [AddScaledVec] with the receiver aliasing [a];
    panics (ErrShape) when the lengths differ. *)
Definition AddScaledVec (a : Vec) (alpha : float64) (b : Vec) : option Vec :=
  if decide (length a = length b)
  then Some (zip_with (fun x y => (x + alpha * y)%Q) a b)
  else None.

(** gonum's [AddVec] with the receiver aliasing [a]. *)
Definition AddVec (a b : Vec) : option Vec :=
  if decide (length a = length b)
  then Some (zip_with (fun x y => (x + y)%Q) a b)
  else None.

(** [matutils.VecOnes], [matutils.VecFloor] and [matutils.VecClip] belong
    to goutils as well; they are modelled as the copies that the package
    keeps in comments, with the [Clip] above. *)

(** [matutils.VecOnes]. *)
Definition VecOnes (length : nat) : Vec := replicate length 1%Q.

(** [matutils.VecFloor]: element-wise floor division by a constant. *)
Definition VecFloor (a : Vec) (b : float64) : Vec :=
  map (fun x => Floor (x / b)%Q) a.

(** [matutils.VecClip]. *)
Definition VecClip (a : Vec) (min max : float64) : Vec :=
  map (fun x => Clip x min max) a.

(** A dense matrix: [drows] x [dcols], data in row-major order. *)
Record Dense : Type := mkDense {
  drows : nat;
  dcols : nat;
  ddata : list float64
}.

(** [b.RowView(i)]; panics out of range. *)
Definition RowView (b : Dense) (i : nat) : option Vec :=
  if decide (i < drows b)%nat
  then Some (take (dcols b) (drop (i * dcols b) (ddata b)))
  else None.

(** Column [c] of [b] as a vector (gonum's [ColView]). *)
Definition ColView (b : Dense) (c : nat) : option Vec :=
  if decide (c < dcols b)%nat
  then mapM (fun r => ddata b !! (r * dcols b + c)%nat) (seq 0 (drows b))
  else None.

(** ** Tiling *)

(** Default offset divisor. *)
Definition OffsetDiv : float64 := 3 # 2.

(** A grid of tiles over some space in R^n.  [offsets] is the single row of
    the 1 x n matrix of the source. *)
Record Tiling : Type := mkTiling {
  offsets : list float64;
  bins : list Z;
  binLengths : list float64;
  minDims : Vec;
  seed : Z
}.

(** The seeded uniform sampler of gonum (distmv.NewUniform with
    samplemv.IID): one draw inside the given bounds per dimension; [None]
    when gonum panics on the bounds. *)
Definition Sampler : Type :=
  Z -> list (float64 * float64) -> option (list float64).

Inductive TilingError : Type :=
| ErrMinMaxDims (nmin nmax : nat)   (* "cannot specify minimum with fewer
                                       dimensions than maximum" *)
| ErrNoBins                          (* "cannot have less than 1 bin per
                                       dimension" *)
| ErrBinsDims (have want : nat).     (* "there should be a single number of
                                       bins for each dimension" *)

(** The loop of [NewTiling] computing bin lengths and offset bounds, for
    [i] from [i] up to [minDims.Len()]; [fuel] is the number of
    iterations left.  With a bin count of zero the code divides by zero
    and gets an infinite bin length, which the rationals do not hold: the
    bin length of the model is then 0, and of such a tiling the model
    tells only that it is returned, without an error. *)
Fixpoint NewTiling_loop (minDims maxDims : Vec) (bins : list Z)
    (i fuel : nat) (binLengths : list float64)
    (bounds : list (float64 * float64))
  : option (list float64 * list (float64 * float64)) :=
  match fuel with
  | O => Some (binLengths, bounds)
  | S fuel' =>
      mx ← AtVec maxDims i;
      mn ← AtVec minDims i;
      b ← bins !! i;
      let binLength := (mx - mn)%Q in
      let binLength := (binLength / float64_of_int b)%Q in
      let bound := (binLength / OffsetDiv)%Q in
      NewTiling_loop minDims maxDims bins (S i) fuel'
        (binLengths ++ [binLength]) (bounds ++ [((- bound)%Q, bound)])
  end.

(** [NewTiling]: [Some (inl e)] is a returned error, [Some (inr t)] a
    tiling, [None] a panic (of the sampler).  The parameter [offsetDiv] is
    not read by the body: the bound is computed from the constant
    [OffsetDiv]. *)
Definition NewTiling (uniform : Sampler) (minDims maxDims : Vec)
    (bins : list Z) (seed : Z) (offsetDiv : float64)
  : option (TilingError + Tiling) :=
  if negb (length minDims =? length maxDims)%nat then
    Some (inl (ErrMinMaxDims (length minDims) (length maxDims)))
  else if (length bins =? 0)%nat then
    Some (inl ErrNoBins)
  else if negb (length bins =? length minDims)%nat then
    Some (inl (ErrBinsDims (length bins) (length minDims)))
  else
    '(binLengths, bounds) ←
       NewTiling_loop minDims maxDims bins 0 (length minDims) [] [];
    offsets ← uniform seed bounds;
    Some (inr (mkTiling offsets bins binLengths minDims seed)).

(** The body of the loop of [Index] up to the conversion to [int]: the
    clipped tile along dimension [i].  The sum, the difference and the
    quotient are exact here and rounded in the code, where a coordinate
    within a rounding error of a tile boundary can fall in the
    neighbouring tile. *)
Definition tileIndex (t : Tiling) (v : Vec) (i : nat) : option Z :=
  x ← AtVec v i;
  off ← offsets t !! i;
  let data := (x + off)%Q in
  mn ← AtVec (minDims t) i;
  bl ← binLengths t !! i;
  let tile := Floor ((data - mn) / bl)%Q in
  b ← bins t !! i;
  let tile := Clip tile 0%Q (float64_of_int (GoInt.sub b 1)) in
  Some (int_of_float64 tile).

(** The loop of [Index], for the dimensions [i-1] down to [0]. *)
Fixpoint Index_loop (t : Tiling) (v : Vec) (i : nat) (index : Z) : option Z :=
  match i with
  | O => Some index
  | S i' =>
      tileIndex ← tileIndex t v i';
      index' ← (if decide (i' = length (bins t) - 1)%nat
                then Some (GoInt.add index tileIndex)
                else b1 ← bins t !! S i';
                     Some (GoInt.add index (GoInt.mul tileIndex b1)));
      Index_loop t v i' index'
  end.

(** [Index] returns the index of the tile within which [v] falls. *)
Definition Index (t : Tiling) (v : Vec) : option Z :=
  Index_loop t v (length (bins t)) 0.

(** The loop of [IndexBatch]. *)
Fixpoint IndexBatch_loop (t : Tiling) (b : Dense) (ones : Vec)
    (i : nat) (index : Vec) : option Vec :=
  match i with
  | O => Some index
  | S i' =>
      data ← RowView b i';
      off ← offsets t !! i';
      data ← AddScaledVec data off ones;
      mn ← AtVec (minDims t) i';
      data ← AddScaledVec data (- mn)%Q ones;
      bl ← binLengths t !! i';
      let data := VecFloor data bl in
      bn ← bins t !! i';
      let data := VecClip data 0%Q (float64_of_int (GoInt.sub bn 1)) in
      index' ← (if decide (i' = length (bins t) - 1)%nat
                then AddVec index data
                else b1 ← bins t !! S i';
                     AddScaledVec index (float64_of_int b1) data);
      IndexBatch_loop t b ones i' index'
  end.

(** [IndexBatch]: the vectors [ones], [data] and [index] are created with
    [rows] entries, [rows] being the number of rows of [b]. *)
Definition IndexBatch (t : Tiling) (b : Dense) : option Vec :=
  let rows := drows b in
  let ones := VecOnes rows in
  _ ← NewVecDense (Z.of_nat rows) None;
  index ← NewVecDense (Z.of_nat rows) None;
  IndexBatch_loop t b ones (length (bins t)) index.

(** [prod] calculates the product of all integers in a slice. *)
Definition prod (l : list Z) : Z :=
  foldl (fun prod v => GoInt.mul prod v) 1 l.

(** [Tiles] returns the number of tiles in the tiling. *)
Definition Tiles (t : Tiling) : Z := prod (bins t).

(** ** TileCoder *)

(** The tile coder: its tilings and the bias flag.  The wait group and the
    channels of the source are the state of [EncStep] below. *)
Record TileCoder : Type := mkTileCoder {
  tilings : list Tiling;
  includeBias : bool
}.

(** [New], the loop over [bins]: [inl (tiling, err)] is the error wrapped
    as "new: could not create tiling %v: %v".  The call of the source
    passes no divisor to [NewTiling]; the default [OffsetDiv] stands in for
    it ([NewTiling] does not read it). *)
Fixpoint New_loop (uniform : Sampler) (minDims maxDims : Vec)
    (bins : list (list Z)) (seed : Z) (tiling : nat)
  : option (nat * TilingError + list Tiling) :=
  match bins with
  | [] => Some (inr [])
  | b :: bins' =>
      r ← NewTiling uniform minDims maxDims b seed OffsetDiv;
      match r with
      | inl err => Some (inl (tiling, err))
      | inr tl =>
          r' ← New_loop uniform minDims maxDims bins' seed (S tiling);
          match r' with
          | inl e => Some (inl e)
          | inr tls => Some (inr (tl :: tls))
          end
      end
  end.

Definition New (uniform : Sampler) (minDims maxDims : Vec)
    (bins : list (list Z)) (seed : Z) (includeBias : bool)
  : option (nat * TilingError + TileCoder) :=
  r ← New_loop uniform minDims maxDims bins seed 0;
  match r with
  | inl e => Some (inl e)
  | inr tilings => Some (inr (mkTileCoder tilings includeBias))
  end.

(** [NumTilings] returns the number of tilings of the coder. *)
Definition NumTilings (t : TileCoder) : nat := length (tilings t).

(** [bias := 0; if t.includeBias { bias = 1 }]. *)
Definition biasOf (t : TileCoder) : Z := if includeBias t then 1 else 0.

(** [VecLength] returns the number of features in a tile-coded vector. *)
Definition VecLength (t : TileCoder) : Z :=
  let baseVec :=
    foldl (fun baseVec tl => GoInt.add baseVec (Tiles tl)) 0 (tilings t) in
  if includeBias t then GoInt.add baseVec 1 else baseVec.

(** [featuresBeforeTiling]: how many features exist in the tile-coded
    representation before tiling number [i]. *)
Definition featuresBeforeTiling (t : TileCoder) (i : nat) : option Z :=
  foldl (fun acc j =>
           features ← acc;
           tl ← tilings t !! j;
           Some (GoInt.add features (Tiles tl)))
        (Some 0) (seq 0 i).

(** [encodeWithTiling]: the index of the tile-coded vector which is 1.0
    when [v] is encoded with tiling number [tiling]. *)
Definition encodeWithTiling (t : TileCoder) (v : Vec) (tiling : nat)
  : option Z :=
  let bias := biasOf t in
  indexOffset ← featuresBeforeTiling t tiling;
  tl ← tilings t !! tiling;
  index ← Index tl v;
  Some (GoInt.add (GoInt.add indexOffset index) bias).

(** *** EncodeIndices: the goroutines of one call

    One call starts a collector goroutine and one worker goroutine per
    tiling.  Worker [tiling] sends [encodeWithTiling v tiling] on the
    buffered channel [t.indices]; the collector receives [NumTilings]
    values and stores the i-th value received in [indices[i]]; the main
    goroutine writes the bias slot and waits for all of them. *)
Record EncState : Type := mkEncState {
  sent : list nat;        (* workers that have sent, most recent first *)
  chan : list Z;          (* content of t.indices, oldest first *)
  collected : nat;        (* loop counter of the collector *)
  biasDone : bool;        (* main is past the bias assignment *)
  indices : list float64  (* the slice being filled *)
}.

(** [indices := make([]float64, t.NumTilings()+bias)], nothing started. *)
Definition EncInit (t : TileCoder) : EncState :=
  mkEncState [] [] 0 false
    (replicate (NumTilings t + Z.to_nat (biasOf t)) 0%Q).

Inductive EncStep (t : TileCoder) (v : Vec) : EncState -> EncState -> Prop :=
| Step_send s tiling x :
    (tiling < NumTilings t)%nat ->
    tiling ∉ sent s ->
    encodeWithTiling t v tiling = Some x ->
    EncStep t v s
      (mkEncState (tiling :: sent s) (chan s ++ [x]) (collected s)
         (biasDone s) (indices s))
| Step_recv s index rest :
    (collected s < NumTilings t)%nat ->
    chan s = index :: rest ->
    EncStep t v s
      (mkEncState (sent s) rest (S (collected s)) (biasDone s)
         (<[collected s := float64_of_int index]> (indices s)))
| Step_bias s :
    biasDone s = false ->
    EncStep t v s
      (mkEncState (sent s) (chan s) (collected s) true
         (if includeBias t
          then <[(length (indices s) - 1)%nat := 0%Q]> (indices s)
          else indices s)).

(** [t.wait.Wait()] returns: every worker and the collector are done, and
    main is past the bias assignment. *)
Definition EncFinal (t : TileCoder) (s : EncState) : Prop :=
  length (sent s) = NumTilings t /\ collected s = NumTilings t /\
  biasDone s = true.

(** [EncodeIndices t v out]: some run of the call returns [out]. *)
Definition EncodeIndices (t : TileCoder) (v : Vec) (out : list float64)
  : Prop :=
  exists s, rtc (EncStep t v) (EncInit t) s /\ EncFinal t s /\
            out = indices s.

(** The slice returned when the workers' values reach the channel in the
    order [order] (a list of tiling numbers). *)
Definition EncodeIndices_order (t : TileCoder) (v : Vec) (order : list nat)
  : option (list float64) :=
  xs ← mapM (encodeWithTiling t v) order;
  Some (map float64_of_int xs ++ (if includeBias t then [0%Q] else [])).

(** The loop shared by [Encode] and [ToVector]:
    [tileCoded.SetVec(int(index), 1.0)] for each index. *)
Definition setOnes (tileCoded : Vec) (indices : list float64) : option Vec :=
  foldl (fun acc index => tc ← acc; SetVec tc (int_of_float64 index) 1%Q)
        (Some tileCoded) indices.

(** [ToVector] converts a vector of non-zero indices to a tile-coded
    vector. *)
Definition ToVector (t : TileCoder) (v : Vec) : option Vec :=
  tileCoded ← NewVecDense (VecLength t) None;
  setOnes tileCoded v.

(** [Encode t v out]: some run of [Encode] returns [out]; the indices come
    from a run of [EncodeIndices]. *)
Definition Encode (t : TileCoder) (v : Vec) (out : Vec) : Prop :=
  exists tileCoded indices,
    NewVecDense (VecLength t) None = Some tileCoded /\
    EncodeIndices t v indices /\
    setOnes tileCoded indices = Some out.

(** The loop of [ToIndices] from position [i] on. *)
Fixpoint ToIndices_loop (v : list float64) (i : nat)
    (indices : list float64) : option (list float64) :=
  match v with
  | [] => Some indices
  | x :: v' =>
      if negb (Qeq_bool x 0) then
        ToIndices_loop v' (S i) (indices ++ [float64_of_int (Z.of_nat i)])
      else if negb (Qeq_bool x 1) then
        None  (* panic("toIndices: vector is not a tile-coded vector") *)
      else ToIndices_loop v' (S i) indices
  end.

(** [ToIndices] converts a tile-coded vector to a vector of non-zero
    indices. *)
Definition ToIndices (t : TileCoder) (v : Vec) : option Vec :=
  indices ← ToIndices_loop v 0 [];
  NewVecDense (Z.of_nat (NumTilings t)) (Some indices).

(** *** Batches of vectors *)

(** [mat.NewDense(r, c, nil)]: the zero matrix; panics when a dimension is
    not positive. *)
Definition NewDense (r c : Z) : option Dense :=
  if (r <=? 0) || (c <=? 0) then None
  else Some (mkDense (Z.to_nat r) (Z.to_nat c)
               (replicate (Z.to_nat r * Z.to_nat c) 0%Q)).

(** [m.SetRow(i, src)]; panics when [i] is not a row of [m] or [src] has
    not the length of a row. *)
Definition SetRow (m : Dense) (i : nat) (src : list float64) : option Dense :=
  if decide (i < drows m)%nat then
    if decide (length src = dcols m) then
      Some (mkDense (drows m) (dcols m)
              (take (i * dcols m) (ddata m) ++ src
               ++ drop (S i * dcols m) (ddata m)))
    else None
  else None.

(** [m.Set(i, j, x)]; panics out of range. *)
Definition DenseSet (m : Dense) (i : Z) (j : nat) (x : float64)
  : option Dense :=
  if (0 <=? i) && (i <? Z.of_nat (drows m)) then
    if decide (j < dcols m)%nat then
      Some (mkDense (drows m) (dcols m)
              (<[(Z.to_nat i * dcols m + j)%nat := x]> (ddata m)))
    else None
  else None.

(** [bias := 0.; if t.includeBias { bias = 1. }]. *)
Definition biasFloat (t : TileCoder) : float64 :=
  if includeBias t then 1%Q else 0%Q.

(** [encodeBatchWithTiling]: the indices of the tile-coded vectors which
    are 1.0 when the batch [b] is encoded with tiling number [tiling]. *)
Definition encodeBatchWithTiling (t : TileCoder) (b : Dense) (tiling : nat)
  : option Vec :=
  let bias := biasFloat t in
  indexOffset ← featuresBeforeTiling t tiling;
  tl ← tilings t !! tiling;
  index ← IndexBatch tl b;
  let rows := drows b in
  let ones := VecOnes rows in
  AddScaledVec index (float64_of_int indexOffset + bias)%Q ones.

(** The goroutines of one call of [EncodeIndicesBatch]: as for
    [EncodeIndices], with vectors on the channel [t.vIndices] and a slice
    of vector pointers, nil ([None]) until they are set. *)
Record BatchState : Type := mkBatchState {
  bsent : list nat;
  bchan : list (list float64);
  bcollected : nat;
  bbiasDone : bool;
  bindices : list (option (list float64))
}.

Definition BatchInit (t : TileCoder) : BatchState :=
  mkBatchState [] [] 0 false
    (replicate (NumTilings t + Z.to_nat (biasOf t)) None).

Inductive BatchStep (t : TileCoder) (b : Dense)
  : BatchState -> BatchState -> Prop :=
| BStep_send s tiling x :
    (tiling < NumTilings t)%nat ->
    tiling ∉ bsent s ->
    encodeBatchWithTiling t b tiling = Some x ->
    BatchStep t b s
      (mkBatchState (tiling :: bsent s) (bchan s ++ [x]) (bcollected s)
         (bbiasDone s) (bindices s))
| BStep_recv s index rest :
    (bcollected s < NumTilings t)%nat ->
    bchan s = index :: rest ->
    BatchStep t b s
      (mkBatchState (bsent s) rest (S (bcollected s)) (bbiasDone s)
         (<[bcollected s := Some index]> (bindices s)))
| BStep_bias s zeros :
    bbiasDone s = false ->
    includeBias t = true ->
    NewVecDense (Z.of_nat (dcols b)) None = Some zeros ->
    BatchStep t b s
      (mkBatchState (bsent s) (bchan s) (bcollected s) true
         (<[(length (bindices s) - 1)%nat := Some zeros]> (bindices s)))
| BStep_nobias s :
    bbiasDone s = false ->
    includeBias t = false ->
    BatchStep t b s
      (mkBatchState (bsent s) (bchan s) (bcollected s) true (bindices s)).

Definition BatchFinal (t : TileCoder) (s : BatchState) : Prop :=
  length (bsent s) = NumTilings t /\ bcollected s = NumTilings t /\
  bbiasDone s = true.

(** The end of [EncodeIndicesBatch]: the matrix with one row per vector of
    [indices], as wide as [indices[0]]. *)
Definition assembleRows (indices : list (option (list float64)))
  : option Dense :=
  first ← indices !! 0%nat;
  first ← first;
  out ← NewDense (Z.of_nat (length indices)) (Z.of_nat (length first));
  foldl (fun acc row =>
           out ← acc;
           v ← indices !! row;
           v ← v;
           SetRow out row v)
        (Some out) (seq 0 (length indices)).

(** [EncodeIndicesBatch t b out]: some run of the call returns [out]. *)
Definition EncodeIndicesBatch (t : TileCoder) (b : Dense) (out : Dense)
  : Prop :=
  exists s, rtc (BatchStep t b) (BatchInit t) s /\ BatchFinal t s /\
            assembleRows (bindices s) = Some out.

(** The loops of [EncodeBatch]: for every row of [indices] and every
    sample [i], [tileCoded.Set(int(colIndices[i]), i, 1.0)]. *)
Definition setBatchOnes (tileCoded indices : Dense) : option Dense :=
  foldl (fun acc row =>
           tc ← acc;
           colIndices ← RowView indices row;
           foldl (fun acc' i =>
                    tc' ← acc';
                    x ← colIndices !! i;
                    DenseSet tc' (int_of_float64 x) i 1%Q)
                 (Some tc) (seq 0 (length colIndices)))
        (Some tileCoded) (seq 0 (drows indices)).

(** [EncodeBatch t b out]: some run of [EncodeBatch] returns [out]. *)
Definition EncodeBatch (t : TileCoder) (b : Dense) (out : Dense) : Prop :=
  exists tileCoded indices,
    NewDense (VecLength t) (Z.of_nat (dcols b)) = Some tileCoded /\
    EncodeIndicesBatch t b indices /\
    setBatchOnes tileCoded indices = Some out.

(** ** Specification-level notions *)

(** The product of a list of integers, without wrap-around. *)
Definition Zprod (l : list Z) : Z := fold_right Z.mul 1 l.

(** The sum of a list of integers, without wrap-around. *)
Definition Zsum (l : list Z) : Z := fold_right Z.add 0 l.

(** Row-major flattening of the per-dimension tile indices [tiles] of a
    grid with [bins] tiles per dimension (the last dimension varies
    fastest): the sum over [i] of [tiles[i]] times the product of
    [bins[j]] for [j > i]. *)
Fixpoint rowMajor (bins tiles : list Z) : Z :=
  match bins, tiles with
  | _ :: bins', tile :: tiles' => tile * Zprod bins' + rowMajor bins' tiles'
  | _, _ => 0
  end.

(** A valid tiling: [n >= 1] dimensions, every slice of length [n],
    positive bin counts, positive bin lengths (minDims < maxDims), offsets
    inside the sampling bounds, and a number of tiles that an [int]
    holds. *)
Record valid_tiling (t : Tiling) : Prop := mk_valid_tiling {
  vt_dims : (0 < length (bins t))%nat;
  vt_offsets : length (offsets t) = length (bins t);
  vt_binLengths : length (binLengths t) = length (bins t);
  vt_minDims : length (minDims t) = length (bins t);
  vt_bins : Forall (fun b => 0 < b) (bins t);
  vt_lengths : Forall (fun bl => (0 < bl)%Q) (binLengths t);
  vt_offset_bound :
    Forall2 (fun off bl => (- (bl / OffsetDiv) <= off /\
                            off <= bl / OffsetDiv)%Q)
            (offsets t) (binLengths t);
  vt_tiles : Zprod (bins t) <= GoInt.int_max
}.

(** The number of features of the tilings, without wrap-around. *)
Definition features (tls : list Tiling) : Z :=
  Zsum (map (fun tl => Zprod (bins tl)) tls).

(** A valid tile coder: at least one tiling, every tiling valid, and a
    feature space that an [int] can index. *)
Record valid_coder (t : TileCoder) : Prop := mk_valid_coder {
  vc_tilings : Forall valid_tiling (tilings t);
  vc_nonempty : (0 < NumTilings t)%nat;
  vc_features : features (tilings t) + biasOf t <= GoInt.int_max
}.

(** [v] has a coordinate for every dimension of every tiling of [t]. *)
Definition valid_input (t : TileCoder) (v : Vec) : Prop :=
  Forall (fun tl => (length (bins tl) <= length v)%nat) (tilings t).

(** The contract of the uniform sampler: each draw lies inside its
    bounds. *)
Definition uniform_in_bounds (uniform : Sampler) : Prop :=
  forall seed bounds,
    bounds <> [] ->
    Forall (fun bd => (fst bd <= snd bd)%Q) bounds ->
    exists xs, uniform seed bounds = Some xs /\
               Forall2 (fun bd x => (fst bd <= x /\ x <= snd bd)%Q)
                       bounds xs.

(** ** Notions used in the proofs *)

(** The integer tile that [Index] computes along a dimension: the floor of
    the shifted, scaled coordinate, clipped to [[0, b - 1]]. *)
Definition clippedTile (x off mn bl : float64) (b : Z) : Z :=
  Z.max 0 (Z.min (Qfloor ((x + off - mn) / bl)) (b - 1)).

(** The bin length and the sampling bound of one dimension, as the loop of
    [NewTiling] computes them. *)
Definition binLengthOf (mn mx : float64) (b : Z) : float64 :=
  ((mx - mn) / float64_of_int b)%Q.

Definition boundOf (binLength : float64) : float64 * float64 :=
  ((- (binLength / OffsetDiv))%Q, (binLength / OffsetDiv)%Q).

(** *** Where the floats of the code are exact

    [float64] holds every integer up to 2^53 and no odd integer beyond.
    With bin counts up to 2^53 the conversions [float64(bins[i])] and
    [float64(bins[i]-1)] of [NewTiling], [Index] and [IndexBatch] do not
    round; with at most 2^53 tiles the index that [IndexBatch] adds up in
    floats is exact; with at most 2^53 features so are the indices that
    [EncodeIndices] converts and that [encodeBatchWithTiling] offsets. *)
Definition exact_bins (t : Tiling) : Prop :=
  Forall (fun b => b <= 2 ^ 53) (bins t).

Definition exact_tiles (t : Tiling) : Prop := Zprod (bins t) <= 2 ^ 53.

Definition exact_features (t : TileCoder) : Prop :=
  features (tilings t) + biasOf t <= 2 ^ 53.

(** [int(f)] is defined by Go when the truncation of [f] is an [int]. *)
Definition fits_int (f : float64) : Prop :=
  GoInt.in_range (Z.quot (Qnum f) (QDen f)).

(** A dimension in which rounding cannot move a coordinate at a bound
    across a tile boundary.  The offset keeps a coordinate at a bound a
    third of a bin length away from the next boundary; each operation of
    [Index] errs by at most 2^-53 of its result, which stays far below
    that third when the bin count is at most 2^32, the bounds lie within
    2^32 bin lengths of the origin, and the bin length is neither so small
    nor so large (2^-900 to 2^900) that an operation underflows or
    overflows. *)
Definition well_scaled (mn mx : float64) (b : Z) : Prop :=
  b <= 2 ^ 32 /\
  (1 / inject_Z (2 ^ 900) <= binLengthOf mn mx b)%Q /\
  (binLengthOf mn mx b <= inject_Z (2 ^ 900))%Q /\
  (- (inject_Z (2 ^ 32) * binLengthOf mn mx b) <= mn)%Q /\
  (mx <= inject_Z (2 ^ 32) * binLengthOf mn mx b)%Q.



(** [NewTiling] returns an error for [bins]. *)
Definition fails (uniform : Sampler) (minDims maxDims : Vec) (seed : Z)
    (bins : list Z) (err : TilingError) : Prop :=
  NewTiling uniform minDims maxDims bins seed OffsetDiv = Some (inl err).

(** [NewTiling] returns the tiling [tl] for [bins]. *)
Definition builds (uniform : Sampler) (minDims maxDims : Vec) (seed : Z)
    (bins : list Z) (tl : Tiling) : Prop :=
  NewTiling uniform minDims maxDims bins seed OffsetDiv = Some (inr tl).

(** The invariant of a run: the values sent so far, in sending order, are
    [xs]; the collector has stored the first [collected] of them in the
    first slots of [indices], the others wait in the channel; every other
    slot, the bias slot included, holds zero. *)
Definition EncInv (t : TileCoder) (v : Vec) (s : EncState) : Prop :=
  exists xs,
    Forall2 (fun j x => encodeWithTiling t v j = Some x)
            (reverse (sent s)) xs /\
    NoDup (sent s) /\
    Forall (fun j => (j < NumTilings t)%nat) (sent s) /\
    (collected s <= length xs)%nat /\
    (collected s <= NumTilings t)%nat /\
    chan s = drop (collected s) xs /\
    indices s = map float64_of_int (take (collected s) xs)
                ++ replicate (NumTilings t - collected s) 0%Q
                ++ replicate (Z.to_nat (biasOf t)) 0%Q.

(** The position [int(index)] that [Encode] and [ToVector] set. *)
Definition position (index : float64) : nat := Z.to_nat (int_of_float64 index).

(** [acc] with a one at each position of [ps]. *)
Definition ones_at (acc : list float64) (ps : list nat) : list float64 :=
  foldl (fun a p => <[p := 1%Q]> a) acc ps.

(** The number of entries equal to 1.0. *)
Definition countOnes (v : list float64) : nat :=
  length (List.filter (fun x => Qeq_bool x 1) v).

(** The factor by which [Index] multiplies the tile of dimension [i]: 1 for
    the last dimension, [bins[i+1]] for the others. *)
Definition stride (t : Tiling) (i : nat) : Z :=
  if decide (i = length (bins t) - 1)%nat then 1
  else default 0 (bins t !! S i).

(** A dense matrix holds [drows * dcols] entries. *)
Definition wf_dense (b : Dense) : Prop :=
  length (ddata b) = (drows b * dcols b)%nat.

(** A batch that a coder can encode: a well-formed square matrix with a
    row for every dimension of every tiling. *)
Definition batch_input (t : TileCoder) (b : Dense) : Prop :=
  wf_dense b /\ drows b = dcols b /\
  Forall (fun tl => (length (bins tl) <= drows b)%nat) (tilings t).

(** The bias slot of the slice of [EncodeIndicesBatch]: nil until main has
    set it to the zero vector. *)
Definition biasSlot (t : TileCoder) (b : Dense) (s : BatchState)
  : list (option (list float64)) :=
  if includeBias t
  then [if bbiasDone s then Some (replicate (dcols b) 0%Q) else None]
  else [].

(** The invariant of a run of [EncodeIndicesBatch]. *)
Definition BatchInv (t : TileCoder) (b : Dense) (s : BatchState) : Prop :=
  exists xs,
    Forall2 (fun j x => encodeBatchWithTiling t b j = Some x)
            (reverse (bsent s)) xs /\
    NoDup (bsent s) /\
    Forall (fun j => (j < NumTilings t)%nat) (bsent s) /\
    (bcollected s <= length xs)%nat /\
    (bcollected s <= NumTilings t)%nat /\
    bchan s = drop (bcollected s) xs /\
    (bbiasDone s = true -> includeBias t = true -> (0 < dcols b)%nat) /\
    bindices s = map Some (take (bcollected s) xs)
                 ++ replicate (NumTilings t - bcollected s) None
                 ++ biasSlot t b s.

(** The rows that a run of [EncodeIndicesBatch] assembles when the
    workers' vectors arrive in the order [order]. *)
Definition batchRows (t : TileCoder) (b : Dense) (order : list nat)
  : option (list (list float64)) :=
  xs ← mapM (encodeBatchWithTiling t b) order;
  Some (xs ++ (if includeBias t then [replicate (dcols b) 0%Q] else [])).

(** The cell of the data of a matrix with [m] columns that [EncodeBatch]
    sets for the index [x] of sample [i]. *)
Definition cellOf (m : nat) (x : float64) (i : nat) : nat :=
  (position x * m + i)%nat.

(** The cells that [EncodeBatch] sets for the row [v] of indices, and for
    all the rows of the matrix [indices]. *)
Definition rowCells (m : nat) (v : list float64) : list nat :=
  map (fun i => cellOf m (default 0%Q (v !! i)) i) (seq 0 (length v)).

Definition batchCells (indices : Dense) : list nat :=
  concat (map (fun r => rowCells (dcols indices)
                          (default [] (RowView indices r)))
              (seq 0 (drows indices))).

(** ** Running examples *)

Module Ex.

(** The scenario of the package's test: bounds [0,5] x [0,5], tilings
    with bins [2,3] and [2,2], a bias unit. *)
Definition tilingA : Tiling :=
  mkTiling [(1 # 2)%Q; (- 1 # 4)%Q] [2; 3] [(5 # 2)%Q; (5 # 3)%Q]
           [0%Q; 0%Q] 1.
Definition tilingB : Tiling :=
  mkTiling [(- 1 # 2)%Q; (1 # 4)%Q] [2; 2] [(5 # 2)%Q; (5 # 2)%Q]
           [0%Q; 0%Q] 1.
Definition coder : TileCoder := mkTileCoder [tilingA; tilingB] true.
Definition v1 : Vec := [1%Q; 3%Q].

(** A 2 x 2 x 2 tiling of the unit-spaced cube, without offset. *)
Definition cube : Tiling :=
  mkTiling [0%Q; 0%Q; 0%Q] [2; 2; 2] [1%Q; 1%Q; 1%Q] [0%Q; 0%Q; 0%Q] 1.

(** The 2 x 2 batch of the package's test, and a batch of three
    samples. *)
Definition square : Dense := mkDense 2 2 [1%Q; 2%Q; 3%Q; 4%Q].
Definition wide : Dense := mkDense 2 3 [1%Q; 2%Q; 3%Q; 3%Q; 4%Q; 1%Q].

(** Tile coders with a single tiling and no bias unit. *)
Definition coderA : TileCoder := mkTileCoder [tilingA] false.
Definition coderB : TileCoder := mkTileCoder [tilingB] false.

(** A sampler that returns the lower bound of every dimension. *)
Definition lowest : Sampler := fun _ bounds => Some (map fst bounds).


(** The tiling that [NewTiling] builds with that sampler over the bounds
    [0,5] x [0,5] for the bins [2,2], and the coder of two such tilings,
    without a bias unit. *)
Definition twin : Tiling :=
  mkTiling [(- 10 # 6)%Q; (- 10 # 6)%Q] [2; 2] [(5 # 2)%Q; (5 # 2)%Q]
           [0%Q; 0%Q] 1.
Definition twins : TileCoder := mkTileCoder [twin; twin] false.

End Ex.

(** * Properties *)

(** ** Integers and floats *)

Lemma wrap_id z : GoInt.in_range z -> GoInt.wrap z = z.
Proof.
  unfold GoInt.in_range, GoInt.int_min, GoInt.int_max, GoInt.wrap.
  intros H. rewrite Z.mod_small; lia.
Qed.

Lemma in_range_nonneg z : 0 <= z <= GoInt.int_max -> GoInt.in_range z.
Proof. unfold GoInt.in_range, GoInt.int_min, GoInt.int_max. lia. Qed.

Lemma Qlt_bool_inject a b :
  Qlt_bool (inject_Z a) (inject_Z b) = (a <? b).
Proof. unfold Qlt_bool, inject_Z. simpl. by rewrite !Z.mul_1_r. Qed.



Lemma int_of_float64_inject z :
  GoInt.in_range z -> int_of_float64 (float64_of_int z) = z.
Proof.
  intros H. unfold int_of_float64, float64_of_int, inject_Z. simpl.
  rewrite Z.quot_1_r. by apply wrap_id.
Qed.

(** Clipping an integer-valued float to [[0, m]] gives the integer
    clipped to [[0, m]]. *)
Lemma Clip_inject z m :
  0 <= m ->
  Clip (inject_Z z) 0%Q (inject_Z m) = inject_Z (Z.max 0 (Z.min z m)).
Proof.
  intros Hm. unfold Clip. cbv zeta.
  change 0%Q with (inject_Z 0). rewrite (Qlt_bool_inject m z).
  destruct (Z.ltb_spec m z); rewrite Qlt_bool_inject;
    [destruct (Z.ltb_spec m 0) | destruct (Z.ltb_spec z 0)]; f_equal; lia.
Qed.

(** ** Products of bin counts *)

Lemma Zprod_pos l : Forall (fun b => 0 < b) l -> 0 < Zprod l.
Proof. induction 1; simpl; lia. Qed.

Lemma Zprod_app l1 l2 : Zprod (l1 ++ l2) = Zprod l1 * Zprod l2.
Proof. induction l1; simpl; lia. Qed.

Lemma Zprod_drop_le l i :
  Forall (fun b => 0 < b) l -> Zprod (drop i l) <= Zprod l.
Proof.
  intros H. rewrite <- (take_drop i l) at 2. rewrite Zprod_app.
  assert (0 < Zprod (take i l)) by (apply Zprod_pos, Forall_take, H).
  assert (0 < Zprod (drop i l)) by (apply Zprod_pos, Forall_drop, H).
  nia.
Qed.

Lemma Zprod_lookup_le l i b :
  Forall (fun b => 0 < b) l -> l !! i = Some b -> 0 < b <= Zprod l.
Proof.
  intros H Hi. pose proof (Forall_lookup_1 _ _ _ _ H Hi) as Hb.
  simpl in Hb. split; [done|].
  rewrite <- (take_drop_middle l i b Hi), Zprod_app. simpl.
  assert (0 < Zprod (take i l)) by (apply Zprod_pos, Forall_take, H).
  assert (0 < Zprod (drop (S i) l)) by (apply Zprod_pos, Forall_drop, H).
  assert (b <= b * Zprod (drop (S i) l)) by nia.
  nia.
Qed.

Lemma prod_foldl l acc :
  Forall (fun b => 0 < b) l -> 0 < acc -> acc * Zprod l <= GoInt.int_max ->
  foldl (fun prod v => GoInt.mul prod v) acc l = acc * Zprod l.
Proof.
  intros H. revert acc. induction H as [|b l Hb Hl IH]; intros acc Ha Hle.
  - simpl. lia.
  - simpl in *. assert (0 < Zprod l) by by apply Zprod_pos.
    unfold GoInt.mul at 2. rewrite wrap_id by (apply in_range_nonneg; nia).
    rewrite IH; [lia | nia | by rewrite <- Z.mul_assoc].
Qed.

Lemma prod_Zprod l :
  Forall (fun b => 0 < b) l -> Zprod l <= GoInt.int_max -> prod l = Zprod l.
Proof.
  intros H Hle. unfold prod. rewrite prod_foldl; [lia | done | lia | lia].
Qed.

Lemma Tiles_Zprod t : valid_tiling t -> Tiles t = Zprod (bins t).
Proof. intros [? ? ? ? ? ? ? ?]. by apply prod_Zprod. Qed.

(** ** The tile along one dimension *)

Lemma clippedTile_range x off mn bl b :
  0 < b -> 0 <= clippedTile x off mn bl b <= b - 1.
Proof. unfold clippedTile. lia. Qed.

Lemma tileIndex_eq (t : Tiling) (v : Vec) (i : nat) x off mn bl b :
  valid_tiling t ->
  v !! i = Some x -> offsets t !! i = Some off ->
  minDims t !! i = Some mn -> binLengths t !! i = Some bl ->
  bins t !! i = Some b ->
  tileIndex t v i = Some (clippedTile x off mn bl b).
Proof.
  intros Hv Hx Hoff Hmn Hbl Hb.
  destruct (Zprod_lookup_le _ _ _ (vt_bins t Hv) Hb) as [Hb0 Hb1].
  pose proof (vt_tiles t Hv) as Hmax.
  unfold tileIndex, AtVec.
  rewrite Hx; simpl. rewrite Hoff; simpl. rewrite Hmn; simpl.
  rewrite Hbl; simpl. rewrite Hb; simpl.
  unfold GoInt.sub. rewrite wrap_id by (apply in_range_nonneg; lia).
  unfold Floor, float64_of_int. rewrite Clip_inject by lia.
  f_equal. apply int_of_float64_inject, in_range_nonneg.
  unfold clippedTile. lia.
Qed.

Lemma valid_lookups (t : Tiling) (v : Vec) (i : nat) :
  valid_tiling t -> (i < length (bins t))%nat ->
  (length (bins t) <= length v)%nat ->
  exists x off mn bl b,
    v !! i = Some x /\ offsets t !! i = Some off /\
    minDims t !! i = Some mn /\ binLengths t !! i = Some bl /\
    bins t !! i = Some b.
Proof.
  intros Hv Hi Hlen.
  destruct (lookup_lt_is_Some_2 v i) as [x Hx]; [lia|].
  destruct (lookup_lt_is_Some_2 (offsets t) i) as [off Hoff];
    [rewrite (vt_offsets t Hv); lia|].
  destruct (lookup_lt_is_Some_2 (minDims t) i) as [mn Hmn];
    [rewrite (vt_minDims t Hv); lia|].
  destruct (lookup_lt_is_Some_2 (binLengths t) i) as [bl Hbl];
    [rewrite (vt_binLengths t Hv); lia|].
  destruct (lookup_lt_is_Some_2 (bins t) i) as [b Hb]; [lia|].
  by exists x, off, mn, bl, b.
Qed.

Lemma tileIndex_range (t : Tiling) (v : Vec) (i : nat) :
  valid_tiling t -> (i < length (bins t))%nat ->
  (length (bins t) <= length v)%nat ->
  exists tile b, tileIndex t v i = Some tile /\ bins t !! i = Some b /\
                 0 <= tile <= b - 1.
Proof.
  intros Hv Hi Hlen.
  destruct (valid_lookups t v i Hv Hi Hlen)
    as (x & off & mn & bl & b & Hx & Hoff & Hmn & Hbl & Hb).
  exists (clippedTile x off mn bl b), b.
  split; [by apply tileIndex_eq|]. split; [done|].
  apply clippedTile_range.
  by destruct (Zprod_lookup_le _ _ _ (vt_bins t Hv) Hb).
Qed.

(** ** The range of [Index] *)

(** The loop of [Index] keeps the partial index below the number of tiles
    of the dimensions already processed; no addition or multiplication
    wraps around. *)
Lemma Index_loop_range (t : Tiling) (v : Vec) (i : nat) (index : Z) :
  valid_tiling t -> (length (bins t) <= length v)%nat ->
  (i <= length (bins t))%nat ->
  0 <= index <= Zprod (drop i (bins t)) - 1 ->
  exists r, Index_loop t v i index = Some r /\
            0 <= r <= Zprod (bins t) - 1.
Proof.
  intros Hv Hlen. revert index.
  induction i as [|i IH]; intros index Hi Hindex.
  - exists index. by rewrite drop_0 in Hindex.
  - destruct (tileIndex_range t v i Hv) as (tile & b & Ht & Hb & Hr);
      [lia | done |].
    pose proof (vt_bins t Hv) as Hpos. pose proof (vt_tiles t Hv) as Hmax.
    pose proof (Zprod_drop_le (bins t) i Hpos) as Hdi.
    rewrite (drop_S _ _ _ Hb) in Hdi. simpl in Hdi.
    cbn [Index_loop]. rewrite Ht. simpl.
    destruct (decide (i = (length (bins t) - 1)%nat)) as [Hlast|Hlast].
    + simpl. rewrite drop_ge in Hindex by lia. simpl in Hindex.
      rewrite drop_ge in Hdi by lia. simpl in Hdi.
      unfold GoInt.add. rewrite wrap_id by (apply in_range_nonneg; lia).
      apply IH; [lia|]. rewrite (drop_S _ _ _ Hb).
      rewrite drop_ge by lia. simpl. lia.
    + destruct (lookup_lt_is_Some_2 (bins t) (S i)) as [b1 Hb1]; [lia|].
      rewrite Hb1. simpl.
      assert (0 < b1 <= Zprod (drop (S i) (bins t))) as Hb1r.
      { apply (Zprod_lookup_le _ 0); [by apply Forall_drop|].
        rewrite lookup_drop. by rewrite Nat.add_0_r. }
      assert (0 <= tile * b1 <= (b - 1) * Zprod (drop (S i) (bins t)))
        by nia.
      unfold GoInt.add, GoInt.mul.
      rewrite (wrap_id (tile * b1)) by (apply in_range_nonneg; nia).
      rewrite wrap_id by (apply in_range_nonneg; nia).
      apply IH; [lia|]. rewrite (drop_S _ _ _ Hb). simpl. nia.
Qed.

Lemma Index_in_range_aux (t : Tiling) (v : Vec) :
  valid_tiling t -> (length (bins t) <= length v)%nat ->
  exists index, Index t v = Some index /\ 0 <= index <= Zprod (bins t) - 1.
Proof.
  intros Hv Hlen. unfold Index.
  apply Index_loop_range; [done | done | lia |].
  rewrite drop_ge by lia. simpl. lia.
Qed.

(** C7. For every valid tiling [t] with bin counts that [float64] holds
    exactly (at most 2^53) and every input vector [v] with a coordinate
    per dimension, [Index t v] returns an index in [[0, Tiles t - 1]], and
    [Tiles t] is the product of the per-dimension bin counts. *)
Theorem Index_in_range (t : Tiling) (v : Vec) :
  valid_tiling t -> exact_bins t -> (length (bins t) <= length v)%nat ->
  Tiles t = Zprod (bins t) /\
  exists index, Index t v = Some index /\ 0 <= index <= Tiles t - 1.
Proof.
  intros Hv _ Hlen. split; [by apply Tiles_Zprod|].
  rewrite (Tiles_Zprod t Hv). by apply Index_in_range_aux.
Qed.

(** ** Construction of a tiling *)

Lemma NewTiling_loop_spec (minDims maxDims : Vec) (bins : list Z) fuel :
  forall i binLengths bounds,
    (i + fuel <= length minDims)%nat ->
    (i + fuel <= length maxDims)%nat ->
    (i + fuel <= length bins)%nat ->
    exists ls bs,
      NewTiling_loop minDims maxDims bins i fuel binLengths bounds
        = Some (binLengths ++ ls, bounds ++ bs) /\
      length ls = fuel /\ bs = map boundOf ls /\
      forall j, (j < fuel)%nat ->
        exists mn mx b,
          minDims !! (i + j)%nat = Some mn /\
          maxDims !! (i + j)%nat = Some mx /\
          bins !! (i + j)%nat = Some b /\
          ls !! j = Some (binLengthOf mn mx b).
Proof.
  induction fuel as [|fuel IH]; intros i binLengths bounds H1 H2 H3.
  - exists [], []. simpl. rewrite !app_nil_r.
    do 3 (split; [done|]). intros j Hj; lia.
  - destruct (lookup_lt_is_Some_2 maxDims i) as [mx Hmx]; [lia|].
    destruct (lookup_lt_is_Some_2 minDims i) as [mn Hmn]; [lia|].
    destruct (lookup_lt_is_Some_2 bins i) as [b Hb]; [lia|].
    destruct (IH (S i) (binLengths ++ [binLengthOf mn mx b])
                (bounds ++ [boundOf (binLengthOf mn mx b)]))
      as (ls & bs & Hrun & Hlen & Hbs & Hls); [lia | lia | lia |].
    exists (binLengthOf mn mx b :: ls), (boundOf (binLengthOf mn mx b) :: bs).
    cbn [NewTiling_loop]. unfold AtVec.
    rewrite Hmx; simpl. rewrite Hmn; simpl. rewrite Hb; simpl.
    split.
    { etrans; [exact Hrun|]. by rewrite <- !app_assoc. }
    split; [simpl; lia|]. split; [simpl; by rewrite Hbs|].
    intros [|j] Hj.
    + exists mn, mx, b. by rewrite Nat.add_0_r.
    + destruct (Hls j) as (mn' & mx' & b' & ? & ? & ? & ?); [lia|].
      exists mn', mx', b'. by rewrite <- Nat.add_succ_comm.
Qed.

(** [NewTiling] returns an error exactly in the three guarded cases, in the
    order of the guards, and otherwise the tiling with the bin lengths of
    the loop and the sampled offsets (or the panic of the sampler). *)
Lemma NewTiling_cases uniform (minDims maxDims : Vec) (bins : list Z)
    (seed : Z) (offsetDiv : float64) :
  (length minDims <> length maxDims /\
   NewTiling uniform minDims maxDims bins seed offsetDiv
     = Some (inl (ErrMinMaxDims (length minDims) (length maxDims)))) \/
  (length minDims = length maxDims /\ bins = [] /\
   NewTiling uniform minDims maxDims bins seed offsetDiv
     = Some (inl ErrNoBins)) \/
  (length minDims = length maxDims /\ bins <> [] /\
   length bins <> length minDims /\
   NewTiling uniform minDims maxDims bins seed offsetDiv
     = Some (inl (ErrBinsDims (length bins) (length minDims)))) \/
  (length minDims = length maxDims /\ bins <> [] /\
   length bins = length minDims /\
   exists ls,
     NewTiling uniform minDims maxDims bins seed offsetDiv
       = (offsets ← uniform seed (map boundOf ls);
          Some (inr (mkTiling offsets bins ls minDims seed))) /\
     length ls = length bins /\
     forall j, (j < length bins)%nat ->
       exists mn mx b,
         minDims !! j = Some mn /\ maxDims !! j = Some mx /\
         bins !! j = Some b /\ ls !! j = Some (binLengthOf mn mx b)).
Proof.
  unfold NewTiling.
  destruct (Nat.eqb_spec (length minDims) (length maxDims)) as [Hmm|Hmm];
    simpl; [|by left].
  right. destruct (Nat.eqb_spec (length bins) 0) as [Hb0|Hb0].
  { left. by destruct bins. }
  right. assert (bins <> []) by (by destruct bins).
  destruct (Nat.eqb_spec (length bins) (length minDims)) as [Hbm|Hbm];
    simpl; [|by left].
  right. repeat split; try done.
  destruct (NewTiling_loop_spec minDims maxDims bins (length minDims) 0 [] [])
    as (ls & bs & Hrun & Hlen & Hbs & Hls); [lia | lia | lia |].
  exists ls. rewrite Hrun. simpl. subst bs.
  repeat split; [lia|]. intros j Hj. apply Hls. lia.
Qed.

Lemma New_loop_spec uniform (minDims maxDims : Vec) (seed : Z)
    (bins : list (list Z)) :
  forall tiling,
    match New_loop uniform minDims maxDims bins seed tiling with
    | Some (inr tls) => Forall2 (builds uniform minDims maxDims seed) bins tls
    | Some (inl (n, err)) =>
        exists i b tls,
          n = (tiling + i)%nat /\ bins !! i = Some b /\
          fails uniform minDims maxDims seed b err /\
          Forall2 (builds uniform minDims maxDims seed) (take i bins) tls
    | None =>
        exists i b,
          bins !! i = Some b /\
          NewTiling uniform minDims maxDims b seed OffsetDiv = None
    end.
Proof.
  induction bins as [|b bins IH]; intros tiling.
  - simpl. constructor.
  - cbn [New_loop].
    destruct (NewTiling uniform minDims maxDims b seed OffsetDiv)
      as [[err|tl]|] eqn:E; simpl.
    + exists 0%nat, b, []. rewrite Nat.add_0_r.
      repeat split; [done.. | constructor].
    + specialize (IH (S tiling)).
      destruct (New_loop uniform minDims maxDims bins seed (S tiling))
        as [[[n err]|tls]|]; simpl.
      * destruct IH as (i & b' & tls & -> & Hb' & Herr & Hprev).
        exists (S i), b', (tl :: tls). rewrite <- Nat.add_succ_comm.
        repeat split; [done.. |]. simpl. by constructor.
      * by constructor.
      * destruct IH as (i & b' & Hb' & Hnone). by exists (S i), b'.
    + by exists 0%nat, b.
Qed.



(** ** Clamping at the bounds *)

Lemma Qdiv_OffsetDiv bl : (bl / OffsetDiv == bl * (2 # 3))%Q.
Proof. unfold OffsetDiv. field. Qed.

Lemma inject_Z_pos b : 0 < b -> (0 < inject_Z b)%Q.
Proof. intros H. change 0%Q with (inject_Z 0). by rewrite <- Zlt_Qlt. Qed.

Lemma binLengthOf_mult mn mx b :
  0 < b -> (binLengthOf mn mx b * inject_Z b == mx - mn)%Q.
Proof.
  intros Hb. apply inject_Z_pos in Hb. unfold binLengthOf, float64_of_int.
  field. lra.
Qed.

Lemma binLengthOf_pos mn mx b :
  0 < b -> (mn < mx)%Q -> (0 < binLengthOf mn mx b)%Q.
Proof.
  intros Hb Hmm. pose proof (binLengthOf_mult mn mx b Hb) as Hm.
  apply inject_Z_pos in Hb. nra.
Qed.

(** At or beyond the upper bound: the last tile of the dimension. *)
Lemma clippedTile_max x off mn mx bl b :
  0 < b -> (mn < mx)%Q -> bl = binLengthOf mn mx b ->
  (- (bl / OffsetDiv) <= off)%Q -> (mx <= x)%Q ->
  clippedTile x off mn bl b = b - 1.
Proof.
  intros Hb Hmm -> Hoff Hx.
  pose proof (binLengthOf_mult mn mx b Hb) as Hm.
  pose proof (binLengthOf_pos mn mx b Hb Hmm) as Hl.
  assert (b - 1 <= Qfloor ((x + off - mn) / binLengthOf mn mx b)).
  { rewrite <- (Qfloor_Z (b - 1)). apply Qfloor_resp_le.
    apply Qle_shift_div_l; [done|].
    replace (b - 1) with (b + -1) by lia. rewrite inject_Z_plus.
    rewrite Qdiv_OffsetDiv in Hoff.
    change (inject_Z (-1)) with (- (1))%Q. nra. }
  unfold clippedTile. lia.
Qed.

(** At or below the lower bound: the first tile of the dimension. *)
Lemma clippedTile_min x off mn bl b :
  0 < b -> (0 < bl)%Q -> (off <= bl / OffsetDiv)%Q -> (x <= mn)%Q ->
  clippedTile x off mn bl b = 0.
Proof.
  intros Hb Hl Hoff Hx.
  assert (Qfloor ((x + off - mn) / bl) < 1).
  { rewrite Zlt_Qlt. eapply Qle_lt_trans; [apply Qfloor_le|].
    apply Qlt_shift_div_r; [done|].
    rewrite Qdiv_OffsetDiv in Hoff. change (inject_Z 1) with 1%Q. lra. }
  unfold clippedTile. lia.
Qed.

(** A tiling built by [NewTiling] from bounds with [minDims < maxDims] and
    positive bin counts is valid, and its bin lengths are those of the
    bounds. *)
Lemma NewTiling_valid uniform (mins maxs : Vec) (bs : list Z)
    (seed : Z) (offsetDiv : float64) :
  uniform_in_bounds uniform ->
  Forall2 Qlt mins maxs ->
  bs <> [] -> length bs = length mins ->
  Forall (fun b => 0 < b) bs -> Zprod bs <= GoInt.int_max ->
  exists t,
    NewTiling uniform mins maxs bs seed offsetDiv = Some (inr t) /\
    valid_tiling t /\ bins t = bs /\
    minDims t = mins /\
    forall j mn mx b,
      mins !! j = Some mn -> maxs !! j = Some mx ->
      bs !! j = Some b ->
      binLengths t !! j = Some (binLengthOf mn mx b).
Proof.
  intros Hu Hmm Hne Hlen Hpos Hmax.
  pose proof (Forall2_length _ _ _ Hmm) as Hlen'.
  destruct (NewTiling_cases uniform mins maxs bs seed offsetDiv)
    as [(H1 & _)|[(_ & H2 & _)|[(_ & _ & H3 & _)
                               |(_ & _ & _ & ls & E & Hls & Hj)]]];
    [done.. |].
  assert (forall j mn mx b,
            mins !! j = Some mn -> maxs !! j = Some mx ->
            bs !! j = Some b -> ls !! j = Some (binLengthOf mn mx b))
    as Hbl.
  { intros j mn mx b Hmn Hmx Hb.
    destruct (Hj j) as (mn' & mx' & b' & ? & ? & ? & ?);
      [by eapply lookup_lt_Some|]. congruence. }
  assert (Forall (fun bl => (0 < bl)%Q) ls) as Hlpos.
  { apply Forall_lookup_2. intros j bl Hjl.
    destruct (Hj j) as (mn & mx & b & Hmn & Hmx & Hb & Hl);
      [rewrite <- Hls; by eapply lookup_lt_Some|].
    assert (bl = binLengthOf mn mx b) as -> by congruence.
    apply binLengthOf_pos.
    - by destruct (Zprod_lookup_le _ _ _ Hpos Hb).
    - by apply (Forall2_lookup_lr _ _ _ _ _ _ Hmm Hmn Hmx). }
  destruct (Hu seed (map boundOf ls)) as (xs & Hxs & Hin).
  { destruct ls; [|done]. by destruct bs. }
  { apply Forall_fmap. eapply Forall_impl; [exact Hlpos|].
    intros bl Hl. simpl in *. rewrite Qdiv_OffsetDiv. lra. }
  rewrite Hxs in E. simpl in E. eexists. split; [exact E|].
  apply Forall2_fmap_l in Hin. simpl in Hin.
  split; [|done]. constructor; simpl; try done.
  - destruct bs; [done | simpl; lia].
  - rewrite <- (Forall2_length _ _ _ Hin). lia.
  - by apply Forall2_flip.
Qed.

Lemma Zsum_app l1 l2 : Zsum (l1 ++ l2) = Zsum l1 + Zsum l2.
Proof. induction l1; simpl; lia. Qed.

(** ** The index of a tiling, dimension by dimension *)

(** One iteration of the loop of [Index] on a valid tiling: the partial
    index grows by the clipped tile times the stride, without
    wrap-around. *)
Lemma Index_loop_step (t : Tiling) (v : Vec) (i : nat) (index : Z) :
  valid_tiling t -> (length (bins t) <= length v)%nat ->
  (i < length (bins t))%nat ->
  0 <= index <= Zprod (drop (S i) (bins t)) - 1 ->
  exists x off mn bl b,
    v !! i = Some x /\ offsets t !! i = Some off /\
    minDims t !! i = Some mn /\ binLengths t !! i = Some bl /\
    bins t !! i = Some b /\ 0 < b /\ 0 <= stride t i /\
    Index_loop t v (S i) index
    = Index_loop t v i (index + clippedTile x off mn bl b * stride t i) /\
    0 <= index + clippedTile x off mn bl b * stride t i
      <= Zprod (drop i (bins t)) - 1.
Proof.
  intros Hv Hlen Hi Hindex.
  destruct (valid_lookups t v i Hv Hi Hlen)
    as (x & off & mn & bl & b & Hx & Hoff & Hmn & Hbl & Hb).
  exists x, off, mn, bl, b. do 5 (split; [done|]).
  pose proof (vt_bins t Hv) as Hpos. pose proof (vt_tiles t Hv) as Hmax.
  destruct (Zprod_lookup_le _ _ _ Hpos Hb) as [Hb0 _].
  pose proof (clippedTile_range x off mn bl b Hb0) as Hr.
  pose proof (Zprod_drop_le (bins t) i Hpos) as Hdi.
  rewrite (drop_S _ _ _ Hb) in Hdi. simpl in Hdi.
  split; [done|].
  cbn [Index_loop]. rewrite (tileIndex_eq t v i x off mn bl b) by done.
  simpl. unfold stride.
  destruct (decide (i = (length (bins t) - 1)%nat)) as [Hlast|Hlast].
  - simpl. rewrite drop_ge in Hindex by lia. simpl in Hindex.
    rewrite drop_ge in Hdi by lia. simpl in Hdi.
    unfold GoInt.add. rewrite wrap_id by (apply in_range_nonneg; lia).
    rewrite Z.mul_1_r. split; [lia|]. split; [done|].
    rewrite (drop_S _ _ _ Hb), drop_ge by lia. simpl. lia.
  - destruct (lookup_lt_is_Some_2 (bins t) (S i)) as [b1 Hb1]; [lia|].
    rewrite Hb1. simpl.
    assert (0 < b1 <= Zprod (drop (S i) (bins t))) as Hb1r.
    { apply (Zprod_lookup_le _ 0); [by apply Forall_drop|].
      rewrite lookup_drop. by rewrite Nat.add_0_r. }
    assert (0 <= clippedTile x off mn bl b * b1
            <= (b - 1) * Zprod (drop (S i) (bins t))) by nia.
    unfold GoInt.add, GoInt.mul.
    rewrite (wrap_id (_ * b1)) by (apply in_range_nonneg; nia).
    rewrite wrap_id by (apply in_range_nonneg; nia).
    split; [lia|]. split; [done|].
    rewrite (drop_S _ _ _ Hb). simpl. nia.
Qed.

(** [Index] is composed of the tiles of the dimensions: on a valid tiling
    it returns the sum of the per-dimension tiles, each times the stride
    of its dimension. *)
Lemma Index_loop_tiles (t : Tiling) (v : Vec) (i : nat) :
  valid_tiling t -> (length (bins t) <= length v)%nat ->
  (i <= length (bins t))%nat ->
  forall index,
    0 <= index <= Zprod (drop i (bins t)) - 1 ->
    exists tiles,
      Forall2 (fun j tile => tileIndex t v j = Some tile) (seq 0 i) tiles /\
      Index_loop t v i index
      = Some (index + Zsum (zip_with Z.mul tiles (map (stride t) (seq 0 i)))).
Proof.
  intros Hv Hlen. induction i as [|i IH]; intros Hi index Hindex.
  - exists []. split; [constructor|]. simpl. f_equal. lia.
  - destruct (Index_loop_step t v i index Hv Hlen)
      as (x & off & mn & bl & b & Hx & Hoff & Hmn & Hbl & Hb & _ & _
          & -> & Hr); [lia | done |].
    destruct (IH ltac:(lia) _ Hr) as (tiles & Htiles & ->).
    pose proof (Forall2_length _ _ _ Htiles) as Hl.
    rewrite length_seq in Hl.
    exists (tiles ++ [clippedTile x off mn bl b]).
    rewrite seq_S. simpl. split.
    + apply Forall2_app; [done|]. constructor; [|constructor].
      by apply tileIndex_eq.
    + rewrite map_app, zip_with_app by (by rewrite length_map, length_seq).
      rewrite Zsum_app. simpl. f_equal. lia.
Qed.

Lemma Index_tiles (t : Tiling) (v : Vec) :
  valid_tiling t -> (length (bins t) <= length v)%nat ->
  exists tiles,
    Forall2 (fun j tile => tileIndex t v j = Some tile)
            (seq 0 (length (bins t))) tiles /\
    Index t v
    = Some (Zsum (zip_with Z.mul tiles
                    (map (stride t) (seq 0 (length (bins t)))))).
Proof.
  intros Hv Hlen.
  destruct (Index_loop_tiles t v (length (bins t)) Hv Hlen (Nat.le_refl _) 0)
    as (tiles & Htiles & E).
  { rewrite drop_ge by lia. simpl. lia. }
  exists tiles. split; [done|]. unfold Index. by rewrite E.
Qed.

(** C6. For a tiling built by [NewTiling] from bounds with
    [minDims < maxDims] and positive bin counts that [float64] holds
    exactly (at most 2^53), and any input vector, also one outside the
    bounds: [Index] returns an index (no error), composed
    of the tiles of the dimensions (the sum of the tiles, each times the
    stride of its dimension), and along each dimension that is well
    scaled (a bin count of at most 2^32, bounds within 2^32 bin lengths of
    the origin, so that rounding cannot cross a tile boundary) a
    coordinate at or beyond [maxDims[i]] falls in tile [bins[i] - 1], a
    coordinate at or below [minDims[i]] in tile [0]. *)
Theorem clamping uniform (mins maxs : Vec) (bs : list Z) (seed : Z)
    (offsetDiv : float64) (t : Tiling) (v : Vec) :
  uniform_in_bounds uniform ->
  Forall2 Qlt mins maxs ->
  Forall (fun b => 0 < b <= 2 ^ 53) bs -> Zprod bs <= GoInt.int_max ->
  NewTiling uniform mins maxs bs seed offsetDiv = Some (inr t) ->
  (length bs <= length v)%nat ->
  (exists index tiles,
     Index t v = Some index /\
     Forall2 (fun j tile => tileIndex t v j = Some tile)
             (seq 0 (length bs)) tiles /\
     index = Zsum (zip_with Z.mul tiles
                     (map (stride t) (seq 0 (length bs))))) /\
  forall i x mn mx b,
    v !! i = Some x -> mins !! i = Some mn -> maxs !! i = Some mx ->
    bs !! i = Some b -> well_scaled mn mx b ->
    ((mx <= x)%Q -> tileIndex t v i = Some (b - 1)) /\
    ((x <= mn)%Q -> tileIndex t v i = Some 0).
Proof.
  intros Hu Hmm Hpos53 Hmax E Hv.
  assert (Forall (fun b => 0 < b) bs) as Hpos
    by (eapply Forall_impl; [exact Hpos53|]; simpl; intros; lia).
  destruct (NewTiling_cases uniform mins maxs bs seed offsetDiv)
    as [(_ & E')|[(_ & _ & E')|[(_ & _ & _ & E')
                               |(_ & Hne & Hlen & _)]]];
    [congruence.. |].
  destruct (NewTiling_valid uniform mins maxs bs seed offsetDiv
              Hu Hmm Hne Hlen Hpos Hmax)
    as (t' & E' & Hvalid & Hbins & Hmins & Hbl).
  assert (t' = t) as -> by congruence.
  split.
  - destruct (Index_tiles t v Hvalid) as (tiles & Htiles & Hi);
      [by rewrite Hbins|]. rewrite Hbins in Htiles, Hi.
    eexists. by exists tiles.
  - intros i x mn mx b Hx Hmn Hmx Hb _.
    assert (i < length (offsets t))%nat as Hi.
    { rewrite (vt_offsets t Hvalid), Hbins. by eapply lookup_lt_Some. }
    destruct (lookup_lt_is_Some_2 _ _ Hi) as [off Hoff].
    pose proof (Hbl i mn mx b Hmn Hmx Hb) as Hl.
    pose proof (Forall2_lookup_lr _ _ _ _ _ _
                  (vt_offset_bound t Hvalid) Hoff Hl) as [Hlo Hhi].
    pose proof (Forall2_lookup_lr _ _ _ _ _ _ Hmm Hmn Hmx) as Hlt.
    destruct (Zprod_lookup_le _ _ _ Hpos Hb) as [Hb0 _].
    rewrite (tileIndex_eq t v i x off mn (binLengthOf mn mx b) b);
      [|done | done | done | by rewrite Hmins | done | by rewrite Hbins].
    split; intros Hc; f_equal.
    + by apply (clippedTile_max x off mn mx).
    + apply clippedTile_min; [done | by apply binLengthOf_pos | done..].
Qed.

(** ** The feature space of a tile coder *)

Lemma features_app tls1 tls2 :
  features (tls1 ++ tls2) = features tls1 + features tls2.
Proof. unfold features. by rewrite map_app, Zsum_app. Qed.

Lemma features_singleton tl : features [tl] = Zprod (bins tl).
Proof. unfold features. simpl. lia. Qed.

Lemma features_nonneg tls : Forall valid_tiling tls -> 0 <= features tls.
Proof.
  unfold features. induction 1 as [|tl tls Hv _ IH]; simpl; [lia|].
  pose proof (Zprod_pos _ (vt_bins tl Hv)). lia.
Qed.

Lemma features_Tiles tls :
  Forall valid_tiling tls -> Zsum (map Tiles tls) = features tls.
Proof.
  unfold features. induction 1 as [|tl tls Hv _ IH]; simpl; [done|].
  by rewrite IH, (Tiles_Zprod tl Hv).
Qed.

(** The features before tiling [j] and those of tiling [j] fit in the
    feature space. *)
Lemma features_take_S tls j tl :
  Forall valid_tiling tls -> tls !! j = Some tl ->
  0 <= features (take j tls) /\ 0 < Zprod (bins tl) /\
  features (take (S j) tls) = features (take j tls) + Zprod (bins tl) /\
  features (take (S j) tls) <= features tls.
Proof.
  intros Hv Hj.
  pose proof (Forall_lookup_1 _ _ _ _ Hv Hj) as Htl. simpl in Htl.
  pose proof (Zprod_pos _ (vt_bins tl Htl)).
  pose proof (features_nonneg (take j tls) (Forall_take _ _ _ Hv)).
  pose proof (features_nonneg (drop (S j) tls) (Forall_drop _ _ _ Hv)).
  rewrite (take_S_r _ _ _ Hj), features_app, features_singleton.
  repeat split; [lia.. |].
  rewrite <- (take_drop (S j) tls) at 2.
  rewrite features_app, (take_S_r _ _ _ Hj), features_app.
  rewrite features_singleton. lia.
Qed.

Lemma features_take_le tls j :
  Forall valid_tiling tls -> features (take j tls) <= features tls.
Proof.
  intros Hv. rewrite <- (take_drop j tls) at 2. rewrite features_app.
  pose proof (features_nonneg (drop j tls) (Forall_drop _ _ _ Hv)). lia.
Qed.

Lemma features_take_mono tls i j :
  Forall valid_tiling tls -> (i <= j)%nat ->
  features (take i tls) <= features (take j tls).
Proof.
  intros Hv Hij. replace (take i tls) with (take i (take j tls)).
  - apply features_take_le. by apply Forall_take.
  - rewrite take_take. f_equal. lia.
Qed.

Lemma featuresBeforeTiling_spec (t : TileCoder) (i : nat) :
  valid_coder t -> (i <= NumTilings t)%nat ->
  featuresBeforeTiling t i = Some (features (take i (tilings t))).
Proof.
  intros [Hv _ Hmax] Hi. unfold featuresBeforeTiling.
  induction i as [|i IH]; [done|].
  rewrite seq_S, foldl_app. simpl. rewrite IH by lia. simpl.
  destruct (lookup_lt_is_Some_2 (tilings t) i) as [tl Htl];
    [unfold NumTilings in Hi; lia|].
  rewrite Htl. simpl.
  destruct (features_take_S _ _ _ Hv Htl) as (H0 & H1 & -> & H2).
  rewrite (Tiles_Zprod tl (Forall_lookup_1 _ _ _ _ Hv Htl)).
  unfold GoInt.add. rewrite wrap_id; [done|].
  apply in_range_nonneg. unfold biasOf in Hmax.
  destruct (includeBias t); lia.
Qed.

Lemma VecLength_foldl tls acc :
  Forall valid_tiling tls -> 0 <= acc ->
  acc + features tls <= GoInt.int_max ->
  foldl (fun baseVec tl => GoInt.add baseVec (Tiles tl)) acc tls
  = acc + features tls.
Proof.
  intros Hv. revert acc.
  induction Hv as [|tl tls Htl Hv IH]; intros acc Hacc Hmax.
  - unfold features. simpl. lia.
  - unfold features in *. simpl in *.
    pose proof (Zprod_pos _ (vt_bins tl Htl)).
    pose proof (features_nonneg tls Hv) as Hn. unfold features in Hn.
    rewrite (Tiles_Zprod tl Htl). unfold GoInt.add at 2.
    rewrite wrap_id by (apply in_range_nonneg; lia).
    rewrite IH; lia.
Qed.

Lemma VecLength_spec t :
  valid_coder t -> VecLength t = features (tilings t) + biasOf t.
Proof.
  intros [Hv _ Hmax]. unfold VecLength.
  pose proof (features_nonneg _ Hv).
  assert (0 <= biasOf t <= 1)
    by (unfold biasOf; destruct (includeBias t); lia).
  rewrite VecLength_foldl; [| done | lia | lia].
  unfold biasOf in *. destruct (includeBias t); [|lia].
  unfold GoInt.add. rewrite wrap_id; [lia|]. apply in_range_nonneg. lia.
Qed.

(** The value a worker sends for tiling [j]: it lies in the slice of the
    feature space of tiling [j], shifted by the bias. *)
Lemma encodeWithTiling_spec (t : TileCoder) (v : Vec) (j : nat) tl :
  valid_coder t -> valid_input t v -> tilings t !! j = Some tl ->
  exists index,
    Index tl v = Some index /\ 0 <= index <= Zprod (bins tl) - 1 /\
    encodeWithTiling t v j
    = Some (features (take j (tilings t)) + index + biasOf t).
Proof.
  intros Hc Hin Hj. pose proof (vc_tilings t Hc) as Hv.
  pose proof (Forall_lookup_1 _ _ _ _ Hv Hj) as Htl. simpl in Htl.
  pose proof (Forall_lookup_1 _ _ _ _ Hin Hj) as Hlen. simpl in Hlen.
  destruct (Index_in_range_aux tl v Htl Hlen) as (index & Hi & Hr).
  exists index. split; [done|]. split; [done|].
  unfold encodeWithTiling.
  rewrite featuresBeforeTiling_spec;
    [|done | apply lookup_lt_Some in Hj; unfold NumTilings; lia].
  simpl. rewrite Hj. simpl. rewrite Hi. simpl.
  destruct (features_take_S _ _ _ Hv Hj) as (H0 & H1 & H2 & H3).
  pose proof (vc_features t Hc) as Hmax.
  assert (0 <= biasOf t <= 1) by (unfold biasOf; destruct (includeBias t); lia).
  unfold GoInt.add.
  rewrite (wrap_id (_ + index)) by (apply in_range_nonneg; lia).
  rewrite wrap_id by (apply in_range_nonneg; lia). done.
Qed.

(** ** Validity of constructed tile coders *)



(** ** Runs of [EncodeIndices] *)

Lemma EncInv_init t v : EncInv t v (EncInit t).
Proof.
  exists []. unfold EncInit. simpl.
  repeat split; try done; try constructor; try lia.
  rewrite Nat.sub_0_r. by rewrite replicate_add.
Qed.

Lemma EncInv_step t v s s' : EncStep t v s s' -> EncInv t v s -> EncInv t v s'.
Proof.
  intros Hstep (xs & Hxs & Hnd & Hlt & Hc & Hck & Hchan & Hidx).
  pose proof (Forall2_length _ _ _ Hxs) as Hlen.
  destruct Hstep as [s tiling x Htl Hfresh Hx|s index rest Hcoll Hch|s Hb];
    simpl.
  - exists (xs ++ [x]). simpl. rewrite reverse_cons.
    repeat split.
    + apply Forall2_app; [done|]. by repeat constructor.
    + by constructor.
    + by constructor.
    + rewrite length_app. lia.
    + done.
    + rewrite Hchan. by rewrite drop_app_le.
    + rewrite Hidx. by rewrite take_app_le.
  - rewrite Hchan in Hch.
    assert (xs !! collected s = Some index) as Hlook.
    { rewrite <- (Nat.add_0_r (collected s)), <- lookup_drop.
      by rewrite Hch. }
    rewrite (drop_S _ _ _ Hlook) in Hch. injection Hch as <-.
    exists xs. simpl. repeat split; try done.
    + apply lookup_lt_Some in Hlook. lia.
    + rewrite Hidx, (take_S_r _ _ _ Hlook), map_app. simpl.
      rewrite insert_app_r_alt;
        [|rewrite length_map, length_take; lia].
      rewrite length_map, length_take.
      replace (collected s - collected s `min` length xs)%nat with 0%nat
        by lia.
      replace (NumTilings t - collected s)%nat
        with (S (NumTilings t - S (collected s))) by lia.
      simpl. by rewrite <- app_assoc.
  - exists xs. simpl. repeat split; try done.
    destruct (includeBias t) eqn:Hbias; [|done].
    rewrite Hidx. unfold biasOf. rewrite Hbias. simpl.
    rewrite app_assoc, length_app. simpl.
    replace (length (map float64_of_int (take (collected s) xs) ++
                     replicate (NumTilings t - collected s) 0%Q) + 1 - 1)%nat
      with (length (map float64_of_int (take (collected s) xs) ++
                    replicate (NumTilings t - collected s) 0%Q) + 0)%nat
      by lia.
    by rewrite insert_app_r.
Qed.

Lemma EncInv_rtc t v s :
  rtc (EncStep t v) (EncInit t) s -> EncInv t v s.
Proof.
  intros Hrun.
  refine (rtc_ind_r (EncInv t v) (EncInit t) (EncInv_init t v) _ s Hrun).
  intros s1 s2 _ Hstep IH. by apply (EncInv_step t v s1).
Qed.

Lemma replicate_bias t :
  replicate (Z.to_nat (biasOf t)) 0%Q
  = if includeBias t then [0%Q] else [].
Proof. unfold biasOf. by destruct (includeBias t). Qed.

(** A duplicate-free list of [k] numbers below [k] lists [0 .. k-1] in
    some order. *)
Lemma NoDup_below_Permutation (l : list nat) k :
  NoDup l -> Forall (fun j => (j < k)%nat) l -> length l = k ->
  l ≡ₚ seq 0 k.
Proof.
  intros Hnd Hlt Hlen. apply submseteq_length_Permutation.
  - apply NoDup_submseteq; [done|]. intros j Hj.
    apply elem_of_seq. rewrite Forall_forall in Hlt.
    specialize (Hlt j Hj). simpl in Hlt. lia.
  - rewrite length_seq. lia.
Qed.

(** Every run returns the workers' values in the order of their arrival
    on the channel, which is an order of the tilings. *)
Lemma EncodeIndices_order_of_run t v out :
  EncodeIndices t v out ->
  exists order, order ≡ₚ seq 0 (NumTilings t) /\
                EncodeIndices_order t v order = Some out.
Proof.
  intros (s & Hrun & (Hsent & Hcoll & Hbias) & ->).
  destruct (EncInv_rtc t v s Hrun)
    as (xs & Hxs & Hnd & Hlt & Hc & Hck & Hchan & Hidx).
  pose proof (Forall2_length _ _ _ Hxs) as Hlen.
  rewrite length_reverse in Hlen.
  exists (reverse (sent s)). split.
  - apply NoDup_below_Permutation.
    + by rewrite reverse_Permutation.
    + by apply Forall_reverse.
    + by rewrite length_reverse.
  - unfold EncodeIndices_order.
    apply mapM_Some_2 in Hxs. rewrite Hxs. simpl.
    rewrite Hidx, Hcoll, Nat.sub_diag, take_ge by lia.
    by rewrite replicate_bias.
Qed.

(** The workers of [order] send one after the other. *)
Lemma run_sends t v order xs :
  Forall2 (fun j x => encodeWithTiling t v j = Some x) order xs ->
  forall snt ch c b idx,
    NoDup order ->
    Forall (fun j => (j < NumTilings t)%nat /\ j ∉ snt) order ->
    rtc (EncStep t v) (mkEncState snt ch c b idx)
        (mkEncState (reverse order ++ snt) (ch ++ xs) c b idx).
Proof.
  induction 1 as [|j x order xs Hx _ IH]; intros snt ch c b idx Hnd Hall.
  - rewrite app_nil_r. apply rtc_refl.
  - apply NoDup_cons in Hnd as [Hj Hnd].
    apply Forall_cons in Hall as [[Hlt Hfresh] Hall].
    eapply rtc_l.
    { by apply (Step_send t v (mkEncState snt ch c b idx) j x). }
    simpl. rewrite reverse_cons, <- app_assoc. simpl.
    replace (ch ++ x :: xs) with ((ch ++ [x]) ++ xs)
      by (by rewrite <- app_assoc).
    apply IH; [done|].
    rewrite Forall_forall in Hall. apply Forall_forall. intros j' Hj'.
    destruct (Hall j' Hj') as [? ?]. split; [done|].
    rewrite not_elem_of_cons. split; [|done]. by intros ->.
Qed.

(** The collector receives the values waiting in the channel. *)
Lemma run_recvs t v xs :
  forall snt pre n tail c b,
    length pre = c -> (c + length xs <= NumTilings t)%nat ->
    rtc (EncStep t v)
        (mkEncState snt xs c b
           (pre ++ replicate (length xs + n) 0%Q ++ tail))
        (mkEncState snt [] (c + length xs) b
           (pre ++ map float64_of_int xs ++ replicate n 0%Q ++ tail)).
Proof.
  induction xs as [|x xs IH]; intros snt pre n tail c b Hpre Hk.
  - simpl. rewrite Nat.add_0_r. apply rtc_refl.
  - simpl in *. eapply rtc_l.
    { apply (Step_recv t v (mkEncState snt (x :: xs) c b _) x xs);
        simpl; [lia | done]. }
    simpl. rewrite insert_app_r_alt by lia.
    replace (c - length pre)%nat with 0%nat by lia. simpl.
    replace (pre ++ float64_of_int x :: replicate (length xs + n) 0%Q
                 ++ tail)
      with ((pre ++ [float64_of_int x]) ++ replicate (length xs + n) 0%Q
                 ++ tail) by (by rewrite <- app_assoc).
    replace (pre ++ float64_of_int x :: map float64_of_int xs
                 ++ replicate n 0%Q ++ tail)
      with ((pre ++ [float64_of_int x]) ++ map float64_of_int xs
                 ++ replicate n 0%Q ++ tail) by (by rewrite <- app_assoc).
    replace (c + S (length xs))%nat with (S c + length xs)%nat by lia.
    apply IH; [rewrite length_app; simpl; lia | lia].
Qed.

(** Every order of the tilings is the arrival order of some run. *)
Lemma EncodeIndices_run_of_order t v order out :
  order ≡ₚ seq 0 (NumTilings t) ->
  EncodeIndices_order t v order = Some out ->
  EncodeIndices t v out.
Proof.
  intros Hperm Hout. unfold EncodeIndices_order in Hout.
  destruct (mapM (encodeWithTiling t v) order) as [xs|] eqn:Hxs;
    [|done]. simpl in Hout. injection Hout as <-.
  apply mapM_Some_1 in Hxs.
  pose proof (Forall2_length _ _ _ Hxs) as Hlen.
  assert (length order = NumTilings t) as Hk
    by (by rewrite Hperm, length_seq).
  assert (NoDup order) as Hnd by (rewrite Hperm; apply NoDup_seq).
  assert (Forall (fun j => (j < NumTilings t)%nat /\ j ∉ []) order) as Hall.
  { apply Forall_forall. intros j Hj. rewrite Hperm in Hj.
    apply elem_of_seq in Hj. split; [lia|]. apply not_elem_of_nil. }
  pose (idx := map float64_of_int xs
               ++ replicate (Z.to_nat (biasOf t)) 0%Q).
  exists (mkEncState (reverse order) [] (NumTilings t) true idx).
  split; [|split].
  - etrans.
    { pose proof (run_sends t v order xs Hxs [] [] 0%nat false
                    (replicate (NumTilings t + Z.to_nat (biasOf t)) 0%Q)
                    Hnd Hall) as Hs.
      rewrite app_nil_r in Hs. simpl in Hs. exact Hs. }
    etrans.
    { pose proof (run_recvs t v xs (reverse order) [] 0%nat
                    (replicate (Z.to_nat (biasOf t)) 0%Q) 0%nat false
                    eq_refl) as Hr.
      simpl in Hr. rewrite Nat.add_0_r, <- Hlen, Hk in Hr.
      rewrite replicate_add. apply Hr. lia. }
    apply rtc_once.
    pose proof (Step_bias t v
                  (mkEncState (reverse order) [] (NumTilings t) false idx)
                  eq_refl) as Hb.
    simpl in Hb. subst idx.
    destruct (includeBias t) eqn:Hbias; [|exact Hb].
    unfold biasOf in *. rewrite Hbias in *. simpl in Hb.
    rewrite length_app in Hb. simpl in Hb.
    replace (length (map float64_of_int xs) + 1 - 1)%nat
      with (length (map float64_of_int xs) + 0)%nat in Hb by lia.
    rewrite insert_app_r in Hb. exact Hb.
  - unfold EncFinal. simpl. by rewrite length_reverse.
  - simpl. subst idx. by rewrite replicate_bias.
Qed.

(** The outcomes of [EncodeIndices] are the slices of the arrival orders. *)
Lemma EncodeIndices_iff t v out :
  EncodeIndices t v out <->
  exists order, order ≡ₚ seq 0 (NumTilings t) /\
                EncodeIndices_order t v order = Some out.
Proof.
  split; [apply EncodeIndices_order_of_run|].
  intros (order & Hperm & Hout). by apply (EncodeIndices_run_of_order t v order).
Qed.

(** Under a valid coder every worker sends a value: every arrival order
    gives a slice. *)
Lemma EncodeIndices_order_total (t : TileCoder) (v : Vec) order :
  valid_coder t -> valid_input t v ->
  order ≡ₚ seq 0 (NumTilings t) ->
  exists out, EncodeIndices_order t v order = Some out.
Proof.
  intros Hc Hin Hperm.
  assert (is_Some (mapM (encodeWithTiling t v) order)) as [xs Hxs].
  { apply mapM_is_Some, Forall_forall. intros j Hj. rewrite Hperm in Hj.
    apply elem_of_seq in Hj.
    destruct (lookup_lt_is_Some_2 (tilings t) j) as [tl Htl];
      [unfold NumTilings in Hj; lia|].
    destruct (encodeWithTiling_spec t v j tl Hc Hin Htl)
      as (index & _ & _ & E). simpl. by rewrite E. }
  eexists. unfold EncodeIndices_order. by rewrite Hxs.
Qed.

(** C1 (amended). For a valid tile coder with k tilings and an input
    vector [v], every call of [EncodeIndices] returns a slice of length
    k + bias.  Its first k entries are the values
    featuresBeforeTiling(j) + tilings[j].Index(v) + bias of the k tilings
    [j], in the order in which the workers' results arrive on the channel:
    entry [i] belongs to the tiling [order[i]] of some order of the
    tilings, and every order is the arrival order of some run.
    [featuresBeforeTiling j] is the sum of the tile counts of the tilings
    before [j].  With a bias unit the last entry is 0. *)
Theorem EncodeIndices_arrival_order (t : TileCoder) (v : Vec) :
  valid_coder t -> valid_input t v ->
  (forall order, order ≡ₚ seq 0 (NumTilings t) ->
     exists out, EncodeIndices t v out /\
                 EncodeIndices_order t v order = Some out) /\
  (forall out, EncodeIndices t v out ->
     length out = (NumTilings t + Z.to_nat (biasOf t))%nat /\
     (exists order, order ≡ₚ seq 0 (NumTilings t) /\
        forall i j, order !! i = Some j ->
          exists tl fb index,
            tilings t !! j = Some tl /\
            featuresBeforeTiling t j = Some fb /\
            fb = Zsum (map Tiles (take j (tilings t))) /\
            Index tl v = Some index /\
            out !! i = Some (float64_of_int (fb + index + biasOf t))) /\
     (includeBias t = true ->
        out !! NumTilings t = Some 0%Q /\ last out = Some 0%Q)).
Proof.
  intros Hc Hin. split.
  - intros order Hperm.
    destruct (EncodeIndices_order_total t v order Hc Hin Hperm)
      as [out Hout].
    exists out. split; [|done].
    by apply (EncodeIndices_run_of_order t v order).
  - intros out Hout.
    destruct (EncodeIndices_order_of_run t v out Hout)
      as (order & Hperm & Horder).
    unfold EncodeIndices_order in Horder.
    destruct (mapM (encodeWithTiling t v) order) as [xs|] eqn:Hxs;
      [|done]. simpl in Horder. injection Horder as <-.
    apply mapM_Some_1 in Hxs.
    pose proof (Forall2_length _ _ _ Hxs) as Hlen.
    assert (length order = NumTilings t) as Hk
      by (by rewrite Hperm, length_seq).
    split; [|split].
    + rewrite length_app, length_map, <- replicate_bias, length_replicate.
      lia.
    + exists order. split; [done|]. intros i j Hij.
      destruct (Forall2_lookup_l _ _ _ _ _ Hxs Hij) as (x & Hx & Hj).
      assert (j < NumTilings t)%nat as Hlt.
      { apply list_elem_of_lookup_2 in Hij. rewrite Hperm in Hij.
        apply elem_of_seq in Hij. lia. }
      destruct (lookup_lt_is_Some_2 (tilings t) j) as [tl Htl]; [done|].
      destruct (encodeWithTiling_spec t v j tl Hc Hin Htl)
        as (index & Hi & _ & E).
      exists tl, (features (take j (tilings t))), index.
      split; [done|].
      split; [apply featuresBeforeTiling_spec; [done | lia]|].
      split; [symmetry; apply features_Tiles, Forall_take, Hc|].
      split; [done|].
      rewrite lookup_app_l
        by (rewrite length_map; by eapply lookup_lt_Some).
      rewrite list_lookup_fmap, Hx. simpl. do 2 f_equal. congruence.
    + intros Hbias. rewrite Hbias. split.
      * rewrite lookup_app_r by (rewrite length_map; lia).
        rewrite length_map.
        by replace (NumTilings t - length xs)%nat with 0%nat by lia.
      * by rewrite last_snoc.
Qed.

(** C1, as stated, fails: in the test scenario the run in which the worker
    of tiling 1 sends before the worker of tiling 0 returns [8; 2; 0];
    entry 0 is the index of tiling 1, not
    featuresBeforeTiling(0) + tilings[0].Index(v) + 1 = 2. *)
Lemma EncodeIndices_not_in_tiling_order :
  exists out,
    EncodeIndices Ex.coder Ex.v1 out /\
    featuresBeforeTiling Ex.coder 0 = Some 0 /\
    Index Ex.tilingA Ex.v1 = Some 1 /\
    out = [8%Q; 2%Q; 0%Q] /\
    out !! 0%nat <> Some (float64_of_int (0 + 1 + biasOf Ex.coder)).
Proof.
  exists [8%Q; 2%Q; 0%Q]. split; [|by repeat split].
  apply (EncodeIndices_run_of_order _ _ [1; 0]%nat); [|done].
  apply Permutation_swap.
Qed.

(** ** Setting the ones of a tile-coded vector *)

Lemma ones_at_length ps : forall acc, length (ones_at acc ps) = length acc.
Proof.
  induction ps as [|p ps IH]; intros acc; [done|].
  simpl. unfold ones_at in IH. by rewrite IH, length_insert.
Qed.

Lemma setOnes_spec idx :
  forall acc,
    Forall (fun x => 0 <= int_of_float64 x < Z.of_nat (length acc)) idx ->
    setOnes acc idx = Some (ones_at acc (map position idx)).
Proof.
  unfold setOnes, ones_at.
  induction idx as [|x idx IH]; intros acc Hall; [done|].
  apply Forall_cons in Hall as [Hx Hall]. simpl. unfold SetVec.
  destruct (Z.leb_spec 0 (int_of_float64 x)); [|lia].
  destruct (Z.ltb_spec (int_of_float64 x) (Z.of_nat (length acc))); [|lia].
  simpl. apply IH. by rewrite length_insert.
Qed.

Lemma ones_at_lookup ps i :
  forall acc,
    ones_at acc ps !! i
    = if decide (i ∈ ps /\ (i < length acc)%nat) then Some 1%Q
      else acc !! i.
Proof.
  unfold ones_at. induction ps as [|p ps IH]; intros acc; cbn [foldl].
  - destruct (decide (i ∈ [] /\ (i < length acc)%nat)) as [[H _]|_];
      [by apply elem_of_nil in H | done].
  - rewrite IH, length_insert.
    destruct (decide (i = p)) as [->|Hne].
    + assert (p ∈ p :: ps) as Hp by (apply elem_of_cons; by left).
      destruct (decide (p ∈ p :: ps /\ (p < length acc)%nat)) as [[_ H]|H].
      * destruct (decide (p ∈ ps /\ (p < length acc)%nat)); [done|].
        by rewrite list_lookup_insert_eq.
      * destruct (decide (p ∈ ps /\ (p < length acc)%nat)) as [[_ H']|_];
          [tauto|]. by rewrite list_insert_ge by (apply Nat.nlt_ge; tauto).
    + rewrite list_lookup_insert_ne by done.
      destruct (decide (i ∈ ps /\ (i < length acc)%nat)) as [[H1 H2]|H];
        destruct (decide (i ∈ p :: ps /\ (i < length acc)%nat))
          as [[H3 H4]|H']; try done.
      * destruct H'. split; [apply elem_of_cons; by right | done].
      * destruct H. split; [|done].
        apply elem_of_cons in H3 as [?|?]; [congruence | done].
Qed.

Lemma ones_at_perm acc ps ps' : ps ≡ₚ ps' -> ones_at acc ps = ones_at acc ps'.
Proof.
  intros Hperm. apply list_eq. intros i. rewrite !ones_at_lookup.
  case_decide as H1; case_decide as H2; try done.
  - destruct H2. by rewrite <- Hperm.
  - destruct H1. by rewrite Hperm.
Qed.

Lemma ones_at_binary L ps :
  Forall (fun x => x = 0%Q \/ x = 1%Q) (ones_at (replicate L 0%Q) ps).
Proof.
  apply Forall_lookup_2. intros i x. rewrite ones_at_lookup.
  case_decide; [intros [= <-]; by right|].
  intros Hx. apply lookup_replicate in Hx as [-> _]. by left.
Qed.

Lemma countOnes_insert acc i :
  acc !! i = Some 0%Q -> countOnes (<[i := 1%Q]> acc) = S (countOnes acc).
Proof.
  unfold countOnes. revert i.
  induction acc as [|a acc IH]; intros [|i] Hi; simpl in *; try done.
  - by injection Hi as ->.
  - destruct (Qeq_bool a 1); simpl; by rewrite IH.
Qed.

Lemma countOnes_ones_at ps :
  forall acc,
    NoDup ps -> Forall (fun p => acc !! p = Some 0%Q) ps ->
    countOnes (ones_at acc ps) = (countOnes acc + length ps)%nat.
Proof.
  unfold ones_at. induction ps as [|p ps IH]; intros acc Hnd Hall; simpl.
  - lia.
  - apply NoDup_cons in Hnd as [Hp Hnd].
    apply Forall_cons in Hall as [Hp0 Hall].
    rewrite IH, countOnes_insert; [lia | done | done |].
    rewrite Forall_forall in Hall. apply Forall_forall. intros q Hq.
    rewrite list_lookup_insert_ne; [by apply Hall|]. by intros ->.
Qed.

Lemma countOnes_zeros L : countOnes (replicate L 0%Q) = 0%nat.
Proof. unfold countOnes. induction L; [done|]. simpl. exact IHL. Qed.

(** ** The indices of an encoding *)

Lemma encodeWithTiling_Some (t : TileCoder) (v : Vec) j x :
  encodeWithTiling t v j = Some x -> is_Some (tilings t !! j).
Proof.
  unfold encodeWithTiling. intros H.
  destruct (tilings t !! j) eqn:Htl; [by eexists|].
  by destruct (featuresBeforeTiling t j).
Qed.

Lemma encodeWithTiling_bound (t : TileCoder) (v : Vec) j x :
  valid_coder t -> valid_input t v ->
  encodeWithTiling t v j = Some x ->
  features (take j (tilings t)) + biasOf t <= x /\
  x < features (take (S j) (tilings t)) + biasOf t /\
  x <= VecLength t - 1.
Proof.
  intros Hc Hin Hx.
  destruct (encodeWithTiling_Some t v j x Hx) as [tl Htl].
  destruct (encodeWithTiling_spec t v j tl Hc Hin Htl)
    as (index & _ & Hr & E).
  destruct (features_take_S _ _ _ (vc_tilings t Hc) Htl)
    as (H0 & H1 & H2 & H3).
  rewrite (VecLength_spec t Hc).
  assert (x = features (take j (tilings t)) + index + biasOf t)
    by congruence.
  lia.
Qed.

(** Two tilings never send the same index: their slices of the feature
    space are disjoint. *)
Lemma encodeWithTiling_inj (t : TileCoder) (v : Vec) j j' x :
  valid_coder t -> valid_input t v ->
  encodeWithTiling t v j = Some x -> encodeWithTiling t v j' = Some x ->
  j = j'.
Proof.
  intros Hc Hin Hj Hj'.
  destruct (encodeWithTiling_bound t v j x Hc Hin Hj) as (L & U & _).
  destruct (encodeWithTiling_bound t v j' x Hc Hin Hj') as (L' & U' & _).
  pose proof (vc_tilings t Hc) as Hv.
  destruct (Nat.lt_trichotomy j j') as [Hlt|[Heq|Hgt]]; [|done|].
  - pose proof (features_take_mono (tilings t) (S j) j' Hv). lia.
  - pose proof (features_take_mono (tilings t) (S j') j Hv). lia.
Qed.

(** The shape of every outcome of [EncodeIndices] under a valid coder:
    distinct integers of the feature space, one per tiling and none of
    them the bias slot, followed by the bias slot. *)
Lemma EncodeIndices_shape (t : TileCoder) (v : Vec) out :
  valid_coder t -> valid_input t v -> EncodeIndices t v out ->
  exists xs,
    out = map float64_of_int xs ++ (if includeBias t then [0%Q] else []) /\
    map int_of_float64 out = xs ++ (if includeBias t then [0] else []) /\
    length xs = NumTilings t /\ NoDup xs /\
    Forall (fun x => biasOf t <= x <= VecLength t - 1) xs.
Proof.
  intros Hc Hin Hout.
  destruct (EncodeIndices_order_of_run t v out Hout)
    as (order & Hperm & Horder).
  unfold EncodeIndices_order in Horder.
  destruct (mapM (encodeWithTiling t v) order) as [xs|] eqn:Hxs; [|done].
  simpl in Horder. injection Horder as <-.
  apply mapM_Some_1 in Hxs.
  assert (NoDup order) as Hnd by (rewrite Hperm; apply NoDup_seq).
  assert (Forall (fun x => biasOf t <= x <= VecLength t - 1) xs) as Hr.
  { apply Forall_lookup_2. intros i x Hi.
    destruct (Forall2_lookup_r _ _ _ _ _ Hxs Hi) as (j & _ & Hj).
    destruct (encodeWithTiling_bound t v j x Hc Hin Hj) as (L & _ & U).
    pose proof (features_nonneg (take j (tilings t))
                  (Forall_take _ _ _ (vc_tilings t Hc))).
    lia. }
  assert (length xs = NumTilings t) as Hlen.
  { rewrite <- (Forall2_length _ _ _ Hxs), Hperm. apply length_seq. }
  assert (map int_of_float64
            (map float64_of_int xs ++ (if includeBias t then [0%Q] else []))
          = xs ++ (if includeBias t then [0] else [])) as Hpos.
  { rewrite map_app. f_equal; [|by destruct (includeBias t)].
    rewrite map_map. rewrite <- (map_id xs) at 2.
    apply map_ext_Forall. eapply Forall_impl; [exact Hr|].
    intros x Hx. simpl in *. apply int_of_float64_inject, in_range_nonneg.
    pose proof (vc_features t Hc). rewrite (VecLength_spec t Hc) in Hx.
    unfold biasOf in *. destruct (includeBias t); lia. }
  assert (NoDup xs) as Hndx.
  { clear Hr Hperm Hlen Hpos Hout.
    induction Hxs as [|j x order xs Hj Hxs IH]; [constructor|].
    apply NoDup_cons in Hnd as [Hfresh Hnd].
    apply NoDup_cons. split; [|by apply IH].
    intros Hx. apply list_elem_of_lookup_1 in Hx as [i Hi].
    destruct (Forall2_lookup_r _ _ _ _ _ Hxs Hi) as (j' & Hj'1 & Hj'2).
    assert (j = j') as -> by (by apply (encodeWithTiling_inj t v j j' x)).
    apply Hfresh. by eapply list_elem_of_lookup_2. }
  by exists xs.
Qed.

Lemma VecLength_pos t : valid_coder t -> 0 < VecLength t.
Proof.
  intros Hc. rewrite (VecLength_spec t Hc).
  pose proof (vc_nonempty t Hc) as Hk. pose proof (vc_tilings t Hc) as Hv.
  unfold NumTilings in Hk. destruct (tilings t) as [|tl tls]; [simpl in Hk; lia|].
  apply Forall_cons in Hv as [Htl Hv].
  pose proof (features_nonneg tls Hv). pose proof (Zprod_pos _ (vt_bins tl Htl)).
  change (tl :: tls) with ([tl] ++ tls).
  rewrite features_app, features_singleton.
  unfold biasOf. destruct (includeBias t); lia.
Qed.

Lemma EncodeIndices_positions (t : TileCoder) (v : Vec) out :
  valid_coder t -> valid_input t v -> EncodeIndices t v out ->
  NoDup (map int_of_float64 out) /\
  Forall (fun p => 0 <= p <= VecLength t - 1) (map int_of_float64 out) /\
  length out = (NumTilings t + Z.to_nat (biasOf t))%nat.
Proof.
  intros Hc Hin Hout.
  destruct (EncodeIndices_shape t v out Hc Hin Hout)
    as (xs & -> & -> & Hlen & Hnd & Hr).
  pose proof (VecLength_pos t Hc) as HL.
  rewrite Forall_forall in Hr.
  split; [|split].
  - apply NoDup_app. split; [done|]. split.
    + intros x Hx H0. specialize (Hr x Hx). simpl in Hr.
      unfold biasOf in Hr. destruct (includeBias t).
      * apply list_elem_of_singleton in H0. lia.
      * by apply elem_of_nil in H0.
    + destruct (includeBias t); [apply NoDup_singleton | constructor].
  - apply Forall_app. split.
    + apply Forall_forall. intros x Hx. specialize (Hr x Hx). simpl in Hr.
      unfold biasOf in Hr. destruct (includeBias t); lia.
    + destruct (includeBias t); [|constructor].
      apply Forall_singleton. lia.
  - rewrite length_app, length_map, Hlen. unfold biasOf.
    by destruct (includeBias t).
Qed.

(** Two runs of [EncodeIndices] return the same entries, up to order. *)
Lemma EncodeIndices_perm (t : TileCoder) (v : Vec) out1 out2 :
  EncodeIndices t v out1 -> EncodeIndices t v out2 -> out1 ≡ₚ out2.
Proof.
  intros H1 H2.
  assert (forall out, EncodeIndices t v out ->
            exists order, order ≡ₚ seq 0 (NumTilings t) /\
              out = map float64_of_int
                      (map (fun j => default 0 (encodeWithTiling t v j)) order)
                    ++ (if includeBias t then [0%Q] else [])) as Hshape.
  { intros out Hout.
    destruct (EncodeIndices_order_of_run t v out Hout)
      as (order & Hperm & Horder).
    exists order. split; [done|].
    unfold EncodeIndices_order in Horder.
    destruct (mapM (encodeWithTiling t v) order) as [xs|] eqn:Hxs; [|done].
    simpl in Horder. injection Horder as <-. do 2 f_equal.
    apply mapM_Some_1 in Hxs. clear Hperm Hout.
    induction Hxs as [|j x order xs Hj _ IH]; [done|].
    simpl. rewrite Hj. simpl. by f_equal. }
  destruct (Hshape out1 H1) as (o1 & Hp1 & ->).
  destruct (Hshape out2 H2) as (o2 & Hp2 & ->).
  apply Permutation_app; [|done].
  do 2 apply Permutation_map. by rewrite Hp1, Hp2.
Qed.

(** [ToVector] on an outcome of [EncodeIndices]: the zero vector of
    length [VecLength] with a one at each index. *)
Lemma ToVector_outcome (t : TileCoder) (v : Vec) out :
  valid_coder t -> valid_input t v -> EncodeIndices t v out ->
  NewVecDense (VecLength t) None
    = Some (replicate (Z.to_nat (VecLength t)) 0%Q) /\
  setOnes (replicate (Z.to_nat (VecLength t)) 0%Q) out
    = Some (ones_at (replicate (Z.to_nat (VecLength t)) 0%Q)
                    (map position out)).
Proof.
  intros Hc Hin Hout. pose proof (VecLength_pos t Hc) as HL.
  split.
  - unfold NewVecDense. destruct (Z.leb_spec (VecLength t) 0); [lia|done].
  - apply setOnes_spec. rewrite length_replicate.
    destruct (EncodeIndices_positions t v out Hc Hin Hout) as (_ & Hr & _).
    rewrite Forall_fmap in Hr. eapply Forall_impl; [exact Hr|].
    intros x Hx. simpl in Hx. lia.
Qed.

(** The outcome of [ToVector] does not depend on the run that produced
    the indices. *)
Lemma ones_at_outcomes (t : TileCoder) (v : Vec) acc out1 out2 :
  EncodeIndices t v out1 -> EncodeIndices t v out2 ->
  ones_at acc (map position out1) = ones_at acc (map position out2).
Proof.
  intros H1 H2. apply ones_at_perm, Permutation_map.
  by apply (EncodeIndices_perm t v).
Qed.

(** C10. For a valid tile coder with a feature space that [float64]
    indexes exactly (at most 2^53 features) and an input vector [v]: the
    entries of every outcome of [EncodeIndices] are pairwise distinct and
    lie in [[0, VecLength - 1]]; [Encode] returns a vector, of length
    [VecLength], whose entries are 0.0 or 1.0, exactly NumTilings + bias
    of them 1.0. *)
Theorem Encode_one_hot (t : TileCoder) (v : Vec) :
  valid_coder t -> exact_features t -> valid_input t v ->
  (forall out, EncodeIndices t v out ->
     NoDup (map int_of_float64 out) /\
     Forall (fun p => 0 <= p <= VecLength t - 1) (map int_of_float64 out)) /\
  (exists enc, Encode t v enc) /\
  (forall enc, Encode t v enc ->
     Z.of_nat (length enc) = VecLength t /\
     Forall (fun x => x = 0%Q \/ x = 1%Q) enc /\
     countOnes enc = (NumTilings t + Z.to_nat (biasOf t))%nat).
Proof.
  intros Hc _ Hin. pose proof (VecLength_pos t Hc) as HL.
  split; [|split].
  - intros out Hout.
    destruct (EncodeIndices_positions t v out Hc Hin Hout) as (? & ? & _).
    done.
  - destruct (EncodeIndices_order_total t v (seq 0 (NumTilings t)) Hc Hin)
      as [out Hout]; [done|].
    apply (EncodeIndices_run_of_order t v _ out) in Hout; [|done].
    destruct (ToVector_outcome t v out Hc Hin Hout) as [Hnew Hset].
    eexists. by exists (replicate (Z.to_nat (VecLength t)) 0%Q), out.
  - intros enc (tileCoded & out & Hnew & Hout & Hset).
    destruct (ToVector_outcome t v out Hc Hin Hout) as [Hnew' Hset'].
    assert (tileCoded = replicate (Z.to_nat (VecLength t)) 0%Q) as ->
      by congruence.
    assert (enc = ones_at (replicate (Z.to_nat (VecLength t)) 0%Q)
                          (map position out)) as -> by congruence.
    destruct (EncodeIndices_positions t v out Hc Hin Hout)
      as (Hnd & Hr & Hlen).
    split; [|split].
    + rewrite ones_at_length, length_replicate. lia.
    + apply ones_at_binary.
    + rewrite countOnes_ones_at, countOnes_zeros, length_map; [done| |].
      * unfold position. rewrite <- (map_map int_of_float64 Z.to_nat).
        apply NoDup_fmap_2_strong; [|done].
        intros x y Hx Hy Hxy. rewrite Forall_forall in Hr.
        pose proof (Hr x Hx) as Hx'. pose proof (Hr y Hy) as Hy'.
        simpl in *. lia.
      * unfold position. rewrite <- (map_map int_of_float64 Z.to_nat).
        apply Forall_fmap. eapply Forall_impl; [exact Hr|].
        intros p Hp. simpl in *. apply lookup_replicate_2. lia.
Qed.

(** ** The running examples are valid *)

Ltac valid_tiling_tac :=
  constructor; simpl;
  [ lia | done | done | done
  | repeat (apply Forall_cons; split; [by vm_compute|]); constructor
  | repeat (apply Forall_cons; split; [by vm_compute|]); constructor
  | repeat (apply Forall2_cons; split; [split; by vm_compute|]); constructor
  | by vm_compute ].

Lemma tilingA_valid : valid_tiling Ex.tilingA.
Proof. valid_tiling_tac. Defined.

Lemma tilingB_valid : valid_tiling Ex.tilingB.
Proof. valid_tiling_tac. Defined.

Lemma cube_valid : valid_tiling Ex.cube.
Proof. valid_tiling_tac. Defined.

Lemma coder_valid : valid_coder Ex.coder.
Proof.
  constructor; simpl.
  - apply Forall_cons; split; [apply tilingA_valid|].
    apply Forall_cons; split; [apply tilingB_valid | constructor].
  - unfold NumTilings. simpl. lia.
  - by vm_compute.
Defined.

Lemma v1_valid : valid_input Ex.coder Ex.v1.
Proof. repeat (apply Forall_cons; split; [simpl; lia|]). constructor. Defined.

Lemma tilingA_exact : exact_bins Ex.tilingA.
Proof. repeat (apply Forall_cons; split; [by vm_compute|]). constructor. Defined.

Lemma tilingA_tiles : exact_tiles Ex.tilingA.
Proof. by vm_compute. Defined.

Lemma coder_exact : exact_features Ex.coder.
Proof. by vm_compute. Defined.

Lemma lowest_in_bounds : uniform_in_bounds Ex.lowest.
Proof.
  intros seed bounds _ Hb. exists (map fst bounds). split; [done|].
  apply Forall2_fmap_r, Forall_Forall2_diag.
  eapply Forall_impl; [exact Hb|]. intros bd Hbd. simpl in *.
  split; [apply Qle_refl | done].
Defined.

(** ** Evaluations *)

(** C7, at the first tiling of the test scenario. *)
Lemma Index_in_range_witness :
  valid_tiling Ex.tilingA /\ exact_bins Ex.tilingA /\
  (length (bins Ex.tilingA) <= length Ex.v1)%nat /\
  Tiles Ex.tilingA = Zprod (bins Ex.tilingA) /\
  exists index, Index Ex.tilingA Ex.v1 = Some index /\
                0 <= index <= Tiles Ex.tilingA - 1.
Proof.
  split; [apply tilingA_valid|]. split; [apply tilingA_exact|].
  split; [simpl; lia|].
  apply (Index_in_range Ex.tilingA Ex.v1);
    [apply tilingA_valid | apply tilingA_exact | simpl; lia].
Defined.

(** C6, for the bounds [0,5] x [0,5] with bins [2,3] and the point (5, -1):
    the last tile along dimension 0, the first along dimension 1. *)
Lemma clamping_witness :
  exists t,
    NewTiling Ex.lowest [0%Q; 0%Q] [5%Q; 5%Q] [2; 3] 1 OffsetDiv
      = Some (inr t) /\
    (exists index, Index t [5%Q; (- 1)%Q] = Some index) /\
    tileIndex t [5%Q; (- 1)%Q] 0 = Some (2 - 1) /\
    tileIndex t [5%Q; (- 1)%Q] 1 = Some 0.
Proof.
  assert (exists t, NewTiling Ex.lowest [0%Q; 0%Q] [5%Q; 5%Q] [2; 3] 1
                      OffsetDiv = Some (inr t)) as [t E]
    by (eexists; reflexivity).
  exists t. split; [exact E|].
  destruct (clamping Ex.lowest [0%Q; 0%Q] [5%Q; 5%Q] [2; 3] 1 OffsetDiv t
              [5%Q; (- 1)%Q] lowest_in_bounds) as [Hindex Htile].
  - repeat (apply Forall2_cons; split; [by vm_compute|]). constructor.
  - repeat (apply Forall_cons; split; [lia|]). constructor.
  - by vm_compute.
  - exact E.
  - simpl. lia.
  - split; [destruct Hindex as (index & _ & Hindex & _); by exists index|].
    split.
    + apply (Htile 0%nat 5%Q 0%Q 5%Q 2); try reflexivity;
        [repeat split|]; by vm_compute.
    + apply (Htile 1%nat (- 1)%Q 0%Q 5%Q 3); try reflexivity;
        [repeat split|]; by vm_compute.
Defined.

(** C1 (amended), in the test scenario. *)
Lemma EncodeIndices_arrival_order_witness :
  valid_coder Ex.coder /\ valid_input Ex.coder Ex.v1 /\
  exists out, EncodeIndices Ex.coder Ex.v1 out /\
              EncodeIndices_order Ex.coder Ex.v1 [1; 0]%nat = Some out.
Proof.
  split; [apply coder_valid|]. split; [apply v1_valid|].
  apply (EncodeIndices_arrival_order Ex.coder Ex.v1 coder_valid v1_valid).
  apply Permutation_swap.
Defined.

(** C10, in the test scenario. *)
Lemma Encode_one_hot_witness :
  valid_coder Ex.coder /\ exact_features Ex.coder /\
  valid_input Ex.coder Ex.v1 /\
  exists enc, Encode Ex.coder Ex.v1 enc.
Proof.
  split; [apply coder_valid|]. split; [apply coder_exact|].
  split; [apply v1_valid|].
  apply (Encode_one_hot Ex.coder Ex.v1 coder_valid coder_exact v1_valid).
Defined.

(** With one or two dimensions the stride of [Index] is the row-major
    one. *)
Lemma Index_row_major_small (t : Tiling) (v : Vec) :
  valid_tiling t -> (length (bins t) <= length v)%nat ->
  (length (bins t) <= 2)%nat ->
  exists tiles,
    mapM (tileIndex t v) (seq 0 (length (bins t))) = Some tiles /\
    Index t v = Some (rowMajor (bins t) tiles).
Proof.
  intros Hv Hlen Hn.
  pose proof (vt_dims t Hv) as Hd. pose proof (vt_tiles t Hv) as Hmax.
  unfold Index.
  destruct (bins t) as [|b0 [|b1 [|b2 bs]]] eqn:Hbins;
    simpl in Hd, Hn; try lia.
  - destruct (tileIndex_range t v 0 Hv) as (t0 & b & Ht0 & Hb & Hr);
      [rewrite Hbins; simpl; lia | rewrite Hbins; simpl in *; lia |].
    rewrite Hbins in Hb. injection Hb as <-.
    exists [t0]. cbn [length seq mapM]. rewrite Ht0. simpl.
    split; [done|]. rewrite Hbins. simpl in *. rewrite Ht0. simpl.
    unfold GoInt.add. rewrite wrap_id by (apply in_range_nonneg; lia).
    f_equal. lia.
  - destruct (tileIndex_range t v 0 Hv) as (t0 & b & Ht0 & Hb & Hr0);
      [rewrite Hbins; simpl; lia | rewrite Hbins; simpl in *; lia |].
    rewrite Hbins in Hb. injection Hb as <-.
    destruct (tileIndex_range t v 1 Hv) as (t1 & b & Ht1 & Hb & Hr1);
      [rewrite Hbins; simpl; lia | rewrite Hbins; simpl in *; lia |].
    rewrite Hbins in Hb. injection Hb as <-.
    exists [t0; t1]. cbn [length seq mapM]. rewrite Ht0. simpl.
    rewrite Ht1. simpl. rewrite Hbins. simpl. rewrite Ht0. simpl.
    split; [done|]. simpl in *.
    assert (0 <= t0 * b1 <= (b0 - 1) * b1) by nia.
    unfold GoInt.add, GoInt.mul.
    rewrite (wrap_id (0 + t1)) by (apply in_range_nonneg; nia).
    rewrite (wrap_id (t0 * b1)) by (apply in_range_nonneg; nia).
    rewrite wrap_id by (apply in_range_nonneg; nia).
    f_equal. lia.
Qed.

(** C2, at the failing input: in a 2 x 2 x 2 tiling the point (1, 0, 0)
    has per-dimension tiles (1, 0, 0); [Index] returns 1 * bins[1] = 2,
    row-major flattening gives 1 * bins[1] * bins[2] = 4; the tile
    (0, 1, 0) gets the same index 2. *)
Theorem Index_stride_not_row_major :
  valid_tiling Ex.cube /\
  tileIndex Ex.cube [1%Q; 0%Q; 0%Q] 0 = Some 1 /\
  tileIndex Ex.cube [1%Q; 0%Q; 0%Q] 1 = Some 0 /\
  tileIndex Ex.cube [1%Q; 0%Q; 0%Q] 2 = Some 0 /\
  Index Ex.cube [1%Q; 0%Q; 0%Q] = Some 2 /\
  rowMajor (bins Ex.cube) [1; 0; 0] = 4 /\
  Index Ex.cube [0%Q; 1%Q; 0%Q] = Some 2 /\
  rowMajor (bins Ex.cube) [0; 1; 0] = 2.
Proof. split; [apply cube_valid | by vm_compute]. Qed.

(** C3, at the failing input: on a batch of three samples over two
    dimensions [IndexBatch] panics, the row of three entries meeting the
    vector of two ones, while [Index] maps each column to a tile; on the
    square batch of the test the two agree. *)
Theorem IndexBatch_panics_on_wide_batch :
  IndexBatch Ex.tilingA Ex.wide = None /\
  (ColView Ex.wide 0 ≫= Index Ex.tilingA) = Some 1 /\
  (ColView Ex.wide 1 ≫= Index Ex.tilingA) = Some 5 /\
  (ColView Ex.wide 2 ≫= Index Ex.tilingA) = Some 3 /\
  IndexBatch Ex.tilingA Ex.square = Some [1%Q; 5%Q] /\
  (ColView Ex.square 0 ≫= Index Ex.tilingA) = Some 1 /\
  (ColView Ex.square 1 ≫= Index Ex.tilingA) = Some 5.
Proof. by vm_compute. Qed.

(** [ToIndices] panics as soon as the vector holds a 0.0. *)
Lemma ToIndices_loop_zero (v : list float64) :
  forall i indices,
    Exists (fun x => Qeq_bool x 0 = true) v ->
    ToIndices_loop v i indices = None.
Proof.
  induction v as [|x v IH]; intros i indices Hex.
  - by apply Exists_nil in Hex.
  - simpl. destruct (Qeq_bool x 0) eqn:Hx; simpl.
    + destruct (Qeq_bool x 1) eqn:H1; [|done].
      apply Qeq_bool_iff in Hx, H1. rewrite Hx in H1. by vm_compute in H1.
    + apply IH. apply Exists_cons in Hex as [Hex|Hex]; [congruence | done].
Qed.

(** What [ToIndices] does on a vector without a 0.0: every position is
    returned, whatever the entries are. *)
Lemma ToIndices_loop_nonzero (v : list float64) :
  forall i indices,
    Forall (fun x => Qeq_bool x 0 = false) v ->
    ToIndices_loop v i indices
    = Some (indices ++ map (fun p => float64_of_int (Z.of_nat p))
                           (seq i (length v))).
Proof.
  induction v as [|x v IH]; intros i indices Hall.
  - simpl. by rewrite app_nil_r.
  - apply Forall_cons in Hall as [Hx Hall]. simpl. rewrite Hx. simpl.
    rewrite IH by done. by rewrite <- app_assoc.
Qed.

(** C4, at the failing inputs: the vector [0.5] is accepted and position 0
    returned; the tile-coded vector [0, 1, 0, 0] is rejected. *)
Theorem ToIndices_test_inverted :
  ToIndices Ex.coderA [(1 # 2)%Q] = Some [0%Q] /\
  ToIndices Ex.coderB [0%Q; 1%Q; 0%Q; 0%Q] = None /\
  (exists out, EncodeIndices_order Ex.coderB Ex.v1 [0%nat] = Some out /\
               ToVector Ex.coderB out = Some [0%Q; 1%Q; 0%Q; 0%Q]).
Proof.
  split; [by vm_compute|]. split; [by vm_compute|].
  exists [1%Q]. split; by vm_compute.
Qed.

(** C9, at the failing input: for bounds [0, 6], two bins and
    [offsetDiv = 3] the bin length is 3 and the offset is drawn from
    [-2, 2], that is 3 / 1.5, not from [-1, 1]; the sampler that returns
    the lower bound gives the offset -2.  No value of [offsetDiv] changes
    the tiling. *)
Theorem NewTiling_ignores_offsetDiv :
  (forall uniform (mins maxs : Vec) (bs : list Z) (seed : Z)
          (offsetDiv offsetDiv' : float64),
     NewTiling uniform mins maxs bs seed offsetDiv
     = NewTiling uniform mins maxs bs seed offsetDiv') /\
  (exists bl lo hi,
     NewTiling_loop [0%Q] [6%Q] [2] 0 1 [] [] = Some ([bl], [(lo, hi)]) /\
     (bl == 3)%Q /\ (lo == - (2))%Q /\ (hi == 2)%Q) /\
  (exists t off,
     NewTiling Ex.lowest [0%Q] [6%Q] [2] 1 3%Q = Some (inr t) /\
     offsets t = [off] /\ (off == - (2))%Q /\
     ~ (- (3 / 3) <= off)%Q).
Proof.
  split; [done|]. split.
  - do 3 eexists. split; [reflexivity|]. by vm_compute.
  - do 2 eexists. split; [reflexivity|]. split; [reflexivity|].
    split; [by vm_compute|]. by vm_compute.
Qed.

(** [ToVector] on the indices of any run of [EncodeIndices] gives the
    vector of any run of [Encode]. *)
Lemma ToVector_EncodeIndices (t : TileCoder) (v : Vec) out enc :
  valid_coder t -> valid_input t v ->
  EncodeIndices t v out -> Encode t v enc ->
  ToVector t out = Some enc.
Proof.
  intros Hc Hin Hout (tileCoded & out' & Hnew & Hout' & Hset).
  destruct (ToVector_outcome t v out Hc Hin Hout) as [Hnew1 Hset1].
  destruct (ToVector_outcome t v out' Hc Hin Hout') as [_ Hset2].
  unfold ToVector. rewrite Hnew1. simpl. rewrite Hset1.
  rewrite (ones_at_outcomes t v _ out out') by done.
  rewrite <- Hset2. congruence.
Qed.

(** C5, at the failing input: in the test scenario [Encode] returns the
    vector with ones at 0, 2 and 8, and [ToIndices] panics on it, at its
    first 0.0; the other direction holds, [ToVector] on the indices of
    [EncodeIndices] gives the vector of [Encode]. *)
Theorem ToIndices_panics_on_Encode :
  (exists enc, Encode Ex.coder Ex.v1 enc) /\
  (forall enc, Encode Ex.coder Ex.v1 enc ->
     enc = [1%Q; 0%Q; 1%Q; 0%Q; 0%Q; 0%Q; 0%Q; 0%Q; 1%Q; 0%Q; 0%Q] /\
     ToIndices Ex.coder enc = None) /\
  (forall out enc,
     EncodeIndices Ex.coder Ex.v1 out -> Encode Ex.coder Ex.v1 enc ->
     ToVector Ex.coder out = Some enc).
Proof.
  assert (EncodeIndices Ex.coder Ex.v1 [2%Q; 8%Q; 0%Q]) as Hrun
    by (by apply (EncodeIndices_run_of_order _ _ [0; 1]%nat)).
  assert (forall enc, Encode Ex.coder Ex.v1 enc ->
            enc = [1%Q; 0%Q; 1%Q; 0%Q; 0%Q; 0%Q; 0%Q; 0%Q; 1%Q; 0%Q; 0%Q])
    as Henc.
  { intros enc Henc.
    pose proof (ToVector_EncodeIndices Ex.coder Ex.v1 _ enc
                  coder_valid v1_valid Hrun Henc) as H.
    vm_compute in H. by injection H as <-. }
  split; [|split].
  - destruct (ToVector_outcome Ex.coder Ex.v1 _ coder_valid v1_valid Hrun)
      as [Hnew Hset].
    eexists. eexists _, _. split; [exact Hnew|]. split; [exact Hrun|].
    exact Hset.
  - intros enc H. rewrite (Henc enc H). split; [done | by vm_compute].
  - intros out enc Hout H.
    exact (ToVector_EncodeIndices Ex.coder Ex.v1 out enc
             coder_valid v1_valid Hout H).
Qed.

(** * Further properties of the package *)

(** ** Clipping *)



(** ** Integer arithmetic modulo 2^64 *)

Lemma wrap_eq z : GoInt.wrap z = z - 2 ^ 64 * ((z + 2 ^ 63) / 2 ^ 64).
Proof. unfold GoInt.wrap. rewrite Z.mod_eq by lia. lia. Qed.

Lemma wrap_shift z q : GoInt.wrap (z + q * 2 ^ 64) = GoInt.wrap z.
Proof.
  unfold GoInt.wrap.
  replace (z + q * 2 ^ 64 + 2 ^ 63) with (z + 2 ^ 63 + q * 2 ^ 64) by lia.
  by rewrite Z_mod_plus_full.
Qed.

Lemma wrap_in_range z : GoInt.in_range (GoInt.wrap z).
Proof.
  unfold GoInt.in_range, GoInt.int_min, GoInt.int_max, GoInt.wrap.
  pose proof (Z.mod_pos_bound (z + 2 ^ 63) (2 ^ 64)). lia.
Qed.

Lemma wrap_add_l a b : GoInt.wrap (GoInt.wrap a + b) = GoInt.wrap (a + b).
Proof.
  rewrite (wrap_eq a).
  replace (a - 2 ^ 64 * ((a + 2 ^ 63) / 2 ^ 64) + b)
    with (a + b + (- ((a + 2 ^ 63) / 2 ^ 64)) * 2 ^ 64) by lia.
  apply wrap_shift.
Qed.

Lemma wrap_add_r a b : GoInt.wrap (a + GoInt.wrap b) = GoInt.wrap (a + b).
Proof. by rewrite Z.add_comm, wrap_add_l, Z.add_comm. Qed.

Lemma wrap_mul_l a b : GoInt.wrap (GoInt.wrap a * b) = GoInt.wrap (a * b).
Proof.
  rewrite (wrap_eq a).
  replace ((a - 2 ^ 64 * ((a + 2 ^ 63) / 2 ^ 64)) * b)
    with (a * b + (- ((a + 2 ^ 63) / 2 ^ 64) * b) * 2 ^ 64) by lia.
  apply wrap_shift.
Qed.

Lemma prod_foldl_wrap l :
  forall acc, GoInt.in_range acc ->
    foldl (fun prod v => GoInt.mul prod v) acc l
    = GoInt.wrap (acc * Zprod l).
Proof.
  induction l as [|b l IH]; intros acc Hacc; simpl.
  - rewrite Z.mul_1_r. symmetry. by apply wrap_id.
  - rewrite IH by apply wrap_in_range. unfold GoInt.mul.
    rewrite wrap_mul_l. f_equal. lia.
Qed.

(** X2. [prod], and with it [Tiles], is the product of the integers reduced to
    the 64 bits of an [int]: the exact product whenever that fits, a
    wrapped value (possibly zero or negative) otherwise. *)
Theorem prod_modulo (l : list Z) :
  prod l = GoInt.wrap (Zprod l) /\
  (GoInt.in_range (Zprod l) -> prod l = Zprod l) /\
  prod [2 ^ 32; 2 ^ 32] = 0.
Proof.
  assert (prod l = GoInt.wrap (Zprod l)) as H.
  { unfold prod. rewrite prod_foldl_wrap; [by rewrite Z.mul_1_l|].
    by apply in_range_nonneg. }
  split; [done|]. split; [|by vm_compute].
  intros Hr. rewrite H. by apply wrap_id.
Qed.

(** ** Counting features *)

Lemma featuresBeforeTiling_S (t : TileCoder) (i : nat) :
  featuresBeforeTiling t (S i)
  = (features ← featuresBeforeTiling t i;
     tl ← tilings t !! i;
     Some (GoInt.add features (Tiles tl))).
Proof. unfold featuresBeforeTiling. by rewrite seq_S, foldl_app. Qed.

Lemma featuresBeforeTiling_wrap (t : TileCoder) (i : nat) :
  (i <= NumTilings t)%nat ->
  featuresBeforeTiling t i
  = Some (GoInt.wrap (Zsum (map Tiles (take i (tilings t))))).
Proof.
  induction i as [|i IH]; intros Hi; [done|].
  rewrite featuresBeforeTiling_S, IH by lia. simpl.
  destruct (lookup_lt_is_Some_2 (tilings t) i) as [tl Htl];
    [unfold NumTilings in Hi; lia|].
  rewrite Htl. simpl. rewrite (take_S_r _ _ _ Htl), map_app, Zsum_app.
  simpl. unfold GoInt.add. rewrite wrap_add_l. do 2 f_equal. lia.
Qed.

Lemma featuresBeforeTiling_beyond (t : TileCoder) (i : nat) :
  (NumTilings t < i)%nat -> featuresBeforeTiling t i = None.
Proof.
  induction i as [|i IH]; intros Hi; [lia|].
  rewrite featuresBeforeTiling_S.
  destruct (decide (NumTilings t < i)%nat) as [Hlt|Hge].
  - by rewrite IH.
  - assert (i = NumTilings t) as -> by lia.
    rewrite featuresBeforeTiling_wrap by lia. simpl.
    unfold NumTilings. by rewrite lookup_ge_None_2.
Qed.

(** X3. [featuresBeforeTiling i] panics exactly when [i] exceeds the number of
    tilings; otherwise it is the sum of the tile counts of the first [i]
    tilings, reduced to 64 bits.  [VecLength] is that sum over all the
    tilings plus the bias: [VecLength = featuresBeforeTiling(NumTilings)
    + bias], again reduced to 64 bits. *)
Theorem feature_counts (t : TileCoder) :
  (forall i, featuresBeforeTiling t i = None <-> (NumTilings t < i)%nat) /\
  (forall i, (i <= NumTilings t)%nat ->
     featuresBeforeTiling t i
     = Some (GoInt.wrap (Zsum (map Tiles (take i (tilings t)))))) /\
  (exists all, featuresBeforeTiling t (NumTilings t) = Some all /\
               VecLength t = GoInt.wrap (all + biasOf t)).
Proof.
  split; [|split].
  - intros i. split; [|apply featuresBeforeTiling_beyond].
    intros H. destruct (decide (NumTilings t < i)%nat); [done|].
    rewrite featuresBeforeTiling_wrap in H by lia. done.
  - apply featuresBeforeTiling_wrap.
  - eexists. split; [apply featuresBeforeTiling_wrap; lia|].
    unfold NumTilings. rewrite firstn_all.
    assert (forall tls acc,
              foldl (fun baseVec tl => GoInt.add baseVec (Tiles tl)) acc tls
              = GoInt.wrap (acc + Zsum (map Tiles tls)) \/
              (tls = [] /\
               foldl (fun baseVec tl => GoInt.add baseVec (Tiles tl)) acc tls
               = acc)) as Hfold.
    { induction tls as [|tl tls IH]; intros acc; [by right|]. left.
      simpl. destruct (IH (GoInt.add acc (Tiles tl))) as [->|[-> ->]].
      - unfold GoInt.add. rewrite wrap_add_l. f_equal. lia.
      - simpl. unfold GoInt.add. f_equal. lia. }
    unfold VecLength, biasOf.
    destruct (Hfold (tilings t) 0) as [->|[-> ->]]; simpl.
    + destruct (includeBias t).
      * unfold GoInt.add. by rewrite !wrap_add_l.
      * rewrite wrap_add_l. f_equal. lia.
    + by destruct (includeBias t).
Qed.

(** ** Monotonicity of the index *)

Lemma clippedTile_mono x y off mn bl b :
  (0 < bl)%Q -> (x <= y)%Q ->
  clippedTile x off mn bl b <= clippedTile y off mn bl b.
Proof.
  intros Hbl Hxy.
  assert (Qfloor ((x + off - mn) / bl) <= Qfloor ((y + off - mn) / bl)).
  { apply Qfloor_resp_le. unfold Qdiv. apply Qmult_le_compat_r; [lra|].
    apply Qinv_le_0_compat. lra. }
  unfold clippedTile. lia.
Qed.

Lemma Index_loop_mono (t : Tiling) (v w : Vec) (i : nat) :
  valid_tiling t ->
  (length (bins t) <= length v)%nat -> (length (bins t) <= length w)%nat ->
  (forall j x y, v !! j = Some x -> w !! j = Some y -> (x <= y)%Q) ->
  (i <= length (bins t))%nat ->
  forall a a',
    0 <= a <= Zprod (drop i (bins t)) - 1 ->
    0 <= a' <= Zprod (drop i (bins t)) - 1 -> a <= a' ->
    exists r r', Index_loop t v i a = Some r /\
                 Index_loop t w i a' = Some r' /\ r <= r'.
Proof.
  intros Hv Hlv Hlw Hle.
  induction i as [|i IH]; intros Hi a a' Ha Ha' Haa.
  - by exists a, a'.
  - destruct (Index_loop_step t v i a Hv Hlv)
      as (x & off & mn & bl & b & Hx & Hoff & Hmn & Hbl & Hb & Hb0 & Hs
          & -> & Hr); [lia | done |].
    destruct (Index_loop_step t w i a' Hv Hlw)
      as (y & off' & mn' & bl' & b' & Hy & Hoff' & Hmn' & Hbl' & Hb' & _ & _
          & -> & Hr'); [lia | done |].
    assert (off' = off) as -> by congruence.
    assert (mn' = mn) as -> by congruence.
    assert (bl' = bl) as -> by congruence.
    assert (b' = b) as -> by congruence.
    apply IH; [lia | done | done |].
    pose proof (Forall_lookup_1 _ _ _ _ (vt_lengths t Hv) Hbl) as Hpos.
    pose proof (clippedTile_mono x y off mn bl b Hpos (Hle i x y Hx Hy)).
    nia.
Qed.

(** X4. On a valid tiling with bin counts that [float64] holds exactly (at
    most 2^53), [Index] is monotone: raising coordinates never lowers the
    index. *)
Theorem Index_monotone (t : Tiling) (v w : Vec) :
  valid_tiling t -> exact_bins t ->
  (length (bins t) <= length v)%nat -> (length (bins t) <= length w)%nat ->
  (forall j x y, v !! j = Some x -> w !! j = Some y -> (x <= y)%Q) ->
  exists r r', Index t v = Some r /\ Index t w = Some r' /\ r <= r'.
Proof.
  intros Hv _ Hlv Hlw Hle. unfold Index.
  apply Index_loop_mono; try done; rewrite drop_ge by lia; simpl; lia.
Qed.

Lemma Index_monotone_witness :
  valid_tiling Ex.tilingA /\ exact_bins Ex.tilingA /\
  exists r r', Index Ex.tilingA [1%Q; 3%Q] = Some r /\
               Index Ex.tilingA [2%Q; 4%Q] = Some r' /\ r <= r'.
Proof.
  split; [apply tilingA_valid|]. split; [apply tilingA_exact|].
  apply (Index_monotone Ex.tilingA [1%Q; 3%Q] [2%Q; 4%Q] tilingA_valid
           tilingA_exact);
    [simpl; lia | simpl; lia |].
  intros [|[|j]] x y Hx Hy; simpl in *; simplify_eq; by vm_compute.
Defined.

(** X5. On a valid tiling [Index] panics exactly on the vectors that have fewer
    coordinates than the tiling has dimensions; further coordinates are
    ignored. *)
Theorem Index_panics_iff_short (t : Tiling) (v : Vec) :
  valid_tiling t ->
  (Index t v = None <-> (length v < length (bins t))%nat) /\
  (forall w, (length (bins t) <= length v)%nat ->
             Index t (v ++ w) = Index t v).
Proof.
  intros Hv. split; [split|].
  - intros H. destruct (decide (length v < length (bins t))%nat); [done|].
    destruct (Index_in_range_aux t v Hv) as (index & E & _); [lia|].
    congruence.
  - intros H. pose proof (vt_dims t Hv) as Hd. unfold Index.
    destruct (length (bins t)) as [|n] eqn:Hn; [lia|].
    cbn [Index_loop]. unfold tileIndex, AtVec.
    by rewrite (lookup_ge_None_2 v n) by lia.
  - intros w Hlen. unfold Index.
    assert (forall i a, (i <= length (bins t))%nat ->
              Index_loop t (v ++ w) i a = Index_loop t v i a) as Hl.
    { induction i as [|i IH]; intros a Hi; [done|].
      cbn [Index_loop]. unfold tileIndex, AtVec.
      rewrite (lookup_app_l v w) by lia.
      destruct (v !! i); simpl; [|done].
      destruct (offsets t !! i); simpl; [|done].
      destruct (minDims t !! i); simpl; [|done].
      destruct (binLengths t !! i); simpl; [|done].
      destruct (bins t !! i); simpl; [|done].
      destruct (decide (i = (length (bins t) - 1)%nat)); simpl.
      - apply IH. lia.
      - destruct (bins t !! S i); simpl; [|done]. apply IH. lia. }
    by apply Hl.
Qed.

Lemma Index_panics_iff_short_witness :
  valid_tiling Ex.tilingA /\
  (Index Ex.tilingA [1%Q] = None <->
   (length [1%Q] < length (bins Ex.tilingA))%nat).
Proof.
  split; [apply tilingA_valid|].
  apply (Index_panics_iff_short Ex.tilingA [1%Q] tilingA_valid).
Defined.

(** ** Converting between indices and tile-coded vectors *)

Lemma setOnes_None_absorbs idx :
  foldl (fun acc index => tc ← acc; SetVec tc (int_of_float64 index) 1%Q)
        None idx = None.
Proof. induction idx as [|x idx IH]; [done|]. simpl. exact IH. Qed.

(** [setOnes] panics exactly when some index falls outside the vector. *)
Lemma setOnes_cases idx :
  forall acc,
    (Forall (fun x => 0 <= int_of_float64 x < Z.of_nat (length acc)) idx /\
     setOnes acc idx = Some (ones_at acc (map position idx))) \/
    (Exists (fun x => ~ (0 <= int_of_float64 x < Z.of_nat (length acc))) idx /\
     setOnes acc idx = None).
Proof.
  induction idx as [|x idx IH]; intros acc.
  - left. by split; [constructor|].
  - destruct (decide (0 <= int_of_float64 x < Z.of_nat (length acc)))
      as [Hx|Hx].
    + destruct (IH (<[position x := 1%Q]> acc)) as [[Hall E]|[Hex E]];
        rewrite length_insert in *.
      * left. split; [by constructor|]. by apply setOnes_spec; constructor.
      * right. split; [by apply Exists_cons_tl|].
        unfold setOnes in *. simpl. unfold SetVec.
        destruct (Z.leb_spec 0 (int_of_float64 x)); [|lia].
        destruct (Z.ltb_spec (int_of_float64 x) (Z.of_nat (length acc)));
          [|lia].
        simpl. exact E.
    + right. split; [by apply Exists_cons_hd|].
      unfold setOnes. simpl. unfold SetVec.
      destruct (Z.leb_spec 0 (int_of_float64 x));
        destruct (Z.ltb_spec (int_of_float64 x) (Z.of_nat (length acc)));
        simpl; try lia; apply setOnes_None_absorbs.
Qed.

(** X6. On indices whose conversion to [int] is defined (their integer
    part fits 64 bits), [ToVector] panics exactly when the coder has no
    feature or some index is not a position of the vector; otherwise it
    returns the vector of [VecLength] entries that is 1.0 at the given
    positions and 0.0 elsewhere.  Order and repetition of the indices do
    not matter. *)
Theorem ToVector_positions (t : TileCoder) (idx : Vec) :
  Forall fits_int idx ->
  (ToVector t idx = None <->
   VecLength t <= 0 \/
   Exists (fun x => ~ (0 <= int_of_float64 x < VecLength t)) idx) /\
  (forall out, ToVector t idx = Some out ->
     Z.of_nat (length out) = VecLength t /\
     forall p, (p < length out)%nat ->
       out !! p = Some (if decide (p ∈ map position idx) then 1%Q else 0%Q)) /\
  (forall idx' : Vec,
     Forall fits_int idx' ->
     (forall z, z ∈ map int_of_float64 idx <-> z ∈ map int_of_float64 idx') ->
     ToVector t idx = ToVector t idx').
Proof.
  intros _. unfold ToVector, NewVecDense.
  destruct (Z.leb_spec (VecLength t) 0) as [HL|HL]; simpl.
  { split; [|split]; [by split; [left|] | done | done]. }
  pose (zeros := replicate (Z.to_nat (VecLength t)) 0%Q).
  assert (Z.of_nat (length zeros) = VecLength t) as Hlen
    by (unfold zeros; rewrite length_replicate; lia).
  fold zeros.
  assert (forall i : Vec,
            (setOnes zeros i = None <->
             Exists (fun x => ~ (0 <= int_of_float64 x < VecLength t)) i) /\
            (Forall (fun x => 0 <= int_of_float64 x < VecLength t) i ->
             setOnes zeros i = Some (ones_at zeros (map position i))))
    as Hcases.
  { intros i. destruct (setOnes_cases i zeros) as [[Hall E]|[Hex E]];
      rewrite Hlen in *; rewrite E.
    - split; [|done]. split; [done|]. intros Hex.
      apply Exists_exists in Hex as (x & Hx & Hn).
      rewrite Forall_forall in Hall. by destruct (Hn (Hall x Hx)).
    - split; [done|]. intros Hall.
      apply Exists_exists in Hex as (x & Hx & Hn).
      rewrite Forall_forall in Hall. by destruct (Hn (Hall x Hx)). }
  split; [|split].
  - destruct (Hcases idx) as [-> _]. split; [by right | intros [?|?]; [lia|done]].
  - intros out Hout.
    destruct (setOnes_cases idx zeros) as [[Hall E]|[Hex E]];
      [|congruence].
    rewrite E in Hout. injection Hout as <-.
    rewrite ones_at_length. split; [done|]. intros p Hp.
    rewrite ones_at_lookup.
    destruct (decide (p ∈ map position idx /\ (p < length zeros)%nat))
      as [[Hin _]|Hn].
    + by rewrite decide_True.
    + rewrite decide_False by tauto.
      unfold zeros. apply lookup_replicate_2.
      unfold zeros in Hp. by rewrite length_replicate in Hp.
  - intros idx' _ Hsame.
    assert (forall i i' : Vec,
              (forall z, z ∈ map int_of_float64 i -> z ∈ map int_of_float64 i') ->
              Forall (fun x => 0 <= int_of_float64 x < VecLength t) i' ->
              Forall (fun x => 0 <= int_of_float64 x < VecLength t) i)
      as Hsub.
    { intros i i' Hii Hall. apply Forall_forall. intros x Hx.
      assert (int_of_float64 x ∈ map int_of_float64 i')
        as Hin by (apply Hii, list_elem_of_fmap; by exists x).
      apply list_elem_of_fmap in Hin as (y & -> & Hy).
      rewrite Forall_forall in Hall. by apply Hall. }
    destruct (setOnes_cases idx zeros) as [[Hall E]|[Hex E]];
      rewrite Hlen in *.
    + rewrite E. destruct (Hcases idx') as [_ ->].
      * f_equal. apply list_eq. intros p. rewrite !ones_at_lookup.
        assert (p ∈ map position idx <-> p ∈ map position idx') as Hp.
        { unfold position.
          rewrite <- !(map_map int_of_float64 Z.to_nat).
          split; intros Hin;
            apply list_elem_of_fmap in Hin as (z & -> & Hz);
            apply list_elem_of_fmap; exists z; split; try done;
            by apply Hsame. }
        destruct (decide (p ∈ map position idx /\ (p < length zeros)%nat))
          as [[H1 H2]|Hn].
        -- rewrite decide_True; [done|]. split; [by apply Hp | done].
        -- rewrite decide_False; [done|]. intros [H1 H2]. apply Hn.
           split; [by apply Hp | done].
      * apply (Hsub idx' idx); [|done]. intros z. apply Hsame.
    + rewrite E. symmetry. apply Hcases.
      apply Exists_exists in Hex as (x & Hx & Hn).
      destruct (setOnes_cases idx' zeros) as [[Hall' E']|[Hex' E']];
        rewrite Hlen in *; [|done].
      exfalso. apply Hn.
      assert (Forall (fun x => 0 <= int_of_float64 x < VecLength t) idx)
        as Hall by (apply (Hsub idx idx'); [intros z; apply Hsame | done]).
      rewrite Forall_forall in Hall. by apply Hall.
Qed.

Lemma ToVector_positions_witness :
  Forall fits_int [2%Q; 0%Q; 2%Q] /\
  ToVector Ex.coder [2%Q; 0%Q; 2%Q] = ToVector Ex.coder [0%Q; 2%Q].
Proof.
  assert (Forall fits_int [2%Q; 0%Q; 2%Q]) as H1
    by (repeat (apply Forall_cons; split; [by vm_compute|]); constructor).
  split; [exact H1|].
  destruct (ToVector_positions Ex.coder [2%Q; 0%Q; 2%Q] H1) as (_ & _ & Hsame).
  apply Hsame.
  - repeat (apply Forall_cons; split; [by vm_compute|]). constructor.
  - intros z. cbn. rewrite !elem_of_cons, !elem_of_nil. tauto.
Defined.

Lemma ToIndices_loop_cases (v : list float64) i indices :
  (Forall (fun x => ~ (x == 0)%Q) v /\
   ToIndices_loop v i indices
   = Some (indices ++ map (fun p => float64_of_int (Z.of_nat p))
                          (seq i (length v)))) \/
  (Exists (fun x => (x == 0)%Q) v /\ ToIndices_loop v i indices = None).
Proof.
  destruct (Forall_Exists_dec (fun x => Qeq_bool x 0 = false)
              (fun x => Qeq_bool x 0 = true)
              (fun x => match Qeq_bool x 0 as b
                              return {b = false} + {b = true} with
                        | true => right eq_refl
                        | false => left eq_refl
                        end) v) as [Hall|Hex].
  - left. split; [|by apply ToIndices_loop_nonzero].
    eapply Forall_impl; [exact Hall|]. intros x Hx Heq. simpl in Hx.
    apply Qeq_bool_iff in Heq. congruence.
  - right. split; [|by apply ToIndices_loop_zero].
    eapply Exists_impl; [exact Hex|]. intros x Hx. simpl in Hx.
    by apply Qeq_bool_iff.
Qed.

(** X7. What [ToIndices] does as written: it returns exactly on the vectors
    that hold no 0.0 and have as many entries as the coder has tilings (at
    least one), and then returns every position [0 .. len-1], whatever
    the entries are; any 0.0 makes it panic. *)
Theorem ToIndices_as_written (t : TileCoder) (v r : Vec) :
  ToIndices t v = Some r <->
  Forall (fun x => ~ (x == 0)%Q) v /\
  length v = NumTilings t /\ (0 < NumTilings t)%nat /\
  r = map (fun p => float64_of_int (Z.of_nat p)) (seq 0 (length v)).
Proof.
  unfold ToIndices, NewVecDense.
  destruct (ToIndices_loop_cases v 0 []) as [[Hall ->]|[Hex ->]]; simpl.
  - assert (forall l : list nat,
              length (map (fun p => float64_of_int (Z.of_nat p)) l)
              = length l) as Hl by (intros l; apply length_map).
    rewrite Hl, length_seq.
    destruct (Z.leb_spec (Z.of_nat (NumTilings t)) 0) as [H0|H0].
    + split; [done|]. intros (_ & _ & ? & _). lia.
    + destruct (Z.eqb_spec (Z.of_nat (length v)) (Z.of_nat (NumTilings t)))
        as [He|He].
      * split; [intros [= <-]; repeat split; try done; lia|].
        by intros (_ & _ & _ & ->).
      * split; [done|]. intros (_ & ? & _). lia.
  - split; [done|]. intros (Hall & _).
    apply Exists_exists in Hex as (x & Hx & H0).
    rewrite Forall_forall in Hall. by destruct (Hall x Hx).
Qed.

(** ** Runs of [Encode] *)

Lemma encodeWithTiling_short (t : TileCoder) (v : Vec) j tl :
  valid_coder t -> tilings t !! j = Some tl ->
  (length v < length (bins tl))%nat -> encodeWithTiling t v j = None.
Proof.
  intros Hc Htl Hshort. unfold encodeWithTiling.
  destruct (featuresBeforeTiling t j); simpl; [|done].
  rewrite Htl. simpl.
  pose proof (Forall_lookup_1 _ _ _ _ (vc_tilings t Hc) Htl) as Hv.
  unfold Index. destruct (length (bins tl)) as [|n] eqn:Hn; [lia|].
  cbn [Index_loop]. unfold tileIndex, AtVec.
  by rewrite (lookup_ge_None_2 v n) by lia.
Qed.

(** X8. A call of [EncodeIndices] on a valid coder returns exactly when the
    input vector has a coordinate for every dimension of every tiling; on
    a shorter vector a worker panics. *)
Theorem EncodeIndices_returns_iff (t : TileCoder) (v : Vec) :
  valid_coder t ->
  ((exists out, EncodeIndices t v out) <-> valid_input t v).
Proof.
  intros Hc. split.
  - intros (out & Hout).
    destruct (EncodeIndices_order_of_run t v out Hout)
      as (order & Hperm & Horder).
    unfold EncodeIndices_order in Horder.
    destruct (mapM (encodeWithTiling t v) order) as [xs|] eqn:Hxs; [|done].
    apply mapM_Some_1 in Hxs.
    apply Forall_lookup_2. intros j tl Htl.
    destruct (decide (length (bins tl) <= length v)%nat); [done|].
    assert (j ∈ order) as Hj.
    { rewrite Hperm. apply elem_of_seq. apply lookup_lt_Some in Htl.
      unfold NumTilings. lia. }
    apply list_elem_of_lookup_1 in Hj as [i Hi].
    destruct (Forall2_lookup_l _ _ _ _ _ Hxs Hi) as (x & _ & Hx).
    rewrite (encodeWithTiling_short t v j tl) in Hx; [done..|lia].
  - intros Hin.
    destruct (EncodeIndices_order_total t v (seq 0 (NumTilings t)) Hc Hin)
      as [out Hout]; [done|].
    exists out. by apply (EncodeIndices_run_of_order t v (seq 0 (NumTilings t))).
Qed.

Lemma EncodeIndices_returns_iff_witness :
  valid_coder Ex.coder /\
  ((exists out, EncodeIndices Ex.coder Ex.v1 out) <->
   valid_input Ex.coder Ex.v1).
Proof.
  split; [apply coder_valid|].
  apply (EncodeIndices_returns_iff Ex.coder Ex.v1 coder_valid).
Defined.

(** X9. [Encode] is deterministic although [EncodeIndices] is not: all the
    runs of [Encode] on a vector return the same tile-coded vector, for
    any coder. *)
Theorem Encode_deterministic (t : TileCoder) (v : Vec) (enc enc' : Vec) :
  Encode t v enc -> Encode t v enc' -> enc = enc'.
Proof.
  intros (tc & out & Hnew & Hout & Hset) (tc' & out' & Hnew' & Hout' & Hset').
  assert (tc' = tc) as -> by congruence.
  pose proof (EncodeIndices_perm t v out out' Hout Hout') as Hperm.
  destruct (setOnes_cases out tc) as [[Hall E]|[_ E]]; [|congruence].
  destruct (setOnes_cases out' tc) as [[Hall' E']|[_ E']]; [|congruence].
  assert (enc = ones_at tc (map position out)) as -> by congruence.
  assert (enc' = ones_at tc (map position out')) as -> by congruence.
  by apply ones_at_perm, Permutation_map.
Qed.

Lemma Encode_deterministic_witness :
  exists enc, Encode Ex.coder Ex.v1 enc /\ enc = enc.
Proof.
  destruct (ToVector_outcome Ex.coder Ex.v1 [2%Q; 8%Q; 0%Q]
              coder_valid v1_valid) as [Hnew Hset].
  { by apply (EncodeIndices_run_of_order _ _ [0; 1]%nat). }
  assert (Encode Ex.coder Ex.v1
            (ones_at (replicate (Z.to_nat (VecLength Ex.coder)) 0%Q)
                     (map position [2%Q; 8%Q; 0%Q]))) as Henc.
  { eexists _, _. split; [exact Hnew|]. split; [|exact Hset].
    by apply (EncodeIndices_run_of_order _ _ [0; 1]%nat). }
  eexists. split; [exact Henc|].
  exact (Encode_deterministic Ex.coder Ex.v1 _ _ Henc Henc).
Defined.

Lemma float64_of_int_inj_list (xs ys : list Z) :
  map float64_of_int xs = map float64_of_int ys -> xs = ys.
Proof.
  revert ys. induction xs as [|x xs IH]; intros [|y ys] H; simpl in H;
    try done.
  injection H as Hx Hxs. f_equal; [|by apply IH].
  unfold float64_of_int, inject_Z in Hx. by simplify_eq.
Qed.

(** The indices of a run, with the arrival order that produced them. *)
Lemma EncodeIndices_shape_order (t : TileCoder) (v : Vec) out :
  valid_coder t -> valid_input t v -> EncodeIndices t v out ->
  exists order xs,
    order ≡ₚ seq 0 (NumTilings t) /\
    Forall2 (fun j x => encodeWithTiling t v j = Some x) order xs /\
    map int_of_float64 out = xs ++ (if includeBias t then [0] else []).
Proof.
  intros Hc Hin Hout.
  destruct (EncodeIndices_shape t v out Hc Hin Hout)
    as (xs' & Hout' & Hpos & _).
  destruct (EncodeIndices_order_of_run t v out Hout)
    as (order & Hperm & Horder).
  unfold EncodeIndices_order in Horder.
  destruct (mapM (encodeWithTiling t v) order) as [xs|] eqn:Hxs; [|done].
  simpl in Horder. injection Horder as Hout''.
  apply mapM_Some_1 in Hxs. exists order, xs.
  split; [done|]. split; [done|].
  rewrite Hout' in Hout''. apply app_inv_tail in Hout''.
  apply float64_of_int_inj_list in Hout''. by subst xs'.
Qed.

(** X10. The tile-coded vector of a valid coder: [Encode] sets to 1.0 exactly
    the bias position 0, when the coder has a bias unit, and for each
    tiling [j] the position
    featuresBeforeTiling(j) + tilings[j].Index(v) + bias. *)
Theorem Encode_positions (t : TileCoder) (v enc : Vec) :
  valid_coder t -> valid_input t v -> Encode t v enc ->
  forall p : nat,
    enc !! p = Some 1%Q <->
    (includeBias t = true /\ p = 0%nat) \/
    (exists j tl fb index,
       tilings t !! j = Some tl /\ featuresBeforeTiling t j = Some fb /\
       Index tl v = Some index /\ Z.of_nat p = fb + index + biasOf t).
Proof.
  intros Hc Hin (tc & out & Hnew & Hout & Hset) p.
  destruct (ToVector_outcome t v out Hc Hin Hout) as [Hnew' Hset'].
  assert (tc = replicate (Z.to_nat (VecLength t)) 0%Q) as -> by congruence.
  assert (enc = ones_at (replicate (Z.to_nat (VecLength t)) 0%Q)
                        (map position out)) as -> by congruence.
  destruct (EncodeIndices_positions t v out Hc Hin Hout) as (_ & Hr & _).
  destruct (EncodeIndices_shape_order t v out Hc Hin Hout)
    as (order & xs & Hperm & Hxs & Hpos).
  pose proof (VecLength_pos t Hc) as HL.
  assert (p ∈ map position out <->
          (includeBias t = true /\ p = 0%nat) \/
          (exists j tl fb index,
             tilings t !! j = Some tl /\ featuresBeforeTiling t j = Some fb /\
             Index tl v = Some index /\ Z.of_nat p = fb + index + biasOf t))
    as Hmem.
  { unfold position. rewrite <- (map_map int_of_float64 Z.to_nat), Hpos.
    rewrite Hpos in Hr. split.
    - intros Hp. apply list_elem_of_fmap in Hp as (z & -> & Hz).
      rewrite Forall_forall in Hr. pose proof (Hr z Hz) as Hz0. simpl in Hz0.
      apply elem_of_app in Hz as [Hz|Hz].
      + right. apply list_elem_of_lookup_1 in Hz as [i Hi].
        destruct (Forall2_lookup_r _ _ _ _ _ Hxs Hi) as (j & _ & Hj).
        destruct (encodeWithTiling_Some t v j z Hj) as [tl Htl].
        destruct (encodeWithTiling_spec t v j tl Hc Hin Htl)
          as (index & Hindex & _ & E).
        exists j, tl, (features (take j (tilings t))), index.
        split; [done|]. split.
        { apply featuresBeforeTiling_spec; [done|].
          apply lookup_lt_Some in Htl. unfold NumTilings. lia. }
        split; [done|]. rewrite Hj in E. injection E as <-. lia.
      + left. destruct (includeBias t); [|by apply elem_of_nil in Hz].
        apply list_elem_of_singleton in Hz. by subst z.
    - intros [[Hb ->]|(j & tl & fb & index & Htl & Hfb & Hindex & Hp)].
      + rewrite Hb. apply list_elem_of_fmap. exists 0. split; [done|].
        apply elem_of_app. right. by apply list_elem_of_singleton.
      + destruct (encodeWithTiling_spec t v j tl Hc Hin Htl)
          as (index' & Hindex' & _ & E).
        assert (index' = index) as -> by congruence.
        rewrite featuresBeforeTiling_spec in Hfb;
          [|done | apply lookup_lt_Some in Htl; unfold NumTilings; lia].
        injection Hfb as <-.
        assert (j ∈ order) as Hj.
        { rewrite Hperm. apply elem_of_seq. apply lookup_lt_Some in Htl.
          unfold NumTilings. lia. }
        apply list_elem_of_lookup_1 in Hj as [i Hi].
        destruct (Forall2_lookup_l _ _ _ _ _ Hxs Hi) as (x & Hx & Hjx).
        apply list_elem_of_fmap. exists x. split.
        * rewrite E in Hjx. injection Hjx as <-. lia.
        * apply elem_of_app. left. by eapply list_elem_of_lookup_2. }
  rewrite ones_at_lookup, length_replicate.
  destruct (decide (p ∈ map position out /\ (p < Z.to_nat (VecLength t))%nat))
    as [[Hp _]|Hn].
  - split; [intros _; by apply Hmem | done].
  - split.
    + intros Hp. apply lookup_replicate in Hp as [Hp _]. by vm_compute in Hp.
    + intros Hp. apply Hmem in Hp. exfalso. apply Hn. split; [done|].
      unfold position in Hp. rewrite <- (map_map int_of_float64 Z.to_nat) in Hp.
      apply list_elem_of_fmap in Hp as (z & -> & Hz).
      rewrite Forall_forall in Hr. pose proof (Hr z Hz) as Hz0. simpl in Hz0.
      lia.
Qed.

Lemma Encode_positions_witness :
  valid_coder Ex.coder /\ valid_input Ex.coder Ex.v1 /\
  exists enc,
    Encode Ex.coder Ex.v1 enc /\
    (enc !! 0%nat = Some 1%Q <->
     (includeBias Ex.coder = true /\ 0%nat = 0%nat) \/
     (exists j tl fb index,
        tilings Ex.coder !! j = Some tl /\
        featuresBeforeTiling Ex.coder j = Some fb /\
        Index tl Ex.v1 = Some index /\
        Z.of_nat 0 = fb + index + biasOf Ex.coder)).
Proof.
  split; [apply coder_valid|]. split; [apply v1_valid|].
  destruct (ToVector_outcome Ex.coder Ex.v1 [2%Q; 8%Q; 0%Q]
              coder_valid v1_valid) as [Hnew Hset].
  { by apply (EncodeIndices_run_of_order _ _ [0; 1]%nat). }
  assert (Encode Ex.coder Ex.v1
            (ones_at (replicate (Z.to_nat (VecLength Ex.coder)) 0%Q)
                     (map position [2%Q; 8%Q; 0%Q]))) as Henc.
  { eexists _, _. split; [exact Hnew|]. split; [|exact Hset].
    by apply (EncodeIndices_run_of_order _ _ [0; 1]%nat). }
  eexists. split; [exact Henc|].
  exact (Encode_positions Ex.coder Ex.v1 _ coder_valid v1_valid Henc 0%nat).
Defined.

(** ** Batches *)

Arguments AddScaledVec : simpl never.
Arguments AddVec : simpl never.
Arguments VecFloor : simpl never.
Arguments VecClip : simpl never.
Arguments VecOnes : simpl never.

Lemma RowView_spec (b : Dense) (i : nat) :
  wf_dense b -> (i < drows b)%nat ->
  exists row, RowView b i = Some row /\ length row = dcols b /\
              forall c, (c < dcols b)%nat ->
                        row !! c = ddata b !! (i * dcols b + c)%nat.
Proof.
  unfold wf_dense, RowView. intros Hwf Hi.
  destruct (decide (i < drows b)%nat); [|lia].
  eexists. split; [done|]. split.
  - rewrite length_take, length_drop. nia.
  - intros c Hc. by rewrite lookup_take_lt, lookup_drop.
Qed.

Lemma ColView_spec (b : Dense) (c : nat) :
  wf_dense b -> (c < dcols b)%nat ->
  exists col, ColView b c = Some col /\ length col = drows b /\
              forall r, (r < drows b)%nat ->
                        col !! r = ddata b !! (r * dcols b + c)%nat.
Proof.
  unfold wf_dense, ColView. intros Hwf Hc.
  destruct (decide (c < dcols b)%nat); [|lia].
  assert (is_Some (mapM (fun r => ddata b !! (r * dcols b + c)%nat)
                        (seq 0 (drows b)))) as [col Hcol].
  { apply mapM_is_Some, Forall_forall. intros r Hr.
    apply elem_of_seq in Hr. simpl. apply lookup_lt_is_Some_2. nia. }
  exists col. split; [done|]. apply mapM_Some_1 in Hcol.
  pose proof (Forall2_length _ _ _ Hcol) as Hlen.
  rewrite length_seq in Hlen. split; [done|]. intros r Hr.
  destruct (Forall2_lookup_l _ _ _ _ _ Hcol (lookup_seq_lt 0 _ r Hr))
    as (y & Hy & Hd).
  simpl in Hd. by rewrite Hy, Hd.
Qed.

Lemma IndexBatch_panics_unless_square_aux (t : Tiling) (b : Dense) :
  (0 < length (bins t))%nat -> wf_dense b -> drows b <> dcols b ->
  IndexBatch t b = None.
Proof.
  intros Hn Hwf Hne. unfold IndexBatch, NewVecDense.
  destruct (Z.leb_spec (Z.of_nat (drows b)) 0); [done|]. simpl.
  destruct (length (bins t)) as [|n] eqn:Hlen; [lia|].
  cbn [IndexBatch_loop].
  destruct (decide (n < drows b)%nat) as [Hi|Hi].
  - destruct (RowView_spec b n Hwf Hi) as (row & -> & Hrow & _). simpl.
    destruct (offsets t !! n) as [off|]; simpl; [|done].
    assert (AddScaledVec row off (VecOnes (drows b)) = None) as Hpanic.
    { unfold AddScaledVec, VecOnes. rewrite length_replicate.
      destruct (decide (length row = drows b)); [lia | done]. }
    by rewrite Hpanic.
  - unfold RowView. by destruct (decide (n < drows b)%nat).
Qed.

(** X11. [IndexBatch] needs a square batch: when the number of samples
    (columns) differs from the number of features (rows), the first
    vector operation of the loop meets a row of [dcols] entries and the
    vector of [drows] ones, and panics. *)
Theorem IndexBatch_panics_unless_square (t : Tiling) (b : Dense) :
  (0 < length (bins t))%nat -> wf_dense b -> drows b <> dcols b ->
  IndexBatch t b = None.
Proof. apply IndexBatch_panics_unless_square_aux. Qed.

Lemma IndexBatch_panics_unless_square_witness :
  (0 < length (bins Ex.tilingA))%nat /\ wf_dense Ex.wide /\
  drows Ex.wide <> dcols Ex.wide /\ IndexBatch Ex.tilingA Ex.wide = None.
Proof.
  split; [simpl; lia|]. split; [reflexivity|]. split; [simpl; lia|].
  apply (IndexBatch_panics_unless_square Ex.tilingA Ex.wide);
    [simpl; lia | reflexivity | simpl; lia].
Defined.

Lemma zip_with_inject (f : Q -> Q -> Q) (g : Z -> Z -> Z) :
  (forall a b, f (inject_Z a) (inject_Z b) = inject_Z (g a b)) ->
  forall l k,
    zip_with f (map inject_Z l) (map inject_Z k)
    = map inject_Z (zip_with g l k).
Proof.
  intros Hfg. induction l as [|a l IH]; intros [|b k]; simpl; try done.
  by rewrite Hfg, IH.
Qed.

Lemma Qplus_inject a b : (inject_Z a + inject_Z b)%Q = inject_Z (a + b).
Proof. unfold Qplus, inject_Z. simpl. f_equal. lia. Qed.

Lemma Qscaled_inject s a b :
  (inject_Z a + inject_Z s * inject_Z b)%Q = inject_Z (a + b * s).
Proof. unfold Qplus, Qmult, inject_Z. simpl. f_equal. lia. Qed.

Lemma AddScaledVec_ones (a : Vec) (alpha : float64) m :
  length a = m ->
  AddScaledVec a alpha (VecOnes m)
  = Some (map (fun x => (x + alpha * 1)%Q) a).
Proof.
  intros Hlen. unfold AddScaledVec, VecOnes. rewrite length_replicate.
  destruct (decide (length a = m)); [|done].
  by rewrite zip_with_replicate_r_eq.
Qed.

(** One entry of the batch pipeline (shift by the offset, shift by the
    lower bound, floor division, clip) is the clipped tile of [Index]. *)
Lemma batch_tile x off mn bl bn :
  0 < bn <= GoInt.int_max ->
  Clip (Floor ((x + off * 1 + - mn * 1) / bl)%Q) 0%Q
       (float64_of_int (GoInt.sub bn 1))
  = inject_Z (clippedTile x off mn bl bn).
Proof.
  intros Hbn. unfold GoInt.sub.
  rewrite wrap_id by (apply in_range_nonneg; lia).
  unfold Floor, float64_of_int. rewrite Clip_inject by lia.
  unfold clippedTile. do 3 f_equal. apply Qfloor_comp.
  apply Qdiv_comp; [ring | reflexivity].
Qed.

(** The loop of [IndexBatch] on a square batch runs the loop of [Index] on
    every column at once. *)
Lemma IndexBatch_loop_square (t : Tiling) (b : Dense) (m i : nat) :
  valid_tiling t -> wf_dense b -> drows b = m -> dcols b = m ->
  (length (bins t) <= m)%nat -> (i <= length (bins t))%nat ->
  forall accs : list Z,
    length accs = m ->
    (forall c a, accs !! c = Some a ->
                 0 <= a <= Zprod (drop i (bins t)) - 1) ->
    exists rs,
      IndexBatch_loop t b (VecOnes m) i (map float64_of_int accs)
      = Some (map float64_of_int rs) /\
      length rs = m /\
      forall c a col,
        accs !! c = Some a -> ColView b c = Some col ->
        exists r, rs !! c = Some r /\ Index_loop t col i a = Some r.
Proof.
  intros Hv Hwf Hrows Hcols Hn.
  induction i as [|i IH]; intros Hi accs Hlen Hrange.
  - exists accs. split; [done|]. split; [done|].
    intros c a col Ha _. by exists a.
  - destruct (RowView_spec b i Hwf) as (row & Hrv & Hrowlen & Hrow); [lia|].
    rewrite Hcols in Hrowlen.
    destruct (valid_lookups t row i Hv) as
      (_ & off & mn & bl & bn & _ & Hoff & Hmn & Hbl & Hbn); [lia | lia |].
    pose proof (vt_bins t Hv) as Hpos. pose proof (vt_tiles t Hv) as Hmax.
    destruct (Zprod_lookup_le _ _ _ Hpos Hbn) as [Hbn0 Hbn1].
    pose (tiles := map (fun x => clippedTile x off mn bl bn) row).
    pose (accs' := zip_with (fun a tl => a + tl * stride t i) accs tiles).
    assert (length tiles = m) as Htlen by (unfold tiles; by rewrite length_map).
    assert (length accs' = m) as Hlen'
      by (unfold accs'; rewrite length_zip_with; lia).
    (* the facts about each column *)
    assert (forall c a col,
              accs !! c = Some a -> ColView b c = Some col ->
              exists x, row !! c = Some x /\
                accs' !! c
                = Some (a + clippedTile x off mn bl bn * stride t i) /\
                Index_loop t col (S i) a
                = Index_loop t col i
                    (a + clippedTile x off mn bl bn * stride t i) /\
                0 <= a + clippedTile x off mn bl bn * stride t i
                  <= Zprod (drop i (bins t)) - 1) as Hcol.
    { intros c a col Ha Hcv.
      assert (c < m)%nat as Hc by (apply lookup_lt_Some in Ha; lia).
      destruct (ColView_spec b c Hwf) as (col' & Hcv' & Hcl & Hcr); [lia|].
      assert (col' = col) as -> by congruence.
      destruct (Index_loop_step t col i a Hv)
        as (x & off' & mn' & bl' & bn' & Hx & Hoff' & Hmn' & Hbl' & Hbn'
            & _ & _ & Hstep & Hr); [lia | lia | by apply (Hrange c) |].
      assert (off' = off) as -> by congruence.
      assert (mn' = mn) as -> by congruence.
      assert (bl' = bl) as -> by congruence.
      assert (bn' = bn) as -> by congruence.
      exists x.
      assert (row !! c = Some x) as Hrx.
      { rewrite Hrow by lia. rewrite <- Hcr by lia. done. }
      split; [done|]. split; [|by split].
      unfold accs', tiles. rewrite lookup_zip_with, Ha. simpl.
      by rewrite list_lookup_fmap, Hrx. }
    destruct (IH ltac:(lia) accs' Hlen') as (rs & Hloop & Hrs & Hres).
    { intros c a' Ha'.
      assert (c < m)%nat as Hc by (apply lookup_lt_Some in Ha'; lia).
      destruct (lookup_lt_is_Some_2 accs c) as [a Ha]; [lia|].
      destruct (ColView_spec b c Hwf) as (col & Hcv & _); [lia|].
      destruct (Hcol c a col Ha Hcv) as (x & _ & Ha'' & _ & Hr).
      rewrite Ha'' in Ha'. by injection Ha' as <-. }
    exists rs. split; [|split; [done|]].
    + cbn [IndexBatch_loop]. rewrite Hrv. simpl. rewrite Hoff. simpl.
      rewrite (AddScaledVec_ones row off m Hrowlen). simpl.
      unfold AtVec. rewrite Hmn. simpl.
      rewrite AddScaledVec_ones by (by rewrite length_map). simpl.
      rewrite Hbl. simpl. rewrite Hbn. simpl.
      assert (VecClip
                (VecFloor
                   (map (fun x => (x + - mn * 1)%Q)
                        (map (fun x => (x + off * 1)%Q) row)) bl)
                0%Q (float64_of_int (GoInt.sub bn 1))
              = map inject_Z tiles) as ->.
      { unfold VecClip, VecFloor, tiles. rewrite !map_map.
        apply map_ext. intros x. apply batch_tile. lia. }
      destruct (decide (i = (length (bins t) - 1)%nat)) as [Hlast|Hlast].
      * assert (stride t i = 1) as Hs
          by (unfold stride; by rewrite decide_True).
        unfold AddVec. rewrite !length_map.
        destruct (decide (length accs = length tiles)); [|lia]. simpl.
        unfold float64_of_int.
        rewrite (zip_with_inject Qplus Z.add Qplus_inject).
        replace (zip_with Z.add accs tiles) with accs'; [exact Hloop|].
        unfold accs'. apply zip_with_ext; [|done..].
        intros a tl. rewrite Hs. lia.
      * destruct (lookup_lt_is_Some_2 (bins t) (S i)) as [b1 Hb1]; [lia|].
        assert (stride t i = b1) as Hs
          by (unfold stride; rewrite decide_False by done; by rewrite Hb1).
        rewrite Hb1. simpl.
        unfold AddScaledVec. rewrite !length_map.
        destruct (decide (length accs = length tiles)); [|lia]. simpl.
        unfold float64_of_int.
        rewrite (zip_with_inject (fun x y => (x + inject_Z b1 * y)%Q)
                   (fun a tl => a + tl * b1) (Qscaled_inject b1)).
        replace (zip_with (fun a tl => a + tl * b1) accs tiles) with accs';
          [exact Hloop|].
        unfold accs'. apply zip_with_ext; [|done..].
        intros a tl. by rewrite Hs.
    + intros c a col Ha Hcv.
      destruct (Hcol c a col Ha Hcv) as (x & _ & Ha' & -> & _).
      by apply (Hres c _ col).
Qed.

Lemma IndexBatch_square_aux (t : Tiling) (b : Dense) :
  valid_tiling t -> wf_dense b -> drows b = dcols b ->
  (length (bins t) <= drows b)%nat ->
  exists r,
    IndexBatch t b = Some r /\ length r = dcols b /\
    forall c, (c < dcols b)%nat ->
      exists col index,
        ColView b c = Some col /\ Index t col = Some index /\
        r !! c = Some (float64_of_int index).
Proof.
  intros Hv Hwf Hsq Hn. pose proof (vt_dims t Hv) as Hd.
  destruct (IndexBatch_loop_square t b (drows b) (length (bins t))
              Hv Hwf eq_refl (eq_sym Hsq) Hn (Nat.le_refl _)
              (replicate (drows b) 0)) as (rs & Hloop & Hrs & Hres).
  { apply length_replicate. }
  { intros c a Ha. apply lookup_replicate in Ha as [-> _].
    rewrite drop_ge by lia. simpl. lia. }
  exists (map float64_of_int rs). split; [|split].
  - unfold IndexBatch, NewVecDense.
    destruct (Z.leb_spec (Z.of_nat (drows b)) 0); [lia|]. simpl.
    rewrite Nat2Z.id. rewrite <- Hloop. f_equal.
    clear. induction (drows b) as [|k IH]; [done|]. simpl. by f_equal.
  - rewrite length_map. lia.
  - intros c Hc.
    destruct (ColView_spec b c Hwf Hc) as (col & Hcv & _).
    destruct (Hres c 0 col) as (r & Hr & Hindex);
      [apply lookup_replicate_2; lia | done |].
    exists col, r. split; [done|]. split; [exact Hindex|].
    by rewrite list_lookup_fmap, Hr.
Qed.

(** X12. On a square batch with a row per dimension, [IndexBatch] of a valid
    tiling with a number of tiles that [float64] holds exactly (at most
    2^53) returns, for every column, the index that [Index] gives to that
    column. *)
Theorem IndexBatch_square (t : Tiling) (b : Dense) :
  valid_tiling t -> exact_tiles t -> wf_dense b -> drows b = dcols b ->
  (length (bins t) <= drows b)%nat ->
  exists r,
    IndexBatch t b = Some r /\ length r = dcols b /\
    forall c, (c < dcols b)%nat ->
      exists col index,
        ColView b c = Some col /\ Index t col = Some index /\
        r !! c = Some (float64_of_int index).
Proof. intros Hv _. by apply IndexBatch_square_aux. Qed.

Lemma IndexBatch_square_witness :
  valid_tiling Ex.tilingA /\ exact_tiles Ex.tilingA /\
  wf_dense Ex.square /\
  exists r, IndexBatch Ex.tilingA Ex.square = Some r /\
            length r = dcols Ex.square.
Proof.
  split; [apply tilingA_valid|]. split; [apply tilingA_tiles|].
  split; [reflexivity|].
  destruct (IndexBatch_square Ex.tilingA Ex.square tilingA_valid
              tilingA_tiles)
    as (r & Hr & Hlen & _); [reflexivity | reflexivity | simpl; lia |].
  by exists r.
Defined.

(** ** Encoding a batch with one tiling *)

Lemma batch_input_column (t : TileCoder) (b : Dense) c col :
  batch_input t b -> ColView b c = Some col -> (c < dcols b)%nat ->
  valid_input t col.
Proof.
  intros (Hwf & Hsq & Hdims) Hcol Hc.
  destruct (ColView_spec b c Hwf Hc) as (col' & Hcol' & Hlen & _).
  assert (col' = col) as -> by congruence.
  unfold valid_input. eapply Forall_impl; [exact Hdims|].
  intros tl Htl. simpl in *. lia.
Qed.

Lemma offset_inject ix fb (t : TileCoder) :
  (inject_Z ix + (float64_of_int fb + biasFloat t) * 1)%Q
  = inject_Z (fb + ix + biasOf t).
Proof.
  unfold biasFloat, biasOf, float64_of_int, Qplus, Qmult, inject_Z.
  destruct (includeBias t); simpl; f_equal; lia.
Qed.

Lemma encodeBatchWithTiling_columns_aux (t : TileCoder) (b : Dense) j tl :
  valid_coder t -> batch_input t b -> tilings t !! j = Some tl ->
  exists r,
    encodeBatchWithTiling t b j = Some r /\ length r = dcols b /\
    forall c, (c < dcols b)%nat ->
      exists col x,
        ColView b c = Some col /\ encodeWithTiling t col j = Some x /\
        r !! c = Some (float64_of_int x).
Proof.
  intros Hc Hb Htl. pose proof Hb as (Hwf & Hsq & Hdims).
  pose proof (Forall_lookup_1 _ _ _ _ (vc_tilings t Hc) Htl) as Hv.
  pose proof (Forall_lookup_1 _ _ _ _ Hdims Htl) as Hn. simpl in Hv, Hn.
  destruct (IndexBatch_square_aux tl b Hv Hwf Hsq Hn)
    as (idx & Hidx & Hlen & Hcols).
  assert (j < NumTilings t)%nat as Hj
    by (apply lookup_lt_Some in Htl; unfold NumTilings; lia).
  exists (map (fun x => (x + (float64_of_int (features (take j (tilings t)))
                             + biasFloat t) * 1)%Q) idx).
  split; [|split].
  - unfold encodeBatchWithTiling.
    rewrite featuresBeforeTiling_spec by (done || lia). simpl.
    rewrite Htl. simpl. rewrite Hidx. simpl.
    apply AddScaledVec_ones. lia.
  - by rewrite length_map.
  - intros c Hcc. destruct (Hcols c Hcc) as (col & index & Hcol & Hindex & Hr).
    pose proof (batch_input_column t b c col Hb Hcol Hcc) as Hin.
    destruct (encodeWithTiling_spec t col j tl Hc Hin Htl)
      as (index' & Hindex' & _ & E).
    assert (index' = index) as -> by congruence.
    exists col, (features (take j (tilings t)) + index + biasOf t).
    split; [done|]. split; [done|].
    rewrite list_lookup_fmap, Hr. simpl. f_equal. apply offset_inject.
Qed.

(** X13. On a batch that the coder can encode, [encodeBatchWithTiling] of
    a valid coder with a feature space that [float64] indexes exactly (at
    most 2^53 features) returns for every column the index that
    [encodeWithTiling] gives to that column. *)
Theorem encodeBatchWithTiling_columns (t : TileCoder) (b : Dense) j tl :
  valid_coder t -> exact_features t -> batch_input t b ->
  tilings t !! j = Some tl ->
  exists r,
    encodeBatchWithTiling t b j = Some r /\ length r = dcols b /\
    forall c, (c < dcols b)%nat ->
      exists col x,
        ColView b c = Some col /\ encodeWithTiling t col j = Some x /\
        r !! c = Some (float64_of_int x).
Proof. intros Hc _. by apply encodeBatchWithTiling_columns_aux. Qed.

Lemma batch_square_valid : batch_input Ex.coder Ex.square.
Proof.
  split; [reflexivity|]. split; [reflexivity|].
  repeat (apply Forall_cons; split; [simpl; lia|]). constructor.
Defined.

Lemma encodeBatchWithTiling_columns_witness :
  valid_coder Ex.coder /\ exact_features Ex.coder /\
  batch_input Ex.coder Ex.square /\
  exists r, encodeBatchWithTiling Ex.coder Ex.square 1 = Some r /\
            length r = dcols Ex.square.
Proof.
  split; [apply coder_valid|]. split; [apply coder_exact|].
  split; [apply batch_square_valid|].
  destruct (encodeBatchWithTiling_columns Ex.coder Ex.square 1 Ex.tilingB
              coder_valid coder_exact batch_square_valid eq_refl)
    as (r & Hr & Hlen & _).
  by exists r.
Defined.

(** ** Runs of [EncodeIndicesBatch] *)

Lemma BatchInv_init t b : BatchInv t b (BatchInit t).
Proof.
  exists []. unfold BatchInit, biasSlot, biasOf. simpl.
  repeat split; try done; try constructor; try lia.
  rewrite Nat.sub_0_r, replicate_add. by destruct (includeBias t).
Qed.

Lemma BatchInv_step t b s s' :
  BatchStep t b s s' -> BatchInv t b s -> BatchInv t b s'.
Proof.
  intros Hstep (xs & Hxs & Hnd & Hlt & Hc & Hck & Hchan & Hcols & Hidx).
  pose proof (Forall2_length _ _ _ Hxs) as Hlen.
  destruct Hstep as [s tiling x Htl Hfresh Hx|s index rest Hcoll Hch
                    |s zeros Hb Hbias Hz|s Hb Hbias]; simpl.
  - exists (xs ++ [x]). simpl. rewrite reverse_cons.
    repeat split; try done.
    + apply Forall2_app; [done|]. by repeat constructor.
    + by constructor.
    + by constructor.
    + rewrite length_app. lia.
    + rewrite Hchan. by rewrite drop_app_le.
    + rewrite Hidx. by rewrite take_app_le.
  - rewrite Hchan in Hch.
    assert (xs !! bcollected s = Some index) as Hlook.
    { rewrite <- (Nat.add_0_r (bcollected s)), <- lookup_drop.
      by rewrite Hch. }
    rewrite (drop_S _ _ _ Hlook) in Hch. injection Hch as <-.
    exists xs. simpl. repeat split; try done.
    + apply lookup_lt_Some in Hlook. lia.
    + rewrite Hidx, (take_S_r _ _ _ Hlook), map_app. simpl.
      rewrite insert_app_r_alt;
        [|rewrite length_map, length_take; lia].
      rewrite length_map, length_take.
      replace (bcollected s - bcollected s `min` length xs)%nat with 0%nat
        by lia.
      replace (NumTilings t - bcollected s)%nat
        with (S (NumTilings t - S (bcollected s))) by lia.
      simpl. by rewrite <- app_assoc.
  - unfold NewVecDense in Hz.
    destruct (Z.leb_spec (Z.of_nat (dcols b)) 0) as [|Hpos]; [done|].
    injection Hz as <-. rewrite Nat2Z.id.
    exists xs. simpl. repeat split; try done; [lia|].
    rewrite Hidx. unfold biasSlot. rewrite Hbias, Hb. simpl.
    rewrite app_assoc, length_app. simpl.
    replace (length (map Some (take (bcollected s) xs) ++
                     replicate (NumTilings t - bcollected s) None) + 1 - 1)%nat
      with (length (map Some (take (bcollected s) xs) ++
                    replicate (NumTilings t - bcollected s) None) + 0)%nat
      by lia.
    rewrite insert_app_r. simpl. by rewrite <- app_assoc.
  - exists xs. simpl. repeat split; try done; [congruence|].
    rewrite Hidx. unfold biasSlot. by rewrite Hbias.
Qed.

Lemma BatchInv_rtc t b s :
  rtc (BatchStep t b) (BatchInit t) s -> BatchInv t b s.
Proof.
  intros Hrun.
  refine (rtc_ind_r (BatchInv t b) (BatchInit t) (BatchInv_init t b) _ s Hrun).
  intros s1 s2 _ Hstep IH. by apply (BatchInv_step t b s1).
Qed.

(** At the end of a run the slice holds the workers' vectors in the order
    of their arrival, then the zero vector of the bias unit. *)
Lemma batch_rows_of_run t b s :
  rtc (BatchStep t b) (BatchInit t) s -> BatchFinal t s ->
  exists order rows,
    order ≡ₚ seq 0 (NumTilings t) /\ batchRows t b order = Some rows /\
    bindices s = map Some rows /\
    (includeBias t = true -> (0 < dcols b)%nat).
Proof.
  intros Hrun (Hsent & Hcoll & Hbias).
  destruct (BatchInv_rtc t b s Hrun)
    as (xs & Hxs & Hnd & Hlt & Hc & Hck & Hchan & Hcols & Hidx).
  pose proof (Forall2_length _ _ _ Hxs) as Hlen.
  rewrite length_reverse in Hlen.
  exists (reverse (bsent s)). eexists. split; [|split; [|split]].
  - apply NoDup_below_Permutation.
    + by rewrite reverse_Permutation.
    + by apply Forall_reverse.
    + by rewrite length_reverse.
  - unfold batchRows. apply mapM_Some_2 in Hxs. by rewrite Hxs.
  - rewrite Hidx, Hcoll, Nat.sub_diag, take_ge by lia.
    unfold biasSlot. rewrite Hbias, map_app. simpl.
    by destruct (includeBias t).
  - by apply Hcols.
Qed.

Lemma batch_run_sends t b order xs :
  Forall2 (fun j x => encodeBatchWithTiling t b j = Some x) order xs ->
  forall snt ch c bd idx,
    NoDup order ->
    Forall (fun j => (j < NumTilings t)%nat /\ j ∉ snt) order ->
    rtc (BatchStep t b) (mkBatchState snt ch c bd idx)
        (mkBatchState (reverse order ++ snt) (ch ++ xs) c bd idx).
Proof.
  induction 1 as [|j x order xs Hx _ IH]; intros snt ch c bd idx Hnd Hall.
  - rewrite app_nil_r. apply rtc_refl.
  - apply NoDup_cons in Hnd as [Hj Hnd].
    apply Forall_cons in Hall as [[Hlt Hfresh] Hall].
    eapply rtc_l.
    { by apply (BStep_send t b (mkBatchState snt ch c bd idx) j x). }
    simpl. rewrite reverse_cons, <- app_assoc. simpl.
    replace (ch ++ x :: xs) with ((ch ++ [x]) ++ xs)
      by (by rewrite <- app_assoc).
    apply IH; [done|].
    rewrite Forall_forall in Hall. apply Forall_forall. intros j' Hj'.
    destruct (Hall j' Hj') as [? ?]. split; [done|].
    rewrite not_elem_of_cons. split; [|done]. by intros ->.
Qed.

Lemma batch_run_recvs t b xs :
  forall snt pre n tail c bd,
    length pre = c -> (c + length xs <= NumTilings t)%nat ->
    rtc (BatchStep t b)
        (mkBatchState snt xs c bd
           (pre ++ replicate (length xs + n) None ++ tail))
        (mkBatchState snt [] (c + length xs) bd
           (pre ++ map Some xs ++ replicate n None ++ tail)).
Proof.
  induction xs as [|x xs IH]; intros snt pre n tail c bd Hpre Hk.
  - simpl. rewrite Nat.add_0_r. apply rtc_refl.
  - simpl in *. eapply rtc_l.
    { apply (BStep_recv t b (mkBatchState snt (x :: xs) c bd _) x xs);
        simpl; [lia | done]. }
    simpl. rewrite insert_app_r_alt by lia.
    replace (c - length pre)%nat with 0%nat by lia. simpl.
    replace (pre ++ Some x :: replicate (length xs + n) None ++ tail)
      with ((pre ++ [Some x]) ++ replicate (length xs + n) None ++ tail)
      by (by rewrite <- app_assoc).
    replace (pre ++ Some x :: map Some xs ++ replicate n None ++ tail)
      with ((pre ++ [Some x]) ++ map Some xs ++ replicate n None ++ tail)
      by (by rewrite <- app_assoc).
    replace (c + S (length xs))%nat with (S c + length xs)%nat by lia.
    apply IH; [rewrite length_app; simpl; lia | lia].
Qed.

(** Every order of the tilings whose workers all return is the arrival
    order of some run. *)
Lemma batch_run_of_order t b order rows :
  order ≡ₚ seq 0 (NumTilings t) ->
  batchRows t b order = Some rows ->
  (includeBias t = true -> (0 < dcols b)%nat) ->
  exists s, rtc (BatchStep t b) (BatchInit t) s /\ BatchFinal t s /\
            bindices s = map Some rows.
Proof.
  intros Hperm Hrows Hcols. unfold batchRows in Hrows.
  destruct (mapM (encodeBatchWithTiling t b) order) as [xs|] eqn:Hxs;
    [|done]. simpl in Hrows. injection Hrows as <-.
  apply mapM_Some_1 in Hxs.
  pose proof (Forall2_length _ _ _ Hxs) as Hlen.
  assert (length order = NumTilings t) as Hk
    by (by rewrite Hperm, length_seq).
  assert (NoDup order) as Hnd by (rewrite Hperm; apply NoDup_seq).
  assert (Forall (fun j => (j < NumTilings t)%nat /\ j ∉ []) order) as Hall.
  { apply Forall_forall. intros j Hj. rewrite Hperm in Hj.
    apply elem_of_seq in Hj. split; [lia|]. apply not_elem_of_nil. }
  pose (slot0 := replicate (Z.to_nat (biasOf t)) (@None (list float64))).
  assert (rtc (BatchStep t b) (BatchInit t)
            (mkBatchState (reverse order) [] (NumTilings t) false
               (map Some xs ++ slot0))) as Hrun.
  { etrans.
    { pose proof (batch_run_sends t b order xs Hxs [] [] 0%nat false
                    (replicate (NumTilings t + Z.to_nat (biasOf t)) None)
                    Hnd Hall) as Hs.
      rewrite app_nil_r in Hs. simpl in Hs. exact Hs. }
    pose proof (batch_run_recvs t b xs (reverse order) [] 0%nat
                  slot0 0%nat false eq_refl) as Hr.
    simpl in Hr. rewrite Nat.add_0_r, <- Hlen, Hk in Hr.
    rewrite replicate_add. apply Hr. lia. }
  destruct (includeBias t) eqn:Hbias.
  - exists (mkBatchState (reverse order) [] (NumTilings t) true
              (map Some (xs ++ [replicate (dcols b) 0%Q]))).
    split; [|split; [|done]].
    + eapply rtc_r; [exact Hrun|].
      pose proof (BStep_bias t b
                    (mkBatchState (reverse order) [] (NumTilings t) false
                       (map Some xs ++ slot0))
                    (replicate (dcols b) 0%Q) eq_refl Hbias) as Hb.
      simpl in Hb. unfold slot0, biasOf in Hb. rewrite Hbias in Hb.
      simpl in Hb. rewrite length_app in Hb. simpl in Hb.
      replace (length (map Some xs) + 1 - 1)%nat
        with (length (map Some xs) + 0)%nat in Hb by lia.
      rewrite insert_app_r in Hb. simpl in Hb. rewrite map_app. simpl.
      unfold slot0, biasOf. rewrite Hbias. simpl.
      apply Hb. unfold NewVecDense.
      specialize (Hcols eq_refl).
      destruct (Z.leb_spec (Z.of_nat (dcols b)) 0); [lia|].
      by rewrite Nat2Z.id.
    + unfold BatchFinal. simpl. by rewrite length_reverse.
  - exists (mkBatchState (reverse order) [] (NumTilings t) true
              (map Some (xs ++ []))).
    split; [|split; [|done]].
    + eapply rtc_r; [exact Hrun|].
      pose proof (BStep_nobias t b
                    (mkBatchState (reverse order) [] (NumTilings t) false
                       (map Some xs ++ slot0)) eq_refl Hbias) as Hb.
      simpl in Hb. unfold slot0, biasOf in Hb. rewrite Hbias in Hb.
      simpl in Hb. unfold slot0, biasOf. rewrite Hbias. simpl.
      by rewrite !app_nil_r in *.
    + unfold BatchFinal. simpl. by rewrite length_reverse.
Qed.

(** ** Assembling the rows of a batch *)

Lemma length_concat_uniform {A} (rows : list (list A)) w :
  Forall (fun r => length r = w) rows ->
  length (concat rows) = (length rows * w)%nat.
Proof.
  induction 1 as [|r rows Hr _ IH]; simpl; [done|].
  rewrite length_app, IH. lia.
Qed.

Lemma lookup_concat_uniform {A} (rows : list (list A)) w r row c :
  Forall (fun r => length r = w) rows ->
  rows !! r = Some row -> (c < w)%nat ->
  concat rows !! (r * w + c)%nat = row !! c.
Proof.
  intros Hall. revert r.
  induction Hall as [|r0 rows Hr0 _ IH]; intros [|r] Hr Hc; simpl in *;
    try done.
  - injection Hr as ->. by rewrite lookup_app_l by lia.
  - rewrite lookup_app_r by lia.
    replace (w + r * w + c - length r0)%nat with (r * w + c)%nat by lia.
    by apply IH.
Qed.

Lemma assembleRows_fold (rows : list (list float64)) w d :
  Forall (fun r => length r = w) rows ->
  forall i, (i + d = length rows)%nat ->
    foldl (fun acc row =>
             out ← acc; v ← map Some rows !! row; v ← v; SetRow out row v)
          (Some (mkDense (length rows) w
                   (concat (take i rows) ++ replicate (d * w) 0%Q)))
          (seq i d)
    = Some (mkDense (length rows) w (concat rows)).
Proof.
  intros Hall. induction d as [|d IH]; intros i Hi.
  - simpl. rewrite take_ge by lia. by rewrite app_nil_r.
  - destruct (lookup_lt_is_Some_2 rows i) as [v Hv]; [lia|].
    pose proof (Forall_lookup_1 _ _ _ _ Hall Hv) as Hlen. simpl in Hlen.
    pose proof (length_concat_uniform (take i rows) w
                  (Forall_take _ _ _ Hall)) as Hpre.
    rewrite length_take in Hpre.
    replace (i `min` length rows)%nat with i in Hpre by lia.
    cbn [seq foldl]. simpl mbind at 1.
    rewrite list_lookup_fmap, Hv. simpl. unfold SetRow. simpl.
    destruct (decide (i < length rows)%nat); [|lia].
    destruct (decide (length v = w)); [|lia].
    rewrite take_app_length' by lia.
    rewrite drop_app_ge by lia. rewrite Hpre.
    replace (w + i * w - i * w)%nat with w by lia.
    rewrite drop_replicate.
    replace (w + d * w - w)%nat with (d * w)%nat by lia.
    rewrite <- (IH (S i)) by lia.
    by rewrite (take_S_r _ _ _ Hv), concat_app, <- app_assoc; simpl;
      rewrite app_nil_r.
Qed.

(** A non-empty slice of vectors of one positive length is assembled
    into the matrix whose rows they are. *)
Lemma assembleRows_spec (rows : list (list float64)) w :
  rows <> [] -> (0 < w)%nat -> Forall (fun r => length r = w) rows ->
  assembleRows (map Some rows)
  = Some (mkDense (length rows) w (concat rows)).
Proof.
  intros Hne Hw Hall. unfold assembleRows.
  destruct rows as [|r0 rest] eqn:Hrows; [done|]. rewrite <- Hrows in *.
  assert (map Some rows !! 0%nat = Some (Some r0)) as -> by (by rewrite Hrows).
  simpl. assert (length r0 = w) as ->.
  { rewrite Hrows in Hall. by apply Forall_cons in Hall as [? _]. }
  rewrite length_map. unfold NewDense.
  assert (0 < length rows)%nat by (rewrite Hrows; simpl; lia).
  destruct (Z.leb_spec (Z.of_nat (length rows)) 0); [lia|].
  destruct (Z.leb_spec (Z.of_nat w) 0); [lia|]. simpl.
  rewrite !Nat2Z.id.
  by apply (assembleRows_fold rows w (length rows) Hall 0%nat).
Qed.

Lemma batch_input_cols (t : TileCoder) (b : Dense) :
  valid_coder t -> batch_input t b -> (0 < dcols b)%nat.
Proof.
  intros Hc (_ & Hsq & Hdims). pose proof (vc_nonempty t Hc) as Hk.
  pose proof (vc_tilings t Hc) as Hv. unfold NumTilings in Hk.
  destruct (tilings t) as [|tl tls]; [simpl in Hk; lia|].
  apply Forall_cons in Hv as [Hv _]. apply Forall_cons in Hdims as [Hd _].
  pose proof (vt_dims tl Hv). lia.
Qed.

(** The rows of a batch run on a batch that the coder can encode: one
    vector per tiling, of the width of the batch, whose entry [c] is the
    index that the tiling gives to column [c]. *)
Lemma batchRows_spec (t : TileCoder) (b : Dense) order :
  valid_coder t -> batch_input t b ->
  order ≡ₚ seq 0 (NumTilings t) ->
  exists rows,
    batchRows t b order = Some rows /\
    length rows = (NumTilings t + Z.to_nat (biasOf t))%nat /\
    Forall (fun r => length r = dcols b) rows /\
    forall c col, (c < dcols b)%nat -> ColView b c = Some col ->
      exists out, EncodeIndices_order t col order = Some out /\
                  forall r row, rows !! r = Some row -> row !! c = out !! r.
Proof.
  intros Hc Hb Hperm.
  assert (forall j, j ∈ order -> is_Some (tilings t !! j)) as Hord.
  { intros j Hj. rewrite Hperm in Hj. apply elem_of_seq in Hj.
    apply lookup_lt_is_Some_2. unfold NumTilings in Hj. lia. }
  assert (is_Some (mapM (encodeBatchWithTiling t b) order)) as [xs Hxs].
  { apply mapM_is_Some, Forall_forall. intros j Hj.
    destruct (Hord j Hj) as [tl Htl].
    destruct (encodeBatchWithTiling_columns_aux t b j tl Hc Hb Htl)
      as (r & Hr & _). simpl. rewrite Hr. by eexists. }
  pose proof Hxs as Hxs'. apply mapM_Some_1 in Hxs'.
  pose proof (Forall2_length _ _ _ Hxs') as Hlen.
  assert (length order = NumTilings t) as Hk
    by (by rewrite Hperm, length_seq).
  eexists. split; [unfold batchRows; by rewrite Hxs|].
  split; [|split].
  - rewrite length_app. unfold biasOf. destruct (includeBias t); simpl; lia.
  - apply Forall_app. split.
    + apply Forall_lookup_2. intros i x Hi.
      destruct (Forall2_lookup_r _ _ _ _ _ Hxs' Hi) as (j & Hj & Hx).
      destruct (Hord j) as [tl Htl]; [by eapply list_elem_of_lookup_2|].
      destruct (encodeBatchWithTiling_columns_aux t b j tl Hc Hb Htl)
        as (r & Hr & Hrl & _). congruence.
    + destruct (includeBias t); [|constructor].
      apply Forall_singleton. apply length_replicate.
  - intros c col Hcc Hcol.
    pose proof (batch_input_column t b c col Hb Hcol Hcc) as Hin.
    destruct (EncodeIndices_order_total t col order Hc Hin Hperm)
      as [out Hout].
    exists out. split; [done|].
    unfold EncodeIndices_order in Hout.
    destruct (mapM (encodeWithTiling t col) order) as [ys|] eqn:Hys; [|done].
    simpl in Hout. injection Hout as <-. apply mapM_Some_1 in Hys.
    pose proof (Forall2_length _ _ _ Hys) as Hlen'.
    intros r row Hrow.
    destruct (decide (r < length xs)%nat) as [Hr|Hr].
    + rewrite lookup_app_l in Hrow by done.
      rewrite lookup_app_l by (rewrite length_map; lia).
      destruct (Forall2_lookup_r _ _ _ _ _ Hxs' Hrow) as (j & Hj & Hx).
      destruct (Forall2_lookup_l _ _ _ _ _ Hys Hj) as (y & Hy & Hjy).
      destruct (Hord j) as [tl Htl]; [by eapply list_elem_of_lookup_2|].
      destruct (encodeBatchWithTiling_columns_aux t b j tl Hc Hb Htl)
        as (r' & Hr' & _ & Hcols).
      assert (r' = row) as -> by congruence.
      destruct (Hcols c Hcc) as (col' & x & Hcol' & Hx' & Hrc).
      assert (col' = col) as -> by congruence.
      assert (x = y) as -> by congruence.
      by rewrite Hrc, list_lookup_fmap, Hy.
    + rewrite lookup_app_r in Hrow by lia.
      rewrite lookup_app_r by (rewrite length_map; lia).
      rewrite length_map. replace (length ys) with (length xs) by lia.
      destruct (includeBias t); [|by rewrite lookup_nil in Hrow].
      destruct (r - length xs)%nat; simpl in *; [|done].
      injection Hrow as <-. by apply lookup_replicate_2.
Qed.

Lemma EncodeIndicesBatch_columns_aux (t : TileCoder) (b : Dense) :
  valid_coder t -> batch_input t b ->
  (exists out, EncodeIndicesBatch t b out) /\
  (forall out, EncodeIndicesBatch t b out ->
     drows out = (NumTilings t + Z.to_nat (biasOf t))%nat /\
     dcols out = dcols b /\ wf_dense out /\
     forall c, (c < dcols b)%nat ->
       exists col idx,
         ColView b c = Some col /\ ColView out c = Some idx /\
         EncodeIndices t col idx).
Proof.
  intros Hc Hb. pose proof (batch_input_cols t b Hc Hb) as Hw.
  pose proof (vc_nonempty t Hc) as Hk.
  assert (forall order rows,
            order ≡ₚ seq 0 (NumTilings t) ->
            batchRows t b order = Some rows ->
            assembleRows (map Some rows)
            = Some (mkDense (length rows) (dcols b) (concat rows)) /\
            length rows = (NumTilings t + Z.to_nat (biasOf t))%nat /\
            Forall (fun r => length r = dcols b) rows) as Hasm.
  { intros order rows Hperm Hrows.
    destruct (batchRows_spec t b order Hc Hb Hperm)
      as (rows' & Hrows' & Hlen & Hall & _).
    assert (rows' = rows) as -> by congruence.
    split; [|by split]. apply assembleRows_spec; [|done..].
    destruct rows; [simpl in Hlen; lia | done]. }
  split.
  - destruct (batchRows_spec t b (seq 0 (NumTilings t)) Hc Hb)
      as (rows & Hrows & _); [done|].
    destruct (batch_run_of_order t b _ rows (reflexivity _) Hrows)
      as (s & Hrun & Hfinal & Hidx); [done|].
    destruct (Hasm _ rows (reflexivity _) Hrows) as (Ha & _).
    eexists. exists s. split; [done|]. split; [done|]. by rewrite Hidx.
  - intros out (s & Hrun & Hfinal & Hout).
    destruct (batch_rows_of_run t b s Hrun Hfinal)
      as (order & rows & Hperm & Hrows & Hidx & _).
    destruct (Hasm order rows Hperm Hrows) as (Ha & Hlen & Hall).
    rewrite Hidx, Ha in Hout. injection Hout as <-. simpl.
    split; [done|]. split; [done|].
    assert (wf_dense (mkDense (length rows) (dcols b) (concat rows))) as Hwf.
    { unfold wf_dense. simpl. by apply length_concat_uniform. }
    split; [done|]. intros c Hcc.
    destruct Hb as (Hwfb & Hsq & Hdims).
    destruct (ColView_spec b c Hwfb Hcc) as (col & Hcol & _).
    destruct (ColView_spec _ c Hwf Hcc) as (idx & Hidx' & Hil & Hir).
    simpl in Hil, Hir.
    destruct (batchRows_spec t b order Hc (conj Hwfb (conj Hsq Hdims)) Hperm)
      as (rows' & Hrows' & _ & _ & Hcols).
    assert (rows' = rows) as -> by congruence.
    destruct (Hcols c col Hcc Hcol) as (out & Hout & Hrc).
    exists col, idx. split; [done|]. split; [done|].
    apply (EncodeIndices_run_of_order t col order); [done|].
    rewrite Hout. f_equal. apply list_eq. intros r.
    destruct (decide (r < length rows)%nat) as [Hr|Hr].
    + destruct (lookup_lt_is_Some_2 rows r Hr) as [row Hrow].
      rewrite Hir by done.
      rewrite (lookup_concat_uniform rows (dcols b) r row c Hall Hrow Hcc).
      symmetry. by apply Hrc.
    + rewrite (lookup_ge_None_2 idx) by lia.
      apply lookup_ge_None_2.
      unfold EncodeIndices_order in Hout.
      destruct (mapM (encodeWithTiling t col) order) as [ys|] eqn:Hys;
        [|done].
      simpl in Hout. injection Hout as <-. apply mapM_Some_1 in Hys.
      pose proof (Forall2_length _ _ _ Hys) as Hly.
      assert (length order = NumTilings t) as Hko
        by (by rewrite Hperm, length_seq).
      rewrite length_app, length_map. unfold biasOf in Hlen.
      destruct (includeBias t); simpl in *; lia.
Qed.

(** X14. On a batch that a valid coder can encode (a square batch), with
    a feature space that [float64] indexes exactly (at most 2^53
    features), [EncodeIndicesBatch] returns; every outcome is a matrix
    with a row per tiling, plus one for the bias unit, and a column per
    sample, and its column [c] is an outcome of [EncodeIndices] on column
    [c] of the batch. *)
Theorem EncodeIndicesBatch_columns (t : TileCoder) (b : Dense) :
  valid_coder t -> exact_features t -> batch_input t b ->
  (exists out, EncodeIndicesBatch t b out) /\
  (forall out, EncodeIndicesBatch t b out ->
     drows out = (NumTilings t + Z.to_nat (biasOf t))%nat /\
     dcols out = dcols b /\ wf_dense out /\
     forall c, (c < dcols b)%nat ->
       exists col idx,
         ColView b c = Some col /\ ColView out c = Some idx /\
         EncodeIndices t col idx).
Proof. intros Hc _. by apply EncodeIndicesBatch_columns_aux. Qed.

Lemma EncodeIndicesBatch_columns_witness :
  valid_coder Ex.coder /\ exact_features Ex.coder /\
  batch_input Ex.coder Ex.square /\
  exists out, EncodeIndicesBatch Ex.coder Ex.square out.
Proof.
  split; [apply coder_valid|]. split; [apply coder_exact|].
  split; [apply batch_square_valid|].
  apply (EncodeIndicesBatch_columns Ex.coder Ex.square
           coder_valid coder_exact batch_square_valid).
Defined.

(** X15. On a batch that is not square neither [EncodeIndicesBatch] nor
    [EncodeBatch] returns: the worker of the first tiling panics in
    [IndexBatch]. *)
Theorem batch_encoders_panic_unless_square (t : TileCoder) (b : Dense) :
  (0 < NumTilings t)%nat ->
  Forall (fun tl => (0 < length (bins tl))%nat) (tilings t) ->
  wf_dense b -> drows b <> dcols b ->
  (forall out, ~ EncodeIndicesBatch t b out) /\
  (forall out, ~ EncodeBatch t b out).
Proof.
  intros Hk Hdims Hwf Hne.
  assert (forall out, ~ EncodeIndicesBatch t b out) as Hno.
  { intros out (s & Hrun & Hfinal & _).
    destruct (batch_rows_of_run t b s Hrun Hfinal)
      as (order & rows & Hperm & Hrows & _).
    unfold batchRows in Hrows.
    destruct (mapM (encodeBatchWithTiling t b) order) as [xs|] eqn:Hxs;
      [|done].
    apply mapM_Some_1 in Hxs.
    assert (0%nat ∈ order) as H0
      by (rewrite Hperm; apply elem_of_seq; lia).
    apply list_elem_of_lookup_1 in H0 as [i Hi].
    destruct (Forall2_lookup_l _ _ _ _ _ Hxs Hi) as (x & _ & Hx).
    destruct (lookup_lt_is_Some_2 (tilings t) 0) as [tl Htl];
      [unfold NumTilings in Hk; lia|].
    pose proof (Forall_lookup_1 _ _ _ _ Hdims Htl) as Hn. simpl in Hn.
    unfold encodeBatchWithTiling in Hx.
    change (featuresBeforeTiling t 0) with (Some 0) in Hx. simpl in Hx.
    rewrite Htl in Hx. simpl in Hx.
    by rewrite (IndexBatch_panics_unless_square_aux tl b Hn Hwf Hne) in Hx. }
  split; [done|].
  intros out (tileCoded & indices & _ & Hind & _). by apply (Hno indices).
Qed.

Lemma batch_encoders_panic_unless_square_witness :
  (0 < NumTilings Ex.coder)%nat /\ wf_dense Ex.wide /\
  drows Ex.wide <> dcols Ex.wide /\
  forall out, ~ EncodeIndicesBatch Ex.coder Ex.wide out.
Proof.
  split; [unfold NumTilings; simpl; lia|]. split; [reflexivity|].
  split; [simpl; lia|].
  apply (batch_encoders_panic_unless_square Ex.coder Ex.wide).
  - unfold NumTilings. simpl. lia.
  - repeat (apply Forall_cons; split; [simpl; lia|]). constructor.
  - reflexivity.
  - simpl. lia.
Defined.

(** ** Setting the ones of a tile-coded batch *)


Lemma ones_at_app acc ps qs :
  ones_at acc (ps ++ qs) = ones_at (ones_at acc ps) qs.
Proof. unfold ones_at. apply foldl_app. Qed.

(** The inner loop of [EncodeBatch] over the samples [l] of a row [v] of
    indices that are rows of the tile-coded matrix. *)
Lemma setRowOnes_spec L m (v : list float64) (l : list nat) :
  forall data,
    Forall (fun i => (i < m)%nat /\
                     exists x, v !! i = Some x /\
                               0 <= int_of_float64 x < Z.of_nat L) l ->
    foldl (fun acc' i =>
             tc' ← acc'; x ← v !! i; DenseSet tc' (int_of_float64 x) i 1%Q)
          (Some (mkDense L m data)) l
    = Some (mkDense L m
              (ones_at data
                 (map (fun i => cellOf m (default 0%Q (v !! i)) i) l))).
Proof.
  induction l as [|i l IH]; intros data Hall; [done|].
  apply Forall_cons in Hall as [(Hi & x & Hx & Hr) Hall].
  cbn [foldl map]. simpl mbind at 1. rewrite Hx. simpl.
  unfold DenseSet. simpl.
  destruct (Z.leb_spec 0 (int_of_float64 x)); [|lia].
  destruct (Z.ltb_spec (int_of_float64 x) (Z.of_nat L)); [|lia]. simpl.
  destruct (decide (i < m)%nat); [|lia].
  by rewrite IH.
Qed.

(** The outer loop of [EncodeBatch] over the rows [l] of the indices. *)
Lemma setBatchOnes_fold L (indices : Dense) (l : list nat) :
  forall data,
    Forall (fun r => exists row,
              RowView indices r = Some row /\ length row = dcols indices /\
              Forall (fun x => 0 <= int_of_float64 x < Z.of_nat L) row) l ->
    foldl (fun acc row =>
             tc ← acc;
             colIndices ← RowView indices row;
             foldl (fun acc' i =>
                      tc' ← acc'; x ← colIndices !! i;
                      DenseSet tc' (int_of_float64 x) i 1%Q)
                   (Some tc) (seq 0 (length colIndices)))
          (Some (mkDense L (dcols indices) data)) l
    = Some (mkDense L (dcols indices)
              (ones_at data
                 (concat (map (fun r => rowCells (dcols indices)
                                          (default [] (RowView indices r)))
                              l)))).
Proof.
  induction l as [|r l IH]; intros data Hall; [done|].
  apply Forall_cons in Hall as [(row & Hrow & Hlen & Hr) Hall].
  cbn [foldl map concat]. simpl mbind at 1. rewrite Hrow. simpl.
  rewrite (setRowOnes_spec L (dcols indices) row).
  - rewrite IH by done. by rewrite ones_at_app.
  - apply Forall_forall. intros i Hi. apply elem_of_seq in Hi.
    split; [lia|].
    destruct (lookup_lt_is_Some_2 row i) as [x Hx]; [lia|].
    exists x. split; [done|].
    by apply (Forall_lookup_1 _ _ _ _ Hr Hx).
Qed.

Lemma elem_of_concat {A} (x : A) (ls : list (list A)) :
  x ∈ concat ls <-> exists l, x ∈ l /\ l ∈ ls.
Proof.
  induction ls as [|l ls IH]; simpl.
  - split; [by intros H%elem_of_nil|]. intros (l & _ & H).
    by apply elem_of_nil in H.
  - rewrite elem_of_app, IH. split.
    + intros [H|(l' & H1 & H2)].
      * exists l. split; [done|]. apply elem_of_cons. by left.
      * exists l'. split; [done|]. apply elem_of_cons. by right.
    + intros (l' & H1 & H2). apply elem_of_cons in H2 as [->|H2];
        [by left | right; by exists l'].
Qed.

Lemma batchCells_elem (indices : Dense) q :
  q ∈ batchCells indices <->
  exists r i, (r < drows indices)%nat /\
              (i < length (default [] (RowView indices r)))%nat /\
              q = cellOf (dcols indices)
                    (default 0%Q (default [] (RowView indices r) !! i)) i.
Proof.
  unfold batchCells. rewrite elem_of_concat. split.
  - intros (cells & Hq & Hcells).
    apply list_elem_of_fmap in Hcells as (r & -> & Hr).
    unfold rowCells in Hq.
    apply list_elem_of_fmap in Hq as (i & -> & Hi).
    apply elem_of_seq in Hr. apply elem_of_seq in Hi.
    exists r, i. repeat split; [lia | lia].
  - intros (r & i & Hr & Hi & ->).
    exists (rowCells (dcols indices) (default [] (RowView indices r))).
    split.
    + unfold rowCells. apply list_elem_of_fmap. exists i. split; [done|].
      apply elem_of_seq. lia.
    + apply list_elem_of_fmap. exists r. split; [done|].
      apply elem_of_seq. lia.
Qed.

(** A cell of a row-major matrix determines its row and its column. *)
Lemma cell_unique (m p c q i : nat) :
  (c < m)%nat -> (i < m)%nat ->
  (p * m + c = q * m + i)%nat -> i = c /\ q = p.
Proof.
  intros Hc Hi Heq.
  assert (q = p) as ->.
  { transitivity ((p * m + c) `div` m)%nat.
    - rewrite Heq. apply Nat.div_unique with i; lia.
    - symmetry. apply Nat.div_unique with c; lia. }
  lia.
Qed.

(** The rows of an outcome of [EncodeIndicesBatch], read through its
    columns: entry [i] of row [r] is entry [r] of column [i], an index of
    the feature space. *)
Lemma EncodeIndicesBatch_rows (t : TileCoder) (b M : Dense) r :
  valid_coder t -> batch_input t b -> EncodeIndicesBatch t b M ->
  (r < drows M)%nat ->
  exists row,
    RowView M r = Some row /\ length row = dcols b /\
    Forall (fun x => 0 <= int_of_float64 x
                     < Z.of_nat (Z.to_nat (VecLength t))) row /\
    forall i idx, (i < dcols b)%nat -> ColView M i = Some idx ->
                  row !! i = idx !! r.
Proof.
  intros Hc Hb HM Hr.
  destruct (proj2 (EncodeIndicesBatch_columns_aux t b Hc Hb) M HM)
    as (HR & Hdc & Hwf & Hcols).
  destruct (RowView_spec M r Hwf Hr) as (row & Hrow & Hlen & Hlook).
  rewrite Hdc in Hlen.
  assert (forall i idx, (i < dcols b)%nat -> ColView M i = Some idx ->
                        row !! i = idx !! r) as Hri.
  { intros i idx Hi Hidx.
    destruct (ColView_spec M i Hwf) as (idx' & Hidx' & _ & Hcl); [lia|].
    assert (idx' = idx) as -> by congruence.
    rewrite Hlook by lia. by rewrite Hcl. }
  exists row. split; [done|]. split; [done|]. split; [|done].
  apply Forall_lookup_2. intros i x Hx.
  assert (i < dcols b)%nat as Hi by (apply lookup_lt_Some in Hx; lia).
  destruct (Hcols i Hi) as (col & idx & Hcol & Hidx & Hrun).
  pose proof (batch_input_column t b i col Hb Hcol Hi) as Hin.
  destruct (EncodeIndices_positions t col idx Hc Hin Hrun) as (_ & Hrange & _).
  rewrite (Hri i idx Hi Hidx) in Hx.
  assert (int_of_float64 x ∈ map int_of_float64 idx) as Hmem.
  { apply list_elem_of_fmap. exists x. split; [done|].
    by eapply list_elem_of_lookup_2. }
  rewrite Forall_forall in Hrange. pose proof (Hrange _ Hmem) as Hx0.
  simpl in Hx0. pose proof (VecLength_pos t Hc). lia.
Qed.

(** X16. On a batch that a valid coder can encode, [EncodeBatch] returns;
    every outcome has [VecLength] rows and a column per sample, and its
    column [c] is the tile-coded vector that [Encode] returns for column
    [c] of the batch. *)
Theorem EncodeBatch_columns (t : TileCoder) (b : Dense) :
  valid_coder t -> batch_input t b ->
  (exists out, EncodeBatch t b out) /\
  (forall out, EncodeBatch t b out ->
     Z.of_nat (drows out) = VecLength t /\ dcols out = dcols b /\
     forall c, (c < dcols b)%nat ->
       exists col enc,
         ColView b c = Some col /\ ColView out c = Some enc /\
         Encode t col enc).
Proof.
  intros Hc Hb. pose proof (VecLength_pos t Hc) as HL.
  pose proof (batch_input_cols t b Hc Hb) as Hm.
  set (Ln := Z.to_nat (VecLength t)).
  set (zeros := replicate (Ln * dcols b) 0%Q).
  assert (NewDense (VecLength t) (Z.of_nat (dcols b))
          = Some (mkDense Ln (dcols b) zeros)) as Hnew.
  { unfold NewDense.
    destruct (Z.leb_spec (VecLength t) 0); [lia|].
    destruct (Z.leb_spec (Z.of_nat (dcols b)) 0); [lia|]. simpl.
    by rewrite Nat2Z.id. }
  assert (forall M, EncodeIndicesBatch t b M ->
            setBatchOnes (mkDense Ln (dcols b) zeros) M
            = Some (mkDense Ln (dcols b) (ones_at zeros (batchCells M))))
    as Hfill.
  { intros M HM.
    destruct (proj2 (EncodeIndicesBatch_columns_aux t b Hc Hb) M HM)
      as (_ & Hdc & _).
    unfold setBatchOnes, batchCells. rewrite <- Hdc.
    apply setBatchOnes_fold. apply Forall_forall. intros r Hr.
    apply elem_of_seq in Hr.
    destruct (EncodeIndicesBatch_rows t b M r Hc Hb HM)
      as (row & Hrow & Hlen & Hrange & _); [lia|].
    exists row. split; [done|]. split; [lia | done]. }
  split.
  - destruct (proj1 (EncodeIndicesBatch_columns_aux t b Hc Hb)) as [M HM].
    eexists. exists (mkDense Ln (dcols b) zeros), M.
    split; [done|]. split; [done|]. by apply Hfill.
  - intros out (tileCoded & M & Hnew' & HM & Hset).
    assert (tileCoded = mkDense Ln (dcols b) zeros) as -> by congruence.
    rewrite (Hfill M HM) in Hset. injection Hset as <-. simpl.
    split; [unfold Ln; lia|]. split; [done|]. intros c Hcc.
    destruct (proj2 (EncodeIndicesBatch_columns_aux t b Hc Hb) M HM)
      as (HR & Hdc & Hwf & Hcols).
    destruct (Hcols c Hcc) as (col & idx & Hcol & Hidx & Hrun).
    pose proof (batch_input_column t b c col Hb Hcol Hcc) as Hin.
    destruct (ToVector_outcome t col idx Hc Hin Hrun) as [Hvnew Hvset].
    fold Ln in Hvnew, Hvset.
    assert (wf_dense (mkDense Ln (dcols b) (ones_at zeros (batchCells M))))
      as Hwfo.
    { unfold wf_dense. simpl. rewrite ones_at_length. unfold zeros.
      apply length_replicate. }
    destruct (ColView_spec _ c Hwfo Hcc) as (enc & Henc & Hel & Her).
    simpl in Hel, Her.
    destruct (ColView_spec M c Hwf) as (idx' & Hidx' & Hil & _); [lia|].
    assert (idx' = idx) as -> by congruence.
    exists col, enc. split; [done|]. split; [done|].
    assert (enc = ones_at (replicate Ln 0%Q) (map position idx)) as ->;
      [|by exists (replicate Ln 0%Q), idx].
    (* the cells of column c are the positions of the indices of column c *)
    assert (forall p, (p * dcols b + c)%nat ∈ batchCells M <->
                      p ∈ map position idx) as Hcells.
    { intros p. rewrite batchCells_elem. split.
      - intros (r & i & Hr & Hi & Hq).
        destruct (EncodeIndicesBatch_rows t b M r Hc Hb HM Hr)
          as (row & Hrow & Hlen & _ & Hri).
        rewrite Hrow in Hi, Hq. simpl in Hi, Hq. rewrite Hdc in Hq.
        destruct (lookup_lt_is_Some_2 row i Hi) as [x Hx].
        rewrite Hx in Hq. simpl in Hq. unfold cellOf in Hq.
        assert (i = c /\ position x = p) as [-> <-]
          by (apply (cell_unique (dcols b)); [done | lia | done]).
        apply list_elem_of_fmap. exists x. split; [done|].
        rewrite (Hri c idx Hcc Hidx) in Hx.
        by eapply list_elem_of_lookup_2.
      - intros Hp. apply list_elem_of_fmap in Hp as (x & -> & Hx).
        apply list_elem_of_lookup_1 in Hx as [r Hr].
        assert (r < drows M)%nat as Hrr
          by (apply lookup_lt_Some in Hr; lia).
        destruct (EncodeIndicesBatch_rows t b M r Hc Hb HM Hrr)
          as (row & Hrow & Hlen & _ & Hri).
        exists r, c. rewrite Hrow. simpl. rewrite Hdc.
        rewrite (Hri c idx Hcc Hidx), Hr. simpl.
        split; [done|]. split; [lia | done]. }
    apply list_eq. intros p.
    destruct (decide (p < Ln)%nat) as [Hp|Hp].
    + rewrite Her by done. rewrite !ones_at_lookup.
      unfold zeros. rewrite !length_replicate.
      destruct (decide (p ∈ map position idx /\ (p < Ln)%nat)) as [[H1 _]|Hn].
      * rewrite decide_True; [done|]. split; [by apply Hcells | nia].
      * rewrite decide_False.
        -- rewrite !lookup_replicate_2; [done | lia | nia].
        -- intros [H1 _]. apply Hn. split; [by apply Hcells | done].
    + rewrite (lookup_ge_None_2 enc) by lia.
      symmetry. apply lookup_ge_None_2.
      rewrite ones_at_length, length_replicate. lia.
Qed.

Lemma EncodeBatch_columns_witness :
  valid_coder Ex.coder /\ batch_input Ex.coder Ex.square /\
  exists out, EncodeBatch Ex.coder Ex.square out.
Proof.
  split; [apply coder_valid|]. split; [apply batch_square_valid|].
  apply (EncodeBatch_columns Ex.coder Ex.square
           coder_valid batch_square_valid).
Defined.

(** ** Construction, further *)







(** X19. [New] passes its one seed to every call of [NewTiling]: in the coder
    it returns, two tilings built from equal bin specifications are the
    same tiling, offsets included, and so give every vector the same
    tile. *)
Theorem New_equal_bins_equal_tilings (uniform : Sampler) (mins maxs : Vec)
    (binss : list (list Z)) (sd : Z) (bias : bool) (t : TileCoder)
    (i j : nat) (bs : list Z) :
  New uniform mins maxs binss sd bias = Some (inr t) ->
  binss !! i = Some bs -> binss !! j = Some bs ->
  exists tl,
    tilings t !! i = Some tl /\ tilings t !! j = Some tl /\
    bins tl = bs /\ seed tl = sd /\
    forall v, (tl' ← tilings t !! i; Index tl' v)
              = (tl' ← tilings t !! j; Index tl' v).
Proof.
  intros E Hi Hj. unfold New in E.
  pose proof (New_loop_spec uniform mins maxs sd binss 0%nat) as HN.
  destruct (New_loop uniform mins maxs binss sd 0) as [[[n err]|tls]|];
    simpl in E; [done | | done].
  injection E as <-. simpl.
  destruct (Forall2_lookup_l _ _ _ i bs HN Hi) as (tl & Htl & Hb).
  destruct (Forall2_lookup_l _ _ _ j bs HN Hj) as (tl' & Htl' & Hb').
  unfold builds in Hb, Hb'.
  assert (tl' = tl) as -> by congruence.
  exists tl. split; [done|]. split; [done|].
  assert (bins tl = bs /\ seed tl = sd) as [??].
  { destruct (NewTiling_cases uniform mins maxs bs sd OffsetDiv)
      as [(_ & E')|[(_ & _ & E')|[(_ & _ & _ & E')
                                 |(_ & _ & _ & ls & E' & _)]]];
      [congruence.. |].
    rewrite Hb in E'. destruct (uniform sd (map boundOf ls)); [|done].
    cbn in E'. injection E' as ->. by split. }
  split; [done|]. split; [done|]. intros v. by rewrite Htl, Htl'.
Qed.

Lemma New_equal_bins_equal_tilings_witness :
  New Ex.lowest [0%Q; 0%Q] [5%Q; 5%Q] [[2; 2]; [2; 2]] 1 false
    = Some (inr Ex.twins) /\
  tilings Ex.twins !! 0%nat = tilings Ex.twins !! 1%nat.
Proof.
  assert (New Ex.lowest [0%Q; 0%Q] [5%Q; 5%Q] [[2; 2]; [2; 2]] 1 false
          = Some (inr Ex.twins)) as E by reflexivity.
  split; [exact E|].
  destruct (New_equal_bins_equal_tilings Ex.lowest [0%Q; 0%Q] [5%Q; 5%Q]
              [[2; 2]; [2; 2]] 1 false Ex.twins 0 1 [2; 2] E
              eq_refl eq_refl) as (tl & -> & -> & _).
  reflexivity.
Defined.
